(** * SEO content analyzer: the text-scoring functions of [src/pages/Index.tsx]

    - [JS]: the part of the ECMAScript runtime the scoring functions call:
      code units, regular-expression matchers with continuations,
      [String.prototype.trim/split/replace/match/includes/toLowerCase],
      [Array.prototype.sort/slice/join/filter], an ordinary object used as a
      map, [Math.min]/[Math.max] and Numbers.
    - [Index]: the five functions of the source, written as in the source.
    - [Spec]: the notions the specification is stated with.
    - [Page]: the component [SEOAnalyzer]: its state, its handlers, the
      overall score, the colour of a score and the tabs of suggestions.
    - [Reference]: the notions the further properties are stated with.
    - [Binary64], [Runtime]: facts about the arithmetic and the runtime.
    - [Properties]: the properties of the specification, stated on [Index].
    - [Splitting] to [Notions]: facts about the runtime and the functions
      of [Index] and [Page]; [Behaviour]: further properties of both, and
      the properties of the specification that are stated on the text
      itself: on its words, tokens, headings and counts.

    Texts are [string]s whose characters are the code units U+0000..U+00FF;
    Numbers are the kernel's binary64 floats; lengths and counts are [nat]
    and become Numbers where the source divides them. *)

From Stdlib Require Import List String Ascii Bool Arith ZArith Lia.
From Stdlib Require Import Permutation.
From Stdlib Require Import Floats Uint63.
Import ListNotations.

Set Warnings "-inexact-float".

(* ================================================================= *)
(** ** The runtime *)

Module JS.

(** *** Code units *)

Definition code (c : ascii) : nat := nat_of_ascii c.

(** [WhiteSpace] and [LineTerminator] of ECMA-262 below U+0100: TAB, LF, VT,
    FF, CR, SP and NBSP.  [\s] and [trim] use their union. *)
Definition isLineTerminator (c : ascii) : bool :=
  (code c =? 10) || (code c =? 13).

Definition isWhiteSpace (c : ascii) : bool :=
  (code c =? 9) || (code c =? 10) || (code c =? 11) || (code c =? 12)
  || (code c =? 13) || (code c =? 32) || (code c =? 160).

Definition between (lo hi : nat) (c : ascii) : bool :=
  (lo <=? code c) && (code c <=? hi).

Definition isLower : ascii -> bool := between 97 122.   (* [a-z] *)
Definition isUpper : ascii -> bool := between 65 90.    (* [A-Z] *)
Definition isDigit : ascii -> bool := between 48 57.    (* [0-9] *)

(** [IsWordChar] of the pattern semantics: [A-Za-z0-9_]. *)
Definition isWordChar (c : ascii) : bool :=
  isLower c || isUpper c || isDigit c || (code c =? 95).

(** [toLowerCase] on one code unit: A-Z, and the Latin-1 capitals U+00C0..U+00DE
    without the multiplication sign U+00D7. *)
Definition toLower (c : ascii) : ascii :=
  if isUpper c || (between 192 222 c && negb (code c =? 215))
  then ascii_of_nat (code c + 32) else c.

(** [Canonicalize] under the [i] flag: the upper-case code unit.  U+00B5 and
    U+00FF have capitals above U+00FF and U+00DF has none of one unit; they
    stay distinct from every other code unit, as here. *)
Definition canonicalize (c : ascii) : ascii :=
  if isLower c || (between 224 254 c && negb (code c =? 247))
  then ascii_of_nat (code c - 32) else c.

Definition eqc (a b : ascii) : bool := code a =? code b.

(** *** Patterns

    A pattern is compiled to a matcher: a function of a match state and a
    continuation, as in the pattern semantics of ECMA-262.  The state holds
    the index reached, the code unit before it and the input from it on. *)

Record state := mkState
  { endIndex : nat; lastChar : option ascii; rest : list ascii }.

Definition continuation := state -> option state.
Definition matcher := state -> continuation -> option state.

Inductive regex :=
| Empty
| Chars (p : ascii -> bool)        (* a literal, a class or the dot *)
| Seq (r1 r2 : regex)
| Alt (r1 r2 : regex)
| Repeat (min : nat) (r : regex)   (* greedy r{min,} *)
| LineStart                        (* ^ under the m flag *)
| WordBoundary.                    (* \b *)

Definition step (x : state) : option (ascii * state) :=
  match rest x with
  | [] => None
  | ch :: tl => Some (ch, mkState (S (endIndex x)) (Some ch) tl)
  end.

(** The state [n] code units further on. *)
Fixpoint advance (n : nat) (x : state) : state :=
  match n with
  | 0 => x
  | S n' => match step x with Some (_, y) => advance n' y | None => x end
  end.

(** The greedy part of RepeatMatcher once the minimum is met: an iteration
    that leaves the index where it was fails.  Every iteration consumes a
    code unit, so the length of the remaining input bounds their number. *)
Fixpoint star (m : matcher) (fuel : nat) (x : state) (c : continuation)
  : option state :=
  match fuel with
  | 0 => c x
  | S fuel' =>
      match m x (fun y => if endIndex y =? endIndex x then None
                          else star m fuel' y c) with
      | Some z => Some z
      | None => c x
      end
  end.

Fixpoint atLeast (m : matcher) (min : nat) (x : state) (c : continuation)
  : option state :=
  match min with
  | 0 => star m (List.length (rest x)) x c
  | S min' => m x (fun y => atLeast m min' y c)
  end.

Definition isWordBefore (x : state) : bool :=
  match lastChar x with Some ch => isWordChar ch | None => false end.

Definition isWordAfter (x : state) : bool :=
  match rest x with ch :: _ => isWordChar ch | [] => false end.

Fixpoint compile (r : regex) : matcher :=
  match r with
  | Empty => fun x c => c x
  | Chars p => fun x c =>
      match step x with
      | Some (ch, y) => if p ch then c y else None
      | None => None
      end
  | Seq r1 r2 => fun x c => compile r1 x (fun y => compile r2 y c)
  | Alt r1 r2 => fun x c =>
      match compile r1 x c with
      | Some z => Some z
      | None => compile r2 x c
      end
  | Repeat min r' => atLeast (compile r') min
  | LineStart => fun x c =>
      match lastChar x with
      | None => c x
      | Some ch => if isLineTerminator ch then c x else None
      end
  | WordBoundary => fun x c =>
      if xorb (isWordBefore x) (isWordAfter x) then c x else None
  end.

(** The match of [r] that starts exactly at [x], if any. *)
Definition matchAt (r : regex) (x : state) : option state :=
  compile r x (fun y => Some y).

(** [y] is [x] some code units further on. *)
Definition reaches (x y : state) : Prop :=
  List.length (rest y) <= List.length (rest x) /\
  endIndex y + List.length (rest y) = endIndex x + List.length (rest x).

(** A matcher calls its continuation only on states further on: two
    continuations that agree there give the same result. *)
Definition local (m : matcher) : Prop :=
  forall x k k',
    (forall y, reaches x y -> k y = k' y) -> m x k = m x k'.

(** A matcher whose continuation always fails, fails. *)
Definition failing (m : matcher) : Prop :=
  forall x, m x (fun _ => None) = None.

(** Pattern atoms.  Under [i] a literal is compared after [canonicalize]. *)
Definition lit (a : ascii) : regex := Chars (eqc a).
Definition lit_i (a : ascii) : regex :=
  Chars (fun ch => eqc (canonicalize ch) (canonicalize a)).
Definition notLit (a : ascii) : regex := Chars (fun ch => negb (eqc ch a)).
Definition dot : regex := Chars (fun ch => negb (isLineTerminator ch)).
Definition space : regex := Chars isWhiteSpace.
Definition plus (r : regex) : regex := Repeat 1 r.
Definition many (r : regex) : regex := Repeat 0 r.

Fixpoint seqs (rs : list regex) : regex :=
  match rs with
  | [] => Empty
  | [r] => r
  | r :: rs' => Seq r (seqs rs')
  end.

(** *** RegExp and String methods *)

(** [RegExpBuiltinExec] without the sticky flag: the first index from the
    current one at which the pattern matches, with the state reached. *)
Fixpoint exec (r : regex) (i : nat) (prev : option ascii) (s : list ascii)
  : option (nat * state) :=
  match matchAt r (mkState i prev s) with
  | Some y => Some (i, y)
  | None =>
      match s with
      | [] => None
      | ch :: tl => exec r (S i) (Some ch) tl
      end
  end.

(** [RegExp.prototype.test] of a pattern without the g flag. *)
Definition test (r : regex) (s : list ascii) : bool :=
  match exec r 0 None s with Some _ => true | None => false end.

(** The loop of [String.prototype.match] under the g flag.  [lastIndex] is
    where the next [exec] starts: an index below it is not tried; after an
    empty match it is advanced by one. *)
Fixpoint matchLoop (r : regex) (lastIndex i : nat) (prev : option ascii)
  (s : list ascii) : list (list ascii) :=
  let attempt :=
    if i <? lastIndex then None else matchAt r (mkState i prev s) in
  match attempt with
  | Some y =>
      let lastIndex' := if endIndex y =? i then S i else endIndex y in
      firstn (endIndex y - i) s ::
      match s with
      | [] => []
      | ch :: tl => matchLoop r lastIndex' (S i) (Some ch) tl
      end
  | None =>
      match s with
      | [] => []
      | ch :: tl => matchLoop r lastIndex (S i) (Some ch) tl
      end
  end.

(** [s.match(/r/g)]: [null] (here [None]) when nothing matches. *)
Definition match_g (r : regex) (s : list ascii) : option (list (list ascii)) :=
  match matchLoop r 0 0 None s with
  | [] => None
  | l => Some l
  end.

(** [s.replace(/r/g, repl)] for a replacement text without [$]. *)
Fixpoint replaceLoop (r : regex) (repl : list ascii) (lastIndex i : nat)
  (prev : option ascii) (s : list ascii) : list ascii :=
  if i <? lastIndex then
    match s with
    | [] => []
    | ch :: tl => replaceLoop r repl lastIndex (S i) (Some ch) tl
    end
  else
    match matchAt r (mkState i prev s) with
    | Some y =>
        repl ++
        match s with
        | [] => []
        | ch :: tl =>
            if endIndex y =? i
            then ch :: replaceLoop r repl (S i) (S i) (Some ch) tl
            else replaceLoop r repl (endIndex y) (S i) (Some ch) tl
        end
    | None =>
        match s with
        | [] => []
        | ch :: tl => ch :: replaceLoop r repl lastIndex (S i) (Some ch) tl
        end
    end.

Definition replace_g (r : regex) (repl s : list ascii) : list ascii :=
  replaceLoop r repl 0 0 None s.

(** The loop of [RegExp.prototype[@@split]]: [p] is the start of the piece
    being read and [piece] its code units so far; the pattern is tried at
    [q = i], where a match that ends at [p] is ignored; after a match ending
    at [e] the loop goes on at [e] ([skip]). *)
Fixpoint splitLoop (r : regex) (p : nat) (piece : list ascii) (skip i : nat)
  (prev : option ascii) (s : list ascii) : list (list ascii) :=
  match s with
  | [] => [piece]
  | ch :: tl =>
      if i <? skip then splitLoop r p piece skip (S i) (Some ch) tl
      else
        match matchAt r (mkState i prev s) with
        | Some y =>
            let e := endIndex y in
            if e =? p then splitLoop r p (piece ++ [ch]) skip (S i) (Some ch) tl
            else
              piece ::
              (if e =? i
               then splitLoop r e [ch] skip (S i) (Some ch) tl
               else splitLoop r e [] e (S i) (Some ch) tl)
        | None => splitLoop r p (piece ++ [ch]) skip (S i) (Some ch) tl
        end
  end.

(** [s.split(/r/)]: on the empty text the result is [[]] when the pattern
    matches it and [[""]] otherwise. *)
Definition split (r : regex) (s : list ascii) : list (list ascii) :=
  match s with
  | [] =>
      match matchAt r (mkState 0 None []) with
      | Some _ => []
      | None => [[]]
      end
  | _ => splitLoop r 0 [] 0 0 None s
  end.

Fixpoint dropWhile (p : ascii -> bool) (s : list ascii) : list ascii :=
  match s with
  | [] => []
  | ch :: tl => if p ch then dropWhile p tl else s
  end.

Definition trim (s : list ascii) : list ascii :=
  rev (dropWhile isWhiteSpace (rev (dropWhile isWhiteSpace s))).

Definition toLowerCase (s : list ascii) : list ascii := map toLower s.

Fixpoint startsWith (sub s : list ascii) : bool :=
  match sub, s with
  | [], _ => true
  | _ :: _, [] => false
  | a :: sub', b :: s' => eqc a b && startsWith sub' s'
  end.

Fixpoint includes (sub s : list ascii) : bool :=
  startsWith sub s ||
  match s with
  | [] => false
  | _ :: tl => includes sub tl
  end.

(** The same methods on texts. *)
Definition chars : string -> list ascii := list_ascii_of_string.
Definition text : list ascii -> string := string_of_list_ascii.

Definition str_trim (s : string) : string := text (trim (chars s)).
Definition str_toLowerCase (s : string) : string := text (toLowerCase (chars s)).
Definition str_split (r : regex) (s : string) : list string :=
  map text (split r (chars s)).
Definition str_replace_g (r : regex) (repl s : string) : string :=
  text (replace_g r (chars repl) (chars s)).
Definition str_match_g (r : regex) (s : string) : option (list string) :=
  option_map (map text) (match_g r (chars s)).
Definition str_test (r : regex) (s : string) : bool := test r (chars s).
Definition str_includes (s sub : string) : bool := includes (chars sub) (chars s).

(** [a || []] on the result of [match]. *)
Definition orEmpty {A} (a : option (list A)) : list A :=
  match a with Some l => l | None => [] end.

(** [filter(Boolean)] on texts: the empty text is the only falsy one. *)
Definition filterBoolean (l : list string) : list string :=
  filter (fun s => negb (String.eqb s "")) l.

Definition slice {A} (from to : nat) (l : list A) : list A :=
  firstn (to - from) (skipn from l).

Fixpoint join (sep : string) (l : list string) : string :=
  match l with
  | [] => ""
  | [x] => x
  | x :: l' => x ++ sep ++ join sep l'
  end.

(** *** An ordinary object used as a map

    [keywordCounts] is created by [{}], so a key it does not own is looked
    up in [Object.prototype].  Its function-valued properties are listed
    here; the accessor [__proto__] is left out, no [\b[a-z]{3,}\b] match
    spells it.  A value stored under a key is a count or, once an inherited
    function has been used as the old count, the text of that native
    function followed by one "1" per update. *)

Inductive value :=
| Count (n : nat)
| NativeText (ones : nat).

Inductive lookup :=
| Undefined
| Own (v : value)
| InheritedFunction.

Definition object := list (string * value).

Definition prototypeFunctions : list string :=
  [ "constructor"; "hasOwnProperty"; "isPrototypeOf"; "propertyIsEnumerable";
    "toLocaleString"; "toString"; "valueOf"; "__defineGetter__";
    "__defineSetter__"; "__lookupGetter__"; "__lookupSetter__" ]%string.

Fixpoint getOwn (o : object) (k : string) : option value :=
  match o with
  | [] => None
  | (k', v) :: o' => if String.eqb k' k then Some v else getOwn o' k
  end.

Definition get (o : object) (k : string) : lookup :=
  match getOwn o k with
  | Some v => Own v
  | None =>
      if existsb (String.eqb k) prototypeFunctions
      then InheritedFunction else Undefined
  end.

(** [o[k] = v]: an own property keeps its place, a new one goes last (the
    keys here are not array indices, so this is the order of
    [Object.entries] and [Object.keys]). *)
Fixpoint set (o : object) (k : string) (v : value) : object :=
  match o with
  | [] => [(k, v)]
  | (k', v') :: o' =>
      if String.eqb k' k then (k', v) :: o' else (k', v') :: set o' k v
  end.

Definition entries (o : object) : list (string * value) := o.
Definition keys (o : object) : list string := map fst o.

(** [(x || 0) + 1]: a count is incremented; a function or a text is
    truthy, and [+] appends "1" to its text. *)
Definition orZeroPlusOne (x : lookup) : value :=
  match x with
  | Undefined => Count 1
  | Own (Count n) => Count (n + 1)
  | Own (NativeText k) => NativeText (k + 1)
  | InheritedFunction => NativeText 1
  end.

(** [b - a] on two stored values: the text of a native function is not a
    numeric literal, so the difference is NaN ([None]). *)
Definition minus (b a : value) : option Z :=
  match b, a with
  | Count y, Count x => Some (Z.of_nat y - Z.of_nat x)%Z
  | _, _ => None
  end.

(** *** [Array.prototype.sort] with a comparator

    [SortCompare] reads a NaN result as +0.  With a consistent comparator
    ECMA-262 fixes the result: the sorted order in which equal elements
    keep their places.  With any other comparator (one that returns NaN
    for some pair, as [minus] does) the order is left to the
    implementation.  The model follows V8 on an array of fewer than 64
    elements: [CountAndMakeRun] takes the run at the start of the array,
    reversing it when it is strictly descending, and [BinaryInsertionSort]
    inserts the other elements one by one at the place a binary search
    finds.  For a longer array V8 sorts stretches of 32 to 64 elements this
    way and merges them; the merging is not modelled, so that for 64
    elements or more the model is V8's order only where ECMA-262 fixes
    it. *)
Section Sort.
Variable A : Type.
Variable comparefn : A -> A -> option Z.

Definition sortCompare (x y : A) : Z :=
  match comparefn x y with Some v => v | None => 0%Z end.

(** The loop of [CountAndMakeRun]: how many further elements go on the run
    that ends with [previousElement]. *)
Fixpoint runLength (isDescending : bool) (previousElement : A) (l : list A)
  : nat :=
  match l with
  | [] => 0
  | currentElement :: l' =>
      let order := sortCompare currentElement previousElement in
      if (if isDescending then 0 <=? order else order <? 0)%Z then 0
      else S (runLength isDescending currentElement l')
  end.

(** [CountAndMakeRun]: the run at the start of the array, reversed when it
    is strictly descending, and the elements after it. *)
Definition countAndMakeRun (l : list A) : list A * list A :=
  match l with
  | elementHigh :: elementLow :: l' =>
      let isDescending := (sortCompare elementLow elementHigh <? 0)%Z in
      let n := 2 + runLength isDescending elementLow l' in
      (if isDescending then rev (firstn n l) else firstn n l, skipn n l)
  | _ => (l, [])
  end.

(** The search of [BinaryInsertionSort] for the place of [pivot] in the
    sorted part [a], between [left] and [right]. *)
Fixpoint insertionPoint (fuel : nat) (pivot : A) (a : list A)
  (left right : nat) : nat :=
  match fuel with
  | 0 => left
  | S fuel' =>
      if left <? right then
        let mid := left + (right - left) / 2 in
        match nth_error a mid with
        | Some x =>
            if (sortCompare pivot x <? 0)%Z
            then insertionPoint fuel' pivot a left mid
            else insertionPoint fuel' pivot a (S mid) right
        | None => left
        end
      else left
  end.

Definition binaryInsert (a : list A) (pivot : A) : list A :=
  let left := insertionPoint (List.length a) pivot a 0 (List.length a) in
  firstn left a ++ pivot :: skipn left a.

Definition sort (l : list A) : list A :=
  let (run, rest) := countAndMakeRun l in
  fold_left binaryInsert rest run.
End Sort.

Arguments sortCompare {A} comparefn x y.
Arguments runLength {A} comparefn isDescending previousElement l.
Arguments countAndMakeRun {A} comparefn l.
Arguments insertionPoint {A} comparefn fuel pivot a left right.
Arguments binaryInsert {A} comparefn a pivot.
Arguments sort {A} comparefn l.

(** *** Numbers *)

(** A length or a count as a Number.  No text is longer than
    [maxLength] = 2^53 - 1 code units, and up to there the conversion is
    exact. *)
Definition number (n : nat) : float := of_uint63 (of_Z (Z.of_nat n)).

Definition maxLength : Z := 2 ^ 53 - 1.

Definition wellFormed (s : string) : Prop :=
  (Z.of_nat (String.length s) <= maxLength)%Z.

(** [Math.min] and [Math.max] of two Numbers: NaN if either is NaN, and
    -0 is below +0. *)
Definition Math_min (a b : float) : float :=
  if is_nan a || is_nan b then nan
  else if (a <? b)%float then a
  else if (b <? a)%float then b
  else if get_sign a then a else b.

Definition Math_max (a b : float) : float :=
  if is_nan a || is_nan b then nan
  else if (a <? b)%float then b
  else if (b <? a)%float then a
  else if get_sign a then b else a.

(** *** Binary64 values, for the properties of the arithmetic

    [fexp prec emax] at the binary64 parameters, the shapes a rounded
    result can take, and the Number 100. *)
Definition fexp64 (x : Z) : Z := Z.max (x - 53) (-1074).

Definition signed (s : bool) (x : spec_float) : Prop :=
  x = S754_zero s \/ x = S754_infinity s \/ exists m e, x = S754_finite s m e.

Definition finite_or_zero (s : bool) (x : spec_float) : Prop :=
  x = S754_zero s \/ exists m e, x = S754_finite s m e.

Definition nonnan (x : spec_float) : Prop := x <> S754_nan.

Definition SF100 : spec_float := S754_finite false 7036874417766400 (-46).

End JS.

(* ================================================================= *)
(** ** The scoring functions of [src/pages/Index.tsx] *)

Module KeywordResult.
Record t := mk { score : float; keywords : list string }.
End KeywordResult.

Module HeadingResult.
Record t := mk { score : float; hasH1 : bool; hasSubheadings : bool }.
End HeadingResult.

Module Suggestions.
Record t := mk
  { readability : list string;
    keywords : list string;
    structure : list string;
    general : list string }.

Definition empty : t := mk [] [] [] [].

(** [suggestions.<category>.push(s)] *)
Definition pushReadability (st : t) (s : string) : t :=
  mk (readability st ++ [s]) (keywords st) (structure st) (general st).
Definition pushKeywords (st : t) (s : string) : t :=
  mk (readability st) (keywords st ++ [s]) (structure st) (general st).
Definition pushStructure (st : t) (s : string) : t :=
  mk (readability st) (keywords st) (structure st ++ [s]) (general st).
Definition pushGeneral (st : t) (s : string) : t :=
  mk (readability st) (keywords st) (structure st) (general st ++ [s]).
End Suggestions.

Module Index.
Import JS.

Local Open Scope string_scope.
Local Open Scope char_scope.

(** [/\s+/] *)
Definition whitespaceRun : regex := plus space.

(** [/[.!?]+/] *)
Definition isSentenceMark (ch : ascii) : bool :=
  eqc ch "." || eqc ch "!" || eqc ch "?".
Definition sentenceEnd : regex := plus (Chars isSentenceMark).

(** [/\b[a-z]{3,}\b/g] *)
Definition wordPattern : regex :=
  seqs [WordBoundary; Repeat 3 (Chars isLower); WordBoundary].

(** [/^#\s.+|<h1[^>]*>.+<\/h1>/im] *)
Definition h1Pattern : regex :=
  Alt (seqs [LineStart; lit_i "#"; space; plus dot])
      (seqs [lit_i "<"; lit_i "h"; lit_i "1"; many (notLit ">"); lit_i ">";
             plus dot;
             lit_i "<"; lit_i "/"; lit_i "h"; lit_i "1"; lit_i ">"]).

(** [/^#{2,}\s.+|<h[2-6][^>]*>.+<\/h[2-6]>/gim] *)
Definition subheadingPattern : regex :=
  Alt (seqs [LineStart; Repeat 2 (lit_i "#"); space; plus dot])
      (seqs [lit_i "<"; lit_i "h"; Chars (between 50 54); many (notLit ">");
             lit_i ">";
             plus dot;
             lit_i "<"; lit_i "/"; lit_i "h"; Chars (between 50 54); lit_i ">"]).

Local Open Scope float_scope.

(** The three counts of [calculateReadability]. *)
Definition readabilityWords (text : string) : nat :=
  List.length (str_split whitespaceRun (str_trim text)).
Definition readabilitySentences (text : string) : nat :=
  List.length (str_split sentenceEnd text).
Definition readabilityCharacters (text : string) : nat :=
  String.length (str_replace_g whitespaceRun "" text).

(** [100 - (avgWordsPerSentence * 1.8) - (avgCharsPerWord * 8)] *)
Definition readabilityFormula (words sentences characters : nat) : float :=
  let avgWordsPerSentence := number words / number sentences in
  let avgCharsPerWord := number characters / number words in
  100 - (avgWordsPerSentence * 1.8) - (avgCharsPerWord * 8).

Definition calculateReadability (text : string) : float :=
  let words := readabilityWords text in
  let sentences := readabilitySentences text in
  let characters := readabilityCharacters text in
  if (sentences =? 0)%nat || (words =? 0)%nat then 0
  else
    let readabilityScore := readabilityFormula words sentences characters in
    Math_max 0 (Math_min 100 readabilityScore).


(** [text.toLowerCase().match(/\b[a-z]{3,}\b/g) || []] *)
Definition keywordTokens (text : string) : list string :=
  orEmpty (str_match_g wordPattern (str_toLowerCase text)).

(** The body of [words.forEach]. *)
Definition countWord (keywordCounts : object) (word : string) : object :=
  set keywordCounts word (orZeroPlusOne (get keywordCounts word)).

Definition countWords (words : list string) : object :=
  fold_left countWord words [].

(** [(a, b) => b[1] - a[1]] *)
Definition byFrequency (a b : string * value) : option Z :=
  minus (snd b) (snd a).

Definition analyzeKeywords (text : string) : KeywordResult.t :=
  let words := keywordTokens text in
  let totalWords := List.length words in
  if (totalWords =? 0)%nat then KeywordResult.mk 0 []
  else
    let keywordCounts := countWords words in
    let sortedKeywords :=
      map fst (slice 0 5 (sort byFrequency (entries keywordCounts))) in
    let uniqueWordRatio :=
      number (List.length (keys keywordCounts)) / number totalWords in
    let keywordScore := Math_min 100 (uniqueWordRatio * 150) in
    KeywordResult.mk keywordScore sortedKeywords.

Definition analyzeHeadings (text : string) : HeadingResult.t :=
  let hasH1 := str_test h1Pattern text in
  let subheadingsMatch := str_match_g subheadingPattern text in
  let hasSubheadings :=
    match subheadingsMatch with
    | None => false
    | Some l => (0 <? List.length l)%nat
    end in
  let score := 0 in
  let score := if hasH1 then score + 50 else score in
  let score := if hasSubheadings then score + 50 else score in
  HeadingResult.mk score hasH1 hasSubheadings.

Definition calculateWordCount (text : string) : nat :=
  List.length (filterBoolean (str_split whitespaceRun (str_trim text))).

Definition quote : string := String (ascii_of_nat 34) EmptyString.

Definition msgShorter : string :=
  "Use shorter sentences to improve readability.".
Definition msgParagraphs : string :=
  "Break up long paragraphs into smaller ones.".
Definition msgIntensifiers : string :=
  Eval cbv in
    ("Replace generic intensifiers like " ++ quote ++ "very" ++ quote ++
     " and " ++ quote ++ "really" ++ quote ++
     " with more specific words.")%string.
Definition msgMoreKeywords : string :=
  "Include more relevant keywords throughout your content.".
Definition msgFocus (keywords : list string) : string :=
  ("Consider focusing on these keywords: " ++
   join ", " (slice 0 3 keywords) ++ ".")%string.
Definition msgH1 : string := "Add a clear H1 title to your content.".
Definition msgSubheadings : string :=
  "Add subheadings (H2, H3) to break up your content and improve structure.".
Definition msgMoreContent : string :=
  "Consider adding more content. Articles with 1000+ words tend to perform better in search results.".
Definition msgExternal : string :=
  "Include external links to authoritative sources to improve credibility.".
Definition msgInternal : string :=
  "Add internal links to other relevant content on your site.".

Definition getSEOSuggestions (text : string) : Suggestions.t :=
  let wordCount := calculateWordCount text in
  let readabilityScore := calculateReadability text in
  let keywords := KeywordResult.keywords (analyzeKeywords text) in
  let hasH1 := HeadingResult.hasH1 (analyzeHeadings text) in
  let hasSubheadings := HeadingResult.hasSubheadings (analyzeHeadings text) in
  let suggestions := Suggestions.empty in
  (* Readability suggestions *)
  let suggestions :=
    if readabilityScore <? 50
    then Suggestions.pushReadability
           (Suggestions.pushReadability suggestions msgShorter) msgParagraphs
    else suggestions in
  let suggestions :=
    if str_includes text "very" || str_includes text "really"
    then Suggestions.pushReadability suggestions msgIntensifiers
    else suggestions in
  (* Keyword suggestions *)
  let suggestions :=
    if (List.length keywords <? 3)%nat
    then Suggestions.pushKeywords suggestions msgMoreKeywords
    else Suggestions.pushKeywords suggestions (msgFocus keywords) in
  (* Structure suggestions *)
  let suggestions :=
    if negb hasH1 then Suggestions.pushStructure suggestions msgH1
    else suggestions in
  let suggestions :=
    if negb hasSubheadings
    then Suggestions.pushStructure suggestions msgSubheadings
    else suggestions in
  (* General suggestions *)
  let suggestions :=
    if (wordCount <? 300)%nat
    then Suggestions.pushGeneral suggestions msgMoreContent
    else suggestions in
  let suggestions := Suggestions.pushGeneral suggestions msgExternal in
  let suggestions := Suggestions.pushGeneral suggestions msgInternal in
  suggestions.

End Index.

(* ================================================================= *)
(** ** Notions of the specification *)

Module Spec.
Import JS Index.
Local Open Scope string_scope.
Local Open Scope char_scope.

(** A score in the closed interval [0,100]. *)
Definition inRange (x : float) : Prop :=
  (0 <=? x)%float = true /\ (x <=? 100)%float = true.

(** The clamp of [calculateReadability]. *)
Definition clamp (x : float) : float := Math_max 0 (Math_min 100 x).

Definition whitespaceOnly (text : string) : Prop :=
  Forall (fun ch => isWhiteSpace ch = true) (chars text).

(** No '.', '!' or '?' in the text. *)
Definition noSentenceMark (text : string) : Prop :=
  Forall (fun ch => isSentenceMark ch = false) (chars text).




(** A qualifying token: lower-case letters only, at least three. *)
Definition qualifying (w : string) : Prop :=
  3 <= String.length w /\ Forall (fun ch => isLower ch = true) (chars w).

(** The number of occurrences of a token among the tokens of a text, and
    the number of distinct tokens. *)
Definition frequency (tokens : list string) (w : string) : nat :=
  count_occ string_dec tokens w.


(** A token that names no function inherited from [Object.prototype]. *)
Definition plain (w : string) : Prop :=
  existsb (String.eqb w) prototypeFunctions = false.

(** The value stored under a key after a token has been counted [n] more
    times, from the stored value [old]. *)
Definition counted (old : option value) (n : nat) : option value :=
  match old, n with
  | None, 0 => None
  | None, _ => Some (Count n)
  | Some (Count m), _ => Some (Count (m + n))
  | Some (NativeText m), _ => Some (NativeText (m + n))
  end.

(** On [l] the comparator is the difference of a numeric key. *)
Definition byKey {A} (comparefn : A -> A -> option Z) (key : A -> nat)
  (l : list A) : Prop :=
  forall x y, In x l -> In y l ->
    sortCompare comparefn x y = (Z.of_nat (key y) - Z.of_nat (key x))%Z.

Fixpoint descending (l : list nat) : Prop :=
  match l with
  | [] => True
  | x :: l' =>
      match l' with [] => True | y :: _ => y <= x end /\ descending l'
  end.


(** *** The rule table of the suggestions

    A rule fires when its condition holds; the list of a category holds the
    texts of its fired rules, in the order of the table. *)




Definition focusText (keywords : list string) : string :=
  "Consider focusing on these keywords: "
  ++ join ", " (firstn 3 keywords) ++ ".".



(** The texts of the scenarios. *)
Definition newline : string := String (ascii_of_nat 10) EmptyString.

Definition scenario1 : string :=
  "# Title" ++ newline ++ newline
  ++ "This is a short sentence. This is another short sentence.".

End Spec.

(* ================================================================= *)
(** ** The component [SEOAnalyzer] of [src/pages/Index.tsx] *)

Module Page.
Import JS Index Spec.
Local Open Scope string_scope.

(** *** [Math.round] *)

(** An integer as a Number, exact below 2^53 in magnitude; zero takes the
    sign [s]. *)
Definition integer (s : bool) (n : Z) : float :=
  match n with
  | Z0 => if s then neg_zero else zero
  | Zpos _ => of_uint63 (of_Z n)
  | Zneg _ => (- of_uint63 (of_Z (- n)))%float
  end.

(** [Math.round]: the integer closest to [x], a tie going up; [x] itself
    when it is an integer, an infinity or NaN; a zero of the sign of [x]
    when the result is zero. *)
Definition Math_round (x : float) : float :=
  match Prim2SF x with
  | S754_finite s m e =>
      if (0 <=? e)%Z then x
      else integer s ((cond_Zopp s (Z.pos m) * 2 + 2 ^ (- e)) / 2 ^ (1 - e))%Z
  | _ => x
  end.

(** *** The component [SEOAnalyzer] *)

Record State := mkSt
  { content : string;
    analyzed : bool;
    readabilityScore : float;
    keywordScore : float;
    structureScore : float;
    wordCount : nat;
    suggestions : Suggestions.t }.

(** The values given to [useState]. *)
Definition initialState : State :=
  mkSt "" false 0 0 0 0 Suggestions.empty.

(** [!content.trim()]: the empty text is the only falsy text. *)
Definition isBlank (content : string) : bool :=
  String.eqb (str_trim content) "".

Definition handleAnalyze (st : State) : State :=
  if isBlank (content st) then st
  else
    let readability := calculateReadability (content st) in
    let keywords := analyzeKeywords (content st) in
    let headings := analyzeHeadings (content st) in
    let words := calculateWordCount (content st) in
    mkSt (content st) true readability (KeywordResult.score keywords)
      (HeadingResult.score headings) words (getSEOSuggestions (content st)).

(** [onChange={(e) => setContent(e.target.value)}] *)
Definition setContent (value : string) (st : State) : State :=
  mkSt value (analyzed st) (readabilityScore st) (keywordScore st)
    (structureScore st) (wordCount st) (suggestions st).

(** [onClick={() => setAnalyzed(false)}] *)
Definition analyzeNew (st : State) : State :=
  mkSt (content st) false (readabilityScore st) (keywordScore st)
    (structureScore st) (wordCount st) (suggestions st).

Definition overallScore (st : State) : float :=
  if analyzed st
  then Math_round ((readabilityScore st + keywordScore st + structureScore st) / 3)
  else 0.

Definition getScoreColor (score : float) : string :=
  if (70 <=? score)%float then "text-green-500"
  else if (40 <=? score)%float then "text-yellow-500"
  else "text-red-500".

(** What a tab of suggestions shows: the suggestions, or a message when
    there are none. *)
Inductive tabContent :=
| Items (l : list string)
| Message (s : string).

Definition tab (l : list string) (none : string) : tabContent :=
  if (0 <? List.length l)%nat then Items l else Message none.

Definition readabilityTab (st : State) : tabContent :=
  tab (Suggestions.readability (suggestions st))
    "Great job! Your content is easy to read.".
Definition keywordsTab (st : State) : tabContent :=
  tab (Suggestions.keywords (suggestions st))
    "Your keyword usage is well-optimized!".
Definition structureTab (st : State) : tabContent :=
  tab (Suggestions.structure (suggestions st))
    "Your content structure is well-organized!".
Definition generalTab (st : State) : tabContent :=
  Items (Suggestions.general (suggestions st)).

(** The events of the page: typing in the text area, the button "Analyze
    Content" (disabled on blank content) and the button "Analyze New
    Content" (shown with the results only). *)
Inductive event :=
| Change (value : string)
| ClickAnalyze
| ClickAnalyzeNew.

Definition dispatch (st : State) (ev : event) : State :=
  match ev with
  | Change value => setContent value st
  | ClickAnalyze => handleAnalyze st
  | ClickAnalyzeNew => if analyzed st then analyzeNew st else st
  end.

(** The states the page can be in; no text is longer than [maxLength]. *)
Inductive reachable : State -> Prop :=
| reachable_initial : reachable initialState
| reachable_step st ev :
    reachable st ->
    match ev with Change value => wellFormed value | _ => True end ->
    reachable (dispatch st ev).

Definition run (evs : list event) : State :=
  fold_left dispatch evs initialState.

End Page.

(* ================================================================= *)
(** ** The notions the further properties are stated with *)

Module Reference.
Import JS Index Spec Page.

(** *** Runs of a class of code units *)

Fixpoint takeWhile (p : ascii -> bool) (s : list ascii) : list ascii :=
  match s with
  | [] => []
  | ch :: tl => if p ch then ch :: takeWhile p tl else []
  end.

(** The pieces of a text between the maximal runs of a class; [inRun] says
    that the code unit before lay in the class. *)
Fixpoint pieces (p : ascii -> bool) (inRun : bool) (piece s : list ascii)
  : list (list ascii) :=
  match s with
  | [] => [piece]
  | ch :: tl =>
      if p ch
      then if inRun then pieces p true piece tl
           else piece :: pieces p true [] tl
      else pieces p false (piece ++ [ch]) tl
  end.

(** The number of maximal runs of a class in a text. *)
Fixpoint runs (p : ascii -> bool) (inRun : bool) (s : list ascii) : nat :=
  match s with
  | [] => 0
  | ch :: tl =>
      if p ch then (if inRun then 0 else 1) + runs p true tl
      else runs p false tl
  end.

Definition notWhiteSpace (ch : ascii) : bool := negb (isWhiteSpace ch).

Definition isNil (l : list ascii) : bool :=
  match l with [] => true | _ => false end.

(** *** Headings *)

(** The code unit before a position: [prev] before the text [pre]. *)
Definition before (prev : option ascii) (pre : list ascii) : option ascii :=
  fold_left (fun _ ch => Some ch) pre prev.

(** [pre] ends a line: nothing, or a line terminator last. *)
Definition endsLine (pre : list ascii) : Prop :=
  match before None pre with
  | None => True
  | Some ch => isLineTerminator ch = true
  end.

(** A markdown heading line somewhere in a text: at the start of a line,
    [n] hash signs of an accepted number, a white space and a code unit of
    the same line. *)
Definition markdownHeading (level : nat -> Prop) (s : list ascii) : Prop :=
  exists pre n ws c tl,
    s = pre ++ repeat "#"%char n ++ ws :: c :: tl /\
    endsLine pre /\ level n /\
    isWhiteSpace ws = true /\ isLineTerminator c = false.

Definition isH (ch : ascii) : bool := eqc ch "h" || eqc ch "H".

(** An HTML heading somewhere in a text: an opening tag of an accepted
    level with anything but [>] after the level, at least one code unit
    with no line terminator, and a closing tag of an accepted level. *)
Definition htmlHeading (level : ascii -> bool) (s : list ascii) : Prop :=
  exists pre h l attrs body h' l' tl,
    s = pre ++ "<"%char :: h :: l :: attrs ++ ">"%char :: body
            ++ "<"%char :: "/"%char :: h' :: l' :: ">"%char :: tl /\
    isH h = true /\ level l = true /\
    Forall (fun ch => eqc ch ">" = false) attrs /\
    body <> [] /\ Forall (fun ch => isLineTerminator ch = false) body /\
    isH h' = true /\ level l' = true.

(** The HTML alternative of the two heading patterns, the level aside. *)
Definition htmlPattern (level : regex) : regex :=
  seqs [lit_i "<"; lit_i "h"; level; many (notLit ">"); lit_i ">";
        plus dot;
        lit_i "<"; lit_i "/"; lit_i "h"; level; lit_i ">"].

(** A top-level heading, and a subheading, somewhere in a text. *)
Definition topLevelHeading (s : list ascii) : Prop :=
  markdownHeading (fun n => n = 1) s \/ htmlHeading (fun ch => eqc ch "1") s.

Definition subHeading (s : list ascii) : Prop :=
  markdownHeading (fun n => 2 <= n) s \/ htmlHeading (between 50 54) s.

(** *** Words and keywords *)

(** The words of a text in the sense of [\b]: its maximal runs of word
    characters [A-Za-z0-9_].  [word] is the run read so far. *)
Fixpoint words (word s : list ascii) : list (list ascii) :=
  match s with
  | [] => if isNil word then [] else [word]
  | ch :: tl =>
      if isWordChar ch then words (word ++ [ch]) tl
      else if isNil word then words [] tl else word :: words [] tl
  end.

(** A word that counts as a keyword: three code units or more, all of them
    lower-case letters. *)
Definition isKeyword (w : list ascii) : bool :=
  (3 <=? List.length w) && forallb isLower w.

(** No word goes on across the position between [prev] and [s]. *)
Definition atBoundary (prev : option ascii) (s : list ascii) : Prop :=
  match prev, s with
  | Some c, d :: _ => isWordChar c && isWordChar d = false
  | _, _ => True
  end.





Local Open Scope string_scope.

(** *** The states of the page *)

(** The results the state holds are those of the text [t]. *)
Definition resultsOf (t : string) (st : State) : Prop :=
  readabilityScore st = calculateReadability t /\
  keywordScore st = KeywordResult.score (analyzeKeywords t) /\
  structureScore st = HeadingResult.score (analyzeHeadings t) /\
  wordCount st = calculateWordCount t /\
  suggestions st = getSEOSuggestions t.

(** No analysis has run: the results are the initial ones. *)
Definition pristine (st : State) : Prop :=
  analyzed st = false /\
  readabilityScore st = 0%float /\ keywordScore st = 0%float /\
  structureScore st = 0%float /\ wordCount st = 0 /\
  suggestions st = Suggestions.empty.

Definition invariant (st : State) : Prop :=
  wellFormed (content st) /\
  (pristine st \/
   exists t, wellFormed t /\ ~ whitespaceOnly t /\ resultsOf t st).

(** *** Colours *)

(** What lies above a positive finite value. *)
Definition above (m : positive) (e : Z) (y : spec_float) : Prop :=
  y = S754_infinity false \/
  exists my ey,
    y = S754_finite false my ey /\
    (e < ey \/ (e = ey /\ (m <= my)%positive))%Z.

(** The colours in the order red, yellow, green. *)
Definition colorRank (color : string) : nat :=
  if String.eqb color "text-green-500" then 2
  else if String.eqb color "text-yellow-500" then 1
  else 0.

Local Open Scope Z_scope.

(** *** Magnitudes

    The magnitude of a finite value [m * 2^e], scaled by 2^1200 so that it
    is an integer for every exponent of binary64. *)
Definition scaled (m e : Z) : Z := m * 2 ^ (e + 1200).

Definition magnitude (x : spec_float) : Z :=
  match x with
  | S754_finite _ m e => scaled (Z.pos m) e
  | _ => 0
  end.

(** A value that is not negative and at most [B / 2^1200]. *)
Definition atMost (B : Z) (x : spec_float) : Prop :=
  finite_or_zero false x /\ magnitude x <= B.

Definition SF3 : spec_float := S754_finite false 6755399441055744 (-51).

Definition hundred : Z := 100 * 2 ^ 1200.

End Reference.

(* ================================================================= *)
(** ** Binary64 arithmetic: signs, NaN and overflow *)

Module Binary64.
Import JS.
Local Open Scope Z_scope.

Lemma digits2_pos_size p : digits2_pos p = Pos.size p.
Proof. induction p; simpl; congruence. Qed.

Lemma Zdigits2_nonneg m : 0 <= Zdigits2 m.
Proof. destruct m; simpl; lia. Qed.

Lemma Zdigits2_pos_iff m : 0 <= m -> (0 < Zdigits2 m <-> 0 < m).
Proof. destruct m; simpl; lia. Qed.

(* 2^(d-1) <= m < 2^d *)
Lemma Zdigits2_bounds m : 0 < m -> 2 ^ (Zdigits2 m - 1) <= m < 2 ^ Zdigits2 m.
Proof.
  destruct m as [|p|p]; try lia. intros _.
  change (Zdigits2 (Z.pos p)) with (Z.pos (digits2_pos p)).
  rewrite digits2_pos_size.
  assert (Hle : 2 ^ Z.pos (Pos.size p) <= 2 * Z.pos p).
  { change 2 with (Z.pos 2) at 1. rewrite <- Pos2Z.inj_pow.
    exact (Pos.size_le p). }
  assert (Hgt : Z.pos p < 2 ^ Z.pos (Pos.size p)).
  { change 2 with (Z.pos 2). rewrite <- Pos2Z.inj_pow. exact (Pos.size_gt p). }
  split; [|assumption].
  set (d := Z.pos (Pos.size p)) in *.
  assert (E : 2 ^ d = 2 * 2 ^ (d - 1)).
  { rewrite <- Z.pow_succ_r by (subst d; lia). f_equal. lia. }
  lia.
Qed.

Lemma Zdigits2_le m n : 0 <= m <= n -> Zdigits2 m <= Zdigits2 n.
Proof.
  intros [Hm Hn].
  destruct (Z.eq_dec m 0) as [->|Hm0]; [apply Zdigits2_nonneg|].
  pose proof (Zdigits2_bounds m ltac:(lia)) as [Hl _].
  pose proof (Zdigits2_bounds n ltac:(lia)) as [_ Hu].
  destruct (Z_lt_le_dec (Zdigits2 n) (Zdigits2 m)) as [Hlt|]; [|lia].
  assert (2 ^ Zdigits2 n <= 2 ^ (Zdigits2 m - 1))
    by (apply Z.pow_le_mono_r; lia).
  lia.
Qed.

Lemma Zdigits2_succ m : 0 <= m -> Zdigits2 (m + 1) <= Zdigits2 m + 1.
Proof.
  intros Hm.
  destruct (Z.eq_dec m 0) as [->|Hm0]; [simpl; lia|].
  pose proof (Zdigits2_bounds m ltac:(lia)) as [_ Hu].
  pose proof (Zdigits2_bounds (m + 1) ltac:(lia)) as [Hl _].
  destruct (Z_lt_le_dec (Zdigits2 m + 1) (Zdigits2 (m + 1))) as [Hlt|]; [|lia].
  pose proof (Zdigits2_nonneg m).
  assert (2 ^ Z.succ (Zdigits2 m) <= 2 ^ (Zdigits2 (m + 1) - 1))
    by (apply Z.pow_le_mono_r; lia).
  rewrite Z.pow_succ_r in * by lia.
  lia.
Qed.

Lemma shr_1_shape r :
  0 <= shr_m r ->
  0 <= shr_m (shr_1 r) /\
  Zdigits2 (shr_m (shr_1 r)) = Z.max 0 (Zdigits2 (shr_m r) - 1).
Proof.
  destruct r as [m b s]. cbn [shr_m]. intros Hm.
  destruct m as [|[p|p|]|p]; cbn [shr_1 shr_m Zdigits2 digits2_pos];
    rewrite ?Pos2Z.inj_succ; lia.
Qed.

Lemma iter_shr_1_shape p : forall r,
  0 <= shr_m r ->
  0 <= shr_m (iter_pos shr_1 p r) /\
  Zdigits2 (shr_m (iter_pos shr_1 p r)) = Z.max 0 (Zdigits2 (shr_m r) - Z.pos p).
Proof.
  induction p as [p IH|p IH|]; intros r Hr; simpl.
  - destruct (shr_1_shape r Hr) as [H1 E1].
    destruct (IH _ H1) as [H2 E2]. destruct (IH _ H2) as [H3 E3].
    split; [assumption|]. rewrite E3, E2, E1. lia.
  - destruct (IH _ Hr) as [H2 E2]. destruct (IH _ H2) as [H3 E3].
    split; [assumption|]. rewrite E3, E2. lia.
  - apply shr_1_shape; assumption.
Qed.

Lemma shr_m_of_loc m l : shr_m (shr_record_of_loc m l) = m.
Proof. destruct l as [|[]]; reflexivity. Qed.

Lemma shr_fexp_shape m e l :
  0 <= m ->
  let n := Z.max 0 (fexp prec emax (Zdigits2 m + e) - e) in
  0 <= shr_m (fst (shr_fexp prec emax m e l)) /\
  Zdigits2 (shr_m (fst (shr_fexp prec emax m e l))) = Z.max 0 (Zdigits2 m - n) /\
  snd (shr_fexp prec emax m e l) = e + n.
Proof.
  intros Hm n. unfold shr_fexp, shr. subst n.
  pose proof (Zdigits2_nonneg m).
  destruct (fexp prec emax (Zdigits2 m + e) - e) as [|p|p] eqn:E;
    cbn [fst snd]; rewrite ?shr_m_of_loc.
  - repeat split; lia.
  - destruct (iter_shr_1_shape p (shr_record_of_loc m l)) as [H1 H2].
    + rewrite shr_m_of_loc; assumption.
    + rewrite shr_m_of_loc in H2. repeat split; try assumption; lia.
  - repeat split; lia.
Qed.

Lemma round_nearest_even_shape m l :
  0 <= m ->
  0 <= round_nearest_even m l /\
  Zdigits2 m <= Zdigits2 (round_nearest_even m l) <= Zdigits2 m + 1.
Proof.
  intros Hm. pose proof (Zdigits2_succ m Hm).
  assert (Zdigits2 m <= Zdigits2 (m + 1)) by (apply Zdigits2_le; lia).
  unfold round_nearest_even.
  destruct l as [|[]]; try destruct (Z.even m); split; lia.
Qed.

Lemma fexp64_eq x : fexp prec emax x = fexp64 x.
Proof. reflexivity. Qed.

Lemma bra_shape s m e l :
  0 <= m ->
  exists d1,
    let dm := Zdigits2 m in
    let n := Z.max 0 (fexp64 (dm + e) - e) in
    let e' := e + n in
    let d' := Z.max 0 (dm - n) in
    let n2 := Z.max 0 (fexp64 (d1 + e') - e') in
    let e'' := e' + n2 in
    let d'' := Z.max 0 (d1 - n2) in
    d' <= d1 <= d' + 1 /\
    ((d'' = 0 /\ binary_round_aux prec emax s m e l = S754_zero s) \/
     (exists m'', Z.pos (digits2_pos m'') = d'' /\
        ((e'' <= 971 /\
          binary_round_aux prec emax s m e l = S754_finite s m'' e'') \/
         (971 < e'' /\
          binary_round_aux prec emax s m e l = S754_infinity s)))).
Proof.
  intros Hm. unfold binary_round_aux.
  pose proof (shr_fexp_shape m e l Hm) as (A1 & A2 & A3).
  destruct (shr_fexp prec emax m e l) as [mrs' e'] eqn:E1.
  cbn [fst snd] in A1, A2, A3.
  pose proof (round_nearest_even_shape (shr_m mrs') (loc_of_shr_record mrs') A1)
    as (B1 & B2).
  set (m1 := round_nearest_even (shr_m mrs') (loc_of_shr_record mrs')) in *.
  pose proof (shr_fexp_shape m1 e' loc_Exact B1) as (C1 & C2 & C3).
  destruct (shr_fexp prec emax m1 e' loc_Exact) as [mrs'' e''] eqn:E2.
  cbn [fst snd] in C1, C2, C3.
  rewrite fexp64_eq in *.
  exists (Zdigits2 m1). cbn zeta. rewrite <- A3, <- A2.
  split; [exact B2|].
  destruct (shr_m mrs'') as [|m''|m''] eqn:E3.
  - left. split; [|reflexivity]. rewrite <- C2. reflexivity.
  - right. exists m''. split; [rewrite <- C2; reflexivity|].
    rewrite <- C3. change (emax - prec) with 971.
    destruct (Z.leb_spec e'' 971); [left|right]; split; auto.
  - lia.
Qed.

Lemma bra_signed s m e l :
  0 <= m -> signed s (binary_round_aux prec emax s m e l).
Proof.
  intros Hm. destruct (bra_shape s m e l Hm) as (d1 & _ & H).
  cbn zeta in H. unfold signed.
  destruct H as [[_ ->]|(m'' & _ & [[_ ->]|[_ ->]])]; eauto.
Qed.

Lemma bra_no_overflow s m e l :
  0 <= m -> e <= 971 -> Zdigits2 m + e < 1024 ->
  finite_or_zero s (binary_round_aux prec emax s m e l).
Proof.
  intros Hm He Hd. destruct (bra_shape s m e l Hm) as (d1 & Hd1 & H).
  cbn zeta in *. unfold finite_or_zero, fexp64 in *.
  destruct H as [[_ ->]|(m'' & _ & [[_ ->]|[Hbig _]])]; eauto.
  exfalso. lia.
Qed.

Lemma bra_normal s m e l :
  0 < m -> e <= 971 -> Zdigits2 m + e < 1024 -> -1021 <= Zdigits2 m + e ->
  exists m'' e'', binary_round_aux prec emax s m e l = S754_finite s m'' e''.
Proof.
  intros Hm He Hd Hn.
  destruct (bra_shape s m e l ltac:(lia)) as (d1 & Hd1 & H).
  pose proof (proj2 (Zdigits2_pos_iff m ltac:(lia)) Hm).
  cbn zeta in *. unfold fexp64 in *.
  destruct H as [[Hz _]|(m'' & _ & [[_ ->]|[Hbig _]])]; eauto; exfalso; lia.
Qed.

Lemma iter_xO_digits d : forall m,
  Z.pos (digits2_pos (Pos.iter xO m d)) = Z.pos (digits2_pos m) + Z.pos d.
Proof.
  induction d as [|d IH] using Pos.peano_ind; intros m.
  - cbn [Pos.iter digits2_pos]. rewrite Pos2Z.inj_succ. lia.
  - rewrite Pos.iter_succ. cbn [digits2_pos].
    rewrite !Pos2Z.inj_succ, IH. lia.
Qed.

Lemma shl_align_shape mx ex ex' :
  Z.pos (digits2_pos (fst (shl_align mx ex ex'))) + snd (shl_align mx ex ex')
    = Z.pos (digits2_pos mx) + ex /\
  snd (shl_align mx ex ex') = Z.min ex ex'.
Proof.
  unfold shl_align. destruct (ex' - ex) as [|d|d] eqn:E; cbn [fst snd].
  - lia.
  - lia.
  - rewrite iter_xO_digits. lia.
Qed.

Lemma binary_round_aux_of_round s mx ex :
  exists mz ez,
    binary_round prec emax s mx ex
      = binary_round_aux prec emax s (Z.pos mz) ez loc_Exact /\
    Z.pos (digits2_pos mz) + ez = Z.pos (digits2_pos mx) + ex /\
    ez <= fexp64 (Z.pos (digits2_pos mx) + ex).
Proof.
  unfold binary_round.
  pose proof (shl_align_shape mx ex (fexp prec emax (Z.pos (digits2_pos mx) + ex)))
    as [H1 H2].
  destruct (shl_align mx ex _) as [mz ez]. cbn [fst snd] in *.
  exists mz, ez. rewrite fexp64_eq in *. repeat split; lia.
Qed.

Lemma binary_round_signed s mx ex : signed s (binary_round prec emax s mx ex).
Proof.
  destruct (binary_round_aux_of_round s mx ex) as (mz & ez & -> & _).
  apply bra_signed. lia.
Qed.

Lemma binary_round_no_overflow s mx ex :
  Z.pos (digits2_pos mx) + ex < 1024 ->
  finite_or_zero s (binary_round prec emax s mx ex).
Proof.
  intros H. destruct (binary_round_aux_of_round s mx ex) as (mz & ez & -> & E & L).
  apply bra_no_overflow; unfold fexp64 in *; cbn [Zdigits2]; lia.
Qed.

Lemma binary_round_normal s mx ex :
  -1021 <= Z.pos (digits2_pos mx) + ex < 1024 ->
  exists m e, binary_round prec emax s mx ex = S754_finite s m e.
Proof.
  intros H. destruct (binary_round_aux_of_round s mx ex) as (mz & ez & -> & E & L).
  apply bra_normal; unfold fexp64 in *; cbn [Zdigits2]; lia.
Qed.

Lemma signed_nonnan s x : signed s x -> nonnan x.
Proof. intros [->|[->|(m & e & ->)]]; discriminate. Qed.

Lemma binary_normalize_nonnan m e : nonnan (binary_normalize prec emax m e false).
Proof.
  destruct m; cbn [binary_normalize]; [discriminate| |];
    eapply signed_nonnan, binary_round_signed.
Qed.

Lemma SFdiv_finite mx ex my ey :
  signed false (SFdiv prec emax (S754_finite false mx ex) (S754_finite false my ey)).
Proof.
  cbn [SFdiv xorb]. unfold SFdiv_core_binary.
  set (m' := match _ with Z0 => Z.pos mx | Z.pos _ => _ | Z.neg _ => 0 end).
  assert (Hm' : 0 <= m').
  { subst m'. destruct (_ - _ - _) as [|p|p]; try lia.
    apply Z.shiftl_nonneg. lia. }
  pose proof (Z.div_pos m' (Z.pos my) Hm' ltac:(lia)) as Hq.
  unfold Z.div in Hq. destruct (Z.div_eucl m' (Z.pos my)) as [q r].
  apply bra_signed. exact Hq.
Qed.

Lemma SFdiv_signed x my ey :
  finite_or_zero false x ->
  signed false (SFdiv prec emax x (S754_finite false my ey)).
Proof.
  intros [->|(mx & ex & ->)].
  - left. reflexivity.
  - apply SFdiv_finite.
Qed.

Lemma SFmul_signed x my ey :
  signed false x ->
  signed false (SFmul prec emax x (S754_finite false my ey)).
Proof.
  intros [->|[->|(mx & ex & ->)]].
  - left. reflexivity.
  - right. left. reflexivity.
  - cbn [SFmul xorb]. apply bra_signed. lia.
Qed.

(** [100 - p] for a [p] that is not negative: not NaN and not +infinity. *)
Lemma SFsub_100 p :
  signed false p ->
  nonnan (SFsub prec emax SF100 p) /\
  SFsub prec emax SF100 p <> S754_infinity false.
Proof.
  intros [->|[->|(mp & ep & ->)]].
  - split; discriminate.
  - split; discriminate.
  - unfold SF100. cbn [SFsub cond_Zopp].
    set (ez := Z.min (-46) ep).
    pose proof (shl_align_shape 7036874417766400 (-46) ez) as [A1 A2].
    set (a := fst (shl_align 7036874417766400 (-46) ez)) in *.
    set (b := fst (shl_align mp ep ez)).
    split; [apply binary_normalize_nonnan|].
    destruct (Z.pos a - Z.pos b) as [|z|z] eqn:E; cbn [binary_normalize].
    + discriminate.
    + assert (Hz : Z.pos (digits2_pos z) + ez < 1024).
      { assert (Hle : Zdigits2 (Z.pos z) <= Zdigits2 (Z.pos a))
          by (apply Zdigits2_le; lia).
        cbn [Zdigits2] in Hle.
        change (Z.pos (digits2_pos 7036874417766400)) with 53 in A1.
        subst ez. lia. }
      destruct (binary_round_no_overflow false z ez Hz) as [->|(m & e & ->)];
        discriminate.
    + destruct (binary_round_signed true z ez) as [->|[->|(m & e & ->)]];
        discriminate.
Qed.

Lemma SFsub_nonnan t y :
  nonnan t -> t <> S754_infinity false -> signed false y ->
  nonnan (SFsub prec emax t y).
Proof.
  intros Ht Hi [->|[->|(my & ey & ->)]].
  - destruct t as [[]|[]| |s m e]; cbn; try discriminate; congruence.
  - destruct t as [[]|[]| |s m e]; cbn; try discriminate; congruence.
  - destruct t as [[]|[]| |s m e]; cbn [SFsub]; try discriminate;
      try congruence.
    apply binary_normalize_nonnan.
Qed.

Lemma Prim2SF_number n :
  Z.of_nat n < 2 ^ 63 ->
  Prim2SF (number n) = binary_normalize prec emax (Z.of_nat n) 0 false.
Proof.
  intros H. unfold number. rewrite of_uint63_spec, Uint63.of_Z_spec.
  rewrite Z.mod_small; [reflexivity|]. change wB with (2 ^ 63). lia.
Qed.

Lemma number_positive n :
  (0 < n)%nat -> Z.of_nat n < 2 ^ 63 ->
  exists m e, Prim2SF (number n) = S754_finite false m e.
Proof.
  intros Hn H. rewrite Prim2SF_number by assumption.
  destruct (Z.of_nat n) as [|p|p] eqn:E; try lia.
  cbn [binary_normalize]. apply binary_round_normal.
  pose proof (Zdigits2_bounds (Z.pos p) ltac:(lia)) as [Hl _].
  cbn [Zdigits2] in Hl.
  assert (Z.pos (digits2_pos p) <= 63).
  { destruct (Z_lt_le_dec 63 (Z.pos (digits2_pos p))) as [Hlt|]; [|lia].
    assert (2 ^ 63 <= 2 ^ (Z.pos (digits2_pos p) - 1))
      by (apply Z.pow_le_mono_r; lia).
    lia. }
  lia.
Qed.

Lemma number_finite_or_zero n :
  Z.of_nat n < 2 ^ 63 -> finite_or_zero false (Prim2SF (number n)).
Proof.
  intros H. destruct n as [|n].
  - left. reflexivity.
  - right. apply number_positive; [lia|assumption].
Qed.

(** *** Comparison *)

Lemma compare_cont_opp p q :
  Pos.compare_cont Eq q p = CompOpp (Pos.compare_cont Eq p q).
Proof. rewrite Pos.compare_cont_antisym. reflexivity. Qed.

Lemma SFcompare_antisym x y :
  SFcompare y x = option_map CompOpp (SFcompare x y).
Proof.
  destruct x as [sx|sx| |sx mx ex], y as [sy|sy| |sy my ey];
    try destruct sx; try destruct sy; try reflexivity;
    cbn [SFcompare option_map]; f_equal;
    rewrite (Z.compare_antisym ex ey), (compare_cont_opp mx my);
    destruct (ex ?= ey); cbn [CompOpp]; try reflexivity;
    destruct (Pos.compare_cont Eq mx my); reflexivity.
Qed.

Lemma SFltb_false_leb x y :
  nonnan x -> nonnan y -> SFltb x y = false -> SFleb y x = true.
Proof.
  intros Hx Hy. unfold SFltb, SFleb. rewrite (SFcompare_antisym x y).
  destruct (SFcompare x y) as [[]|] eqn:E; cbn; try congruence.
  intros _. destruct x, y; try congruence; cbn in E; try discriminate;
    repeat match type of E with context [if ?b then _ else _] => destruct b end;
    discriminate.
Qed.

Lemma SFltb_leb x y : SFltb x y = true -> SFleb x y = true.
Proof. unfold SFltb, SFleb. destruct (SFcompare x y) as [[]|]; congruence. Qed.

Lemma SFleb_zero_signed x :
  signed false x -> SFleb (S754_zero false) x = true.
Proof. intros [->|[->|(m & e & ->)]]; reflexivity. Qed.

Lemma is_nan_false x : nonnan (Prim2SF x) -> is_nan x = false.
Proof.
  unfold nonnan, Prim2SF. destruct (is_nan x); [congruence|reflexivity].
Qed.

Lemma is_nan_true x : Prim2SF x = S754_nan -> is_nan x = true.
Proof.
  intros H. unfold is_nan. rewrite FloatAxioms.eqb_spec, H. reflexivity.
Qed.

(** *** [Math.min], [Math.max] and the clamp *)

Lemma Prim2SF_100 : Prim2SF 100%float = SF100.
Proof. vm_compute. reflexivity. Qed.

Lemma nonnan_100 : nonnan (Prim2SF 100%float).
Proof. rewrite Prim2SF_100. discriminate. Qed.

(** [Math.min(100, x)] is [100] or [x], is not NaN and is at most 100. *)
Lemma Math_min_100 x :
  nonnan (Prim2SF x) ->
  (Math_min 100 x = 100%float \/ Math_min 100 x = x) /\
  nonnan (Prim2SF (Math_min 100 x)) /\
  (Math_min 100 x <=? 100)%float = true.
Proof.
  intros Hx. unfold Math_min.
  rewrite (is_nan_false x Hx).
  change (is_nan 100) with false. change (get_sign 100) with false.
  cbn [orb].
  destruct (100 <? x)%float eqn:E1.
  - split; [left; reflexivity|]. split; [apply nonnan_100|reflexivity].
  - assert (Hle : (x <=? 100)%float = true).
    { rewrite FloatAxioms.leb_spec. apply SFltb_false_leb;
        [apply nonnan_100|assumption|].
      rewrite <- FloatAxioms.ltb_spec. assumption. }
    destruct (x <? 100)%float; (split; [right; reflexivity|]); split; assumption.
Qed.

(** [Math.max(0, m)] lies between 0 and [m] when [m] is at most 100. *)
Lemma Math_max_0 m :
  nonnan (Prim2SF m) -> (m <=? 100)%float = true ->
  (0 <=? Math_max 0 m)%float = true /\ (Math_max 0 m <=? 100)%float = true.
Proof.
  intros Hm Hle. unfold Math_max.
  rewrite (is_nan_false m Hm).
  change (is_nan 0) with false. change (get_sign 0) with false.
  cbn [orb].
  destruct (0 <? m)%float eqn:E1.
  - split; [|assumption].
    rewrite FloatAxioms.leb_spec. apply SFltb_leb.
    rewrite <- FloatAxioms.ltb_spec. assumption.
  - destruct (m <? 0)%float; split; reflexivity.
Qed.

Lemma clamp_range x :
  nonnan (Prim2SF x) ->
  (0 <=? Math_max 0 (Math_min 100 x))%float = true /\
  (Math_max 0 (Math_min 100 x) <=? 100)%float = true.
Proof.
  intros Hx. destruct (Math_min_100 x Hx) as (_ & Hn & Hle).
  apply Math_max_0; assumption.
Qed.

End Binary64.

(* ================================================================= *)
(** ** The runtime: texts, patterns and the object of counts *)

Module Runtime.
Import JS Index.

Lemma length_chars s : List.length (chars s) = String.length s.
Proof. induction s as [|c s IH]; cbn; congruence. Qed.

Lemma length_text l : String.length (text l) = List.length l.
Proof. induction l as [|c l IH]; cbn; congruence. Qed.

Lemma chars_text l : chars (text l) = l.
Proof. apply list_ascii_of_string_of_list_ascii. Qed.

(** *** [split] *)

Lemma splitLoop_length_pos r s : forall p piece skip i prev,
  1 <= List.length (splitLoop r p piece skip i prev s).
Proof.
  induction s as [|ch tl IH]; intros; cbn [splitLoop].
  - cbn. lia.
  - destruct (i <? skip); [apply IH|].
    destruct (matchAt r _) as [y|]; [|apply IH].
    destruct (endIndex y =? p); [apply IH|]. cbn [List.length]. lia.
Qed.

Lemma split_length_pos r s :
  matchAt r (mkState 0 None []) = None -> 1 <= List.length (split r s).
Proof.
  intros H. destruct s as [|ch tl].
  - cbn [split]. rewrite H. cbn. lia.
  - apply splitLoop_length_pos.
Qed.

Lemma splitLoop_length_le r s : forall p piece skip i prev,
  List.length (splitLoop r p piece skip i prev s) <= List.length s + 1.
Proof.
  induction s as [|ch tl IH]; intros; cbn [splitLoop].
  - cbn. lia.
  - cbn [List.length]. destruct (i <? skip).
    { specialize (IH p piece skip (S i) (Some ch)). lia. }
    destruct (matchAt r _) as [y|].
    2:{ specialize (IH p (piece ++ [ch]) skip (S i) (Some ch)). lia. }
    destruct (endIndex y =? p).
    { specialize (IH p (piece ++ [ch]) skip (S i) (Some ch)). lia. }
    cbn [List.length]. destruct (endIndex y =? i).
    + specialize (IH (endIndex y) [ch] skip (S i) (Some ch)). lia.
    + specialize (IH (endIndex y) [] (endIndex y) (S i) (Some ch)). lia.
Qed.

Lemma split_length_le r s : List.length (split r s) <= List.length s + 1.
Proof.
  destruct s as [|ch tl].
  - cbn [split]. destruct (matchAt r _); cbn; lia.
  - apply splitLoop_length_le.
Qed.

(** A pattern [p+] over a class fails where the next code unit is not in
    the class. *)
Lemma plus_fails_at p i prev s :
  match s with [] => True | ch :: _ => p ch = false end ->
  matchAt (plus (Chars p)) (mkState i prev s) = None.
Proof.
  intros H. unfold matchAt, plus.
  destruct s as [|ch tl]; cbn [compile atLeast step rest]; [reflexivity|].
  rewrite H. reflexivity.
Qed.

(** Without a match anywhere the text is one piece. *)
Lemma splitLoop_no_match p s : forall p0 piece skip i prev,
  Forall (fun ch => p ch = false) s -> skip <= i ->
  splitLoop (plus (Chars p)) p0 piece skip i prev s = [piece ++ s].
Proof.
  induction s as [|ch tl IH]; intros p0 piece skip i prev Hs Hi;
    cbn [splitLoop].
  - rewrite app_nil_r. reflexivity.
  - inversion Hs as [|? ? Hch Htl]; subst.
    destruct (Nat.ltb_spec i skip); [lia|].
    rewrite plus_fails_at by exact Hch.
    rewrite IH by (auto; lia). rewrite <- app_assoc. reflexivity.
Qed.

Lemma split_no_match p s :
  Forall (fun ch => p ch = false) s ->
  split (plus (Chars p)) s = [s].
Proof.
  intros H. destruct s as [|ch tl].
  - cbn [split]. rewrite plus_fails_at by exact I. reflexivity.
  - unfold split. rewrite splitLoop_no_match by (auto; lia). reflexivity.
Qed.

(** *** [trim] *)

Lemma dropWhile_length p s : List.length (dropWhile p s) <= List.length s.
Proof.
  induction s as [|ch tl IH]; cbn [dropWhile]; [lia|].
  destruct (p ch); cbn [List.length]; lia.
Qed.

Lemma trim_length s : List.length (trim s) <= List.length s.
Proof.
  unfold trim. rewrite length_rev.
  etransitivity; [apply dropWhile_length|]. rewrite length_rev.
  apply dropWhile_length.
Qed.

Lemma dropWhile_all p s : Forall (fun ch => p ch = true) s -> dropWhile p s = [].
Proof.
  induction 1 as [|ch tl Hch _ IH]; cbn [dropWhile]; [reflexivity|].
  rewrite Hch. exact IH.
Qed.

Lemma trim_whitespace s :
  Forall (fun ch => isWhiteSpace ch = true) s -> trim s = [].
Proof.
  intros H. unfold trim. rewrite (dropWhile_all isWhiteSpace s H). reflexivity.
Qed.

(** *** [replace] with the empty replacement *)

Lemma replaceLoop_length r s : forall lastIndex i prev,
  List.length (replaceLoop r [] lastIndex i prev s) <= List.length s.
Proof.
  induction s as [|ch tl IH]; intros; cbn [replaceLoop].
  - destruct (i <? lastIndex); [cbn; lia|].
    destruct (matchAt r _); cbn; lia.
  - cbn [List.length]. destruct (i <? lastIndex).
    { specialize (IH lastIndex (S i) (Some ch)). lia. }
    destruct (matchAt r _) as [y|]; cbn [app List.length].
    + destruct (endIndex y =? i); cbn [List.length].
      * specialize (IH (S i) (S i) (Some ch)). lia.
      * specialize (IH (endIndex y) (S i) (Some ch)). lia.
    + specialize (IH lastIndex (S i) (Some ch)). lia.
Qed.

Lemma replaceLoop_skipped p repl s : forall lastIndex i prev,
  i + List.length s <= lastIndex ->
  replaceLoop (plus (Chars p)) repl lastIndex i prev s = [].
Proof.
  induction s as [|ch tl IH]; intros lastIndex i prev H; cbn [replaceLoop].
  - rewrite plus_fails_at by exact I. destruct (i <? lastIndex); reflexivity.
  - cbn [List.length] in H. destruct (Nat.ltb_spec i lastIndex); [|lia].
    apply IH. lia.
Qed.

Lemma compile_Chars p x c :
  compile (Chars p) x c =
  match step x with
  | Some (ch, y) => if p ch then c y else None
  | None => None
  end.
Proof. reflexivity. Qed.

Lemma star_S m fuel x c :
  star m (S fuel) x c =
  match m x (fun y => if endIndex y =? endIndex x then None
                      else star m fuel y c) with
  | Some z => Some z
  | None => c x
  end.
Proof. reflexivity. Qed.

Lemma atLeast_S m n x c :
  atLeast m (S n) x c = m x (fun y => atLeast m n y c).
Proof. reflexivity. Qed.

Lemma atLeast_0 m x c :
  atLeast m 0 x c = star m (List.length (rest x)) x c.
Proof. reflexivity. Qed.

(** *** The fuel of the greedy loop *)

Lemma reaches_refl x : reaches x x.
Proof. unfold reaches. lia. Qed.

Lemma reaches_trans x y z : reaches x y -> reaches y z -> reaches x z.
Proof. unfold reaches. lia. Qed.

Lemma reaches_step x ch y : step x = Some (ch, y) -> reaches x y.
Proof.
  unfold step, reaches. destruct x as [i prev [|c tl]]; cbn [rest endIndex];
    [discriminate|].
  intros H. injection H as <- <-. cbn [rest endIndex List.length]. lia.
Qed.

Lemma star_local m : local m -> forall fuel, local (fun x k => star m fuel x k).
Proof.
  intros Hm fuel. induction fuel as [|fuel IH]; intros x k k' H.
  - cbn [star]. apply H, reaches_refl.
  - rewrite !star_S. rewrite (H x (reaches_refl x)).
    rewrite (Hm x _ (fun y => if endIndex y =? endIndex x then None
                              else star m fuel y k')); [reflexivity|].
    intros y Hy. destruct (endIndex y =? endIndex x); [reflexivity|].
    apply IH. intros z Hz. apply H. eapply reaches_trans; eassumption.
Qed.

Lemma atLeast_local m : local m -> forall min, local (atLeast m min).
Proof.
  intros Hm min. induction min as [|min IH]; intros x k k' H.
  - rewrite !atLeast_0. apply (star_local m Hm); assumption.
  - cbn [atLeast]. apply Hm. intros y Hy. apply IH.
    intros z Hz. apply H. eapply reaches_trans; eassumption.
Qed.

Lemma compile_local r : local (compile r).
Proof.
  induction r as [|p|r1 IH1 r2 IH2|r1 IH1 r2 IH2|min r IH| |];
    intros x k k' H; cbn [compile].
  - apply H, reaches_refl.
  - destruct (step x) as [[ch y]|] eqn:E; [|reflexivity].
    rewrite (H y (reaches_step x ch y E)). reflexivity.
  - apply IH1. intros y Hy. apply IH2. intros z Hz. apply H.
    eapply reaches_trans; eassumption.
  - rewrite (IH1 x k k' H), (IH2 x k k' H). reflexivity.
  - apply (atLeast_local _ IH); assumption.
  - rewrite (H x (reaches_refl x)). reflexivity.
  - rewrite (H x (reaches_refl x)). reflexivity.
Qed.

Lemma star_failing m : local m -> failing m ->
  forall fuel, failing (fun x k => star m fuel x k).
Proof.
  intros Hl Hm fuel. induction fuel as [|fuel IH]; intros x; [reflexivity|].
  rewrite star_S. rewrite (Hl x _ (fun _ => None)); [rewrite Hm; reflexivity|].
  intros y _. destruct (endIndex y =? endIndex x); [reflexivity|apply IH].
Qed.

Lemma compile_failing r : failing (compile r).
Proof.
  induction r as [|p|r1 IH1 r2 IH2|r1 IH1 r2 IH2|min r IH| |];
    intros x; cbn [compile].
  - reflexivity.
  - destruct (step x) as [[ch y]|]; [destruct (p ch)|]; reflexivity.
  - rewrite (compile_local r1 x _ (fun _ => None)); [apply IH1|].
    intros y _. apply IH2.
  - rewrite IH1. apply IH2.
  - revert x. induction min as [|min IHmin]; intros x.
    + rewrite atLeast_0. apply (star_failing _ (compile_local r) IH).
    + cbn [atLeast]. rewrite (compile_local r x _ (fun _ => None)); [apply IH|].
      intros y _. apply IHmin.
  - destruct (lastChar x) as [ch|]; [destruct (isLineTerminator ch)|];
      reflexivity.
  - destruct (xorb _ _); reflexivity.
Qed.

(** The greedy loop does not depend on its fuel once that is the length of
    the remaining input: no iteration is cut short. *)
Lemma star_fuel r c : forall fuel x,
  List.length (rest x) <= fuel ->
  star (compile r) (S fuel) x c = star (compile r) fuel x c.
Proof.
  induction fuel as [|fuel IH]; intros x Hx.
  - rewrite star_S. cbn [star].
    rewrite (compile_local r x _ (fun _ => None));
      [rewrite compile_failing; reflexivity|].
    intros y [Hy1 Hy2].
    rewrite (proj2 (Nat.eqb_eq (endIndex y) (endIndex x))) by lia.
    reflexivity.
  - rewrite (star_S _ (S fuel)), (star_S _ fuel).
    rewrite (compile_local r x _
               (fun y => if endIndex y =? endIndex x then None
                         else star (compile r) fuel y c)); [reflexivity|].
    intros y [Hy1 Hy2].
    destruct (Nat.eqb_spec (endIndex y) (endIndex x)); [reflexivity|].
    apply IH. lia.
Qed.

Lemma star_enough_fuel r c x : forall extra,
  star (compile r) (List.length (rest x) + extra) x c
  = star (compile r) (List.length (rest x)) x c.
Proof.
  induction extra as [|extra IH].
  - rewrite Nat.add_0_r. reflexivity.
  - rewrite Nat.add_succ_r, star_fuel by lia. exact IH.
Qed.

(** *** Patterns over one class *)

(** The greedy loop over a class takes every code unit of a text that lies
    in the class. *)
Lemma star_takes_all p s : forall fuel i prev,
  Forall (fun ch => p ch = true) s -> List.length s <= fuel ->
  exists y,
    star (compile (Chars p)) fuel (mkState i prev s) (fun y => Some y) = Some y
    /\ endIndex y = i + List.length s.
Proof.
  induction s as [|ch tl IH]; intros fuel i prev Hs Hf.
  - exists (mkState i prev []). split; [|cbn; lia].
    destruct fuel; reflexivity.
  - inversion Hs as [|? ? Hch Htl]; subst.
    destruct fuel as [|fuel]; [cbn in Hf; lia|].
    cbn [List.length] in Hf.
    destruct (IH fuel (S i) (Some ch) Htl ltac:(lia)) as (y & Hy & Ey).
    exists y. split; [|cbn [List.length]; lia].
    rewrite star_S, compile_Chars. cbn [step rest endIndex]. rewrite Hch.
    cbn [endIndex]. rewrite (proj2 (Nat.eqb_neq (S i) i)) by lia.
    rewrite Hy. reflexivity.
Qed.

Lemma matchAt_plus p x :
  matchAt (plus (Chars p)) x =
  compile (Chars p) x
    (fun y => star (compile (Chars p)) (List.length (rest y)) y
                (fun z => Some z)).
Proof. reflexivity. Qed.

Lemma plus_takes_all p ch tl i prev :
  Forall (fun ch => p ch = true) (ch :: tl) ->
  exists y,
    matchAt (plus (Chars p)) (mkState i prev (ch :: tl)) = Some y
    /\ endIndex y = i + List.length (ch :: tl).
Proof.
  intros Hs. inversion Hs as [|? ? Hch Htl]; subst.
  destruct (star_takes_all p tl (List.length tl) (S i) (Some ch) Htl (le_n _))
    as (y & Hy & Ey).
  exists y. split; [|cbn [List.length]; lia].
  rewrite matchAt_plus, compile_Chars. cbn [step rest endIndex]. rewrite Hch.
  exact Hy.
Qed.

Lemma replace_whitespace s :
  Forall (fun ch => isWhiteSpace ch = true) s ->
  replace_g (plus space) [] s = [].
Proof.
  intros Hs. unfold replace_g, space. destruct s as [|ch tl].
  - cbn [replaceLoop Nat.ltb Nat.leb]. rewrite plus_fails_at by exact I.
    reflexivity.
  - destruct (plus_takes_all isWhiteSpace ch tl 0 None Hs) as (y & Hy & Ey).
    cbn [replaceLoop Nat.ltb Nat.leb]. rewrite Hy. cbn [app].
    cbn [List.length] in Ey. rewrite (proj2 (Nat.eqb_neq (endIndex y) 0)) by lia.
    apply replaceLoop_skipped. lia.
Qed.

(** *** [match] under the g flag *)

Lemma matchLoop_length r s : forall lastIndex i prev,
  List.length (matchLoop r lastIndex i prev s) <= List.length s + 1.
Proof.
  induction s as [|ch tl IH]; intros; cbn [matchLoop].
  - destruct (if i <? lastIndex then None else matchAt r _); cbn; lia.
  - destruct (if i <? lastIndex then None else matchAt r _) as [y|];
      cbn [List.length].
    + specialize (IH (if endIndex y =? i then S i else endIndex y) (S i) (Some ch)).
      lia.
    + specialize (IH lastIndex (S i) (Some ch)). lia.
Qed.

Lemma match_g_length r s :
  List.length (orEmpty (match_g r s)) <= List.length s + 1.
Proof.
  unfold match_g. pose proof (matchLoop_length r s 0 0 None) as H.
  destruct (matchLoop r 0 0 None s); cbn [orEmpty List.length] in *; lia.
Qed.

(** [\b[a-z]{3,}\b] finds nothing in a text without a lower-case letter. *)
Lemma wordPattern_fails_at i prev s :
  match s with [] => True | ch :: _ => isLower ch = false end ->
  matchAt wordPattern (mkState i prev s) = None.
Proof.
  intros H. unfold matchAt, wordPattern.
  cbn [seqs compile]. destruct (xorb _ _); [|reflexivity].
  destruct s as [|ch tl]; cbn [atLeast compile step rest]; [reflexivity|].
  rewrite H. reflexivity.
Qed.


(** *** The object of counts *)

Lemma keys_set_in o k v : In k (keys o) -> keys (set o k v) = keys o.
Proof.
  induction o as [|[k' v'] o IH]; cbn [keys map fst set In]; [tauto|].
  intros H. destruct (String.eqb_spec k' k) as [->|Hne]; [reflexivity|].
  cbn [map fst]. f_equal. apply IH. destruct H; [congruence|assumption].
Qed.

Lemma keys_set_notin o k v : ~ In k (keys o) -> keys (set o k v) = keys o ++ [k].
Proof.
  induction o as [|[k' v'] o IH]; cbn [keys map fst set In app]; [reflexivity|].
  intros H. destruct (String.eqb_spec k' k) as [->|Hne]; [tauto|].
  cbn [map fst]. f_equal. apply IH. tauto.
Qed.

Lemma keys_countWord o w :
  NoDup (keys o) ->
  NoDup (keys (countWord o w)) /\
  forall k, In k (keys (countWord o w)) <-> In k (keys o) \/ k = w.
Proof.
  intros Hnd. unfold countWord.
  destruct (in_dec string_dec w (keys o)) as [Hin|Hnin].
  - rewrite keys_set_in by assumption. split; [assumption|].
    intros k. split; [tauto|]. intros [H| ->]; assumption.
  - rewrite keys_set_notin by assumption. split.
    + apply NoDup_app; [assumption|constructor; [tauto|constructor]|].
      intros a Ha [<-|[]]. contradiction.
    + intros k. rewrite in_app_iff. cbn [In]. intuition congruence.
Qed.

Lemma keys_fold ws : forall o,
  NoDup (keys o) ->
  NoDup (keys (fold_left countWord ws o)) /\
  forall k, In k (keys (fold_left countWord ws o))
            <-> In k (keys o) \/ In k ws.
Proof.
  induction ws as [|w ws IH]; intros o Hnd; cbn [fold_left In].
  - split; [assumption|]. tauto.
  - destruct (keys_countWord o w Hnd) as [Hnd' Hin'].
    destruct (IH _ Hnd') as [H1 H2]. split; [assumption|].
    intros k. rewrite H2, Hin'. intuition congruence.
Qed.

Lemma keys_countWords ws :
  NoDup (keys (countWords ws)) /\
  forall k, In k (keys (countWords ws)) <-> In k ws.
Proof.
  destruct (keys_fold ws [] (NoDup_nil _)) as [H1 H2].
  split; [exact H1|]. intros k. rewrite (H2 k). cbn. tauto.
Qed.

Lemma keys_countWords_length ws :
  List.length (keys (countWords ws))
  = List.length (nodup string_dec ws).
Proof.
  destruct (keys_countWords ws) as [Hnd Hin].
  apply Nat.le_antisymm; apply NoDup_incl_length;
    try assumption; try apply NoDup_nodup;
    intros k Hk; [apply nodup_In, Hin|apply Hin, (nodup_In string_dec)];
    assumption.
Qed.

Lemma keys_countWords_le ws :
  List.length (keys (countWords ws)) <= List.length ws.
Proof.
  destruct (keys_countWords ws) as [Hnd Hin].
  apply NoDup_incl_length; [assumption|]. intros k Hk. apply Hin, Hk.
Qed.

Lemma keys_countWords_pos ws :
  ws <> [] -> 1 <= List.length (keys (countWords ws)).
Proof.
  destruct ws as [|w ws]; [congruence|]. intros _.
  destruct (keys_countWords (w :: ws)) as [_ Hin].
  assert (H : In w (keys (countWords (w :: ws))))
    by (apply Hin; left; reflexivity).
  destruct (keys (countWords (w :: ws))); [destruct H|cbn; lia].
Qed.

End Runtime.

(* ================================================================= *)
(** ** Properties of the scoring functions *)

Module Properties.
Import JS Index Spec Binary64 Runtime.
Local Open Scope string_scope.

(** *** Primitive operations on Numbers that are not negative *)

Lemma div_signed a b :
  finite_or_zero false (Prim2SF a) ->
  (exists m e, Prim2SF b = S754_finite false m e) ->
  signed false (Prim2SF (a / b)).
Proof.
  intros Ha (m & e & Hb). rewrite FloatAxioms.div_spec, Hb. apply SFdiv_signed, Ha.
Qed.

Lemma mul_signed a k mk ek :
  Prim2SF k = S754_finite false mk ek ->
  signed false (Prim2SF a) ->
  signed false (Prim2SF (a * k)).
Proof. intros Hk Ha. rewrite FloatAxioms.mul_spec, Hk. apply SFmul_signed, Ha. Qed.

Lemma Prim2SF_1_8 : Prim2SF 1.8 = S754_finite false 8106479329266893 (-52).
Proof. vm_compute. reflexivity. Qed.

Lemma Prim2SF_8 : Prim2SF 8 = S754_finite false 4503599627370496 (-49).
Proof. vm_compute. reflexivity. Qed.

Lemma Prim2SF_150 : Prim2SF 150 = S754_finite false 5277655813324800 (-45).
Proof. vm_compute. reflexivity. Qed.

Lemma readabilityFormula_nonnan words sentences characters :
  0 < words -> 0 < sentences ->
  (Z.of_nat words < 2 ^ 63)%Z -> (Z.of_nat sentences < 2 ^ 63)%Z ->
  (Z.of_nat characters < 2 ^ 63)%Z ->
  nonnan (Prim2SF (readabilityFormula words sentences characters)).
Proof.
  intros Hw Hs Bw Bs Bc. unfold readabilityFormula.
  pose proof (number_positive words Hw Bw) as Fw.
  pose proof (number_positive sentences Hs Bs) as Fs.
  assert (P : signed false (Prim2SF (number words / number sentences * 1.8))).
  { apply (mul_signed _ _ _ _ Prim2SF_1_8), div_signed; [|exact Fs].
    destruct Fw as (m & e & ->). right. eauto. }
  assert (Y : signed false (Prim2SF (number characters / number words * 8))).
  { apply (mul_signed _ _ _ _ Prim2SF_8), div_signed; [|exact Fw].
    apply number_finite_or_zero, Bc. }
  rewrite FloatAxioms.sub_spec. apply SFsub_nonnan; [| |exact Y];
    rewrite FloatAxioms.sub_spec, Prim2SF_100; apply SFsub_100, P.
Qed.

Lemma keywordScore_inRange unique total :
  0 < total -> (Z.of_nat unique < 2 ^ 63)%Z -> (Z.of_nat total < 2 ^ 63)%Z ->
  inRange (Math_min 100 (number unique / number total * 150)).
Proof.
  intros Ht Bu Bt.
  assert (V : signed false (Prim2SF (number unique / number total * 150))).
  { apply (mul_signed _ _ _ _ Prim2SF_150), div_signed.
    - apply number_finite_or_zero, Bu.
    - apply number_positive; assumption. }
  destruct (Math_min_100 _ (signed_nonnan _ _ V)) as ([E|E] & _ & Hle);
    split; try exact Hle; rewrite E.
  - reflexivity.
  - rewrite FloatAxioms.leb_spec. apply SFleb_zero_signed, V.
Qed.

(** *** The counts of [calculateReadability] *)

Lemma whitespaceRun_not_empty :
  matchAt whitespaceRun (mkState 0 None []) = None.
Proof. reflexivity. Qed.

Lemma sentenceEnd_not_empty :
  matchAt sentenceEnd (mkState 0 None []) = None.
Proof. reflexivity. Qed.

Lemma readabilityWords_pos text : 1 <= readabilityWords text.
Proof.
  unfold readabilityWords, str_split. rewrite length_map.
  apply split_length_pos, whitespaceRun_not_empty.
Qed.

Lemma readabilitySentences_pos text : 1 <= readabilitySentences text.
Proof.
  unfold readabilitySentences, str_split. rewrite length_map.
  apply split_length_pos, sentenceEnd_not_empty.
Qed.

Lemma readabilityWords_le text :
  readabilityWords text <= String.length text + 1.
Proof.
  unfold readabilityWords, str_split, str_trim.
  rewrite length_map, chars_text, <- length_chars.
  etransitivity; [apply split_length_le|].
  pose proof (trim_length (chars text)). lia.
Qed.

Lemma readabilitySentences_le text :
  readabilitySentences text <= String.length text + 1.
Proof.
  unfold readabilitySentences, str_split.
  rewrite length_map, <- length_chars. apply split_length_le.
Qed.

Lemma readabilityCharacters_le text :
  readabilityCharacters text <= String.length text.
Proof.
  unfold readabilityCharacters, str_replace_g.
  rewrite length_text, <- length_chars. apply replaceLoop_length.
Qed.

(** The guard of [calculateReadability] never fires. *)
Lemma calculateReadability_formula text :
  calculateReadability text
  = clamp (readabilityFormula (readabilityWords text)
             (readabilitySentences text) (readabilityCharacters text)).
Proof.
  unfold calculateReadability.
  pose proof (readabilityWords_pos text) as Hw.
  pose proof (readabilitySentences_pos text) as Hs.
  destruct (readabilitySentences text) as [|s]; [lia|].
  destruct (readabilityWords text) as [|w]; [lia|].
  reflexivity.
Qed.

Lemma small_count n text :
  wellFormed text -> n <= String.length text + 1 -> (Z.of_nat n < 2 ^ 63)%Z.
Proof. unfold wellFormed, maxLength. lia. Qed.

Lemma calculateReadability_inRange text :
  wellFormed text -> inRange (calculateReadability text).
Proof.
  intros Hwf. rewrite calculateReadability_formula. apply clamp_range.
  pose proof (readabilityWords_pos text).
  pose proof (readabilitySentences_pos text).
  pose proof (readabilityWords_le text).
  pose proof (readabilitySentences_le text).
  pose proof (readabilityCharacters_le text).
  apply readabilityFormula_nonnan;
    try lia; apply (small_count _ text Hwf); lia.
Qed.

Lemma keywordTokens_le text :
  List.length (keywordTokens text) <= String.length text + 1.
Proof.
  unfold keywordTokens, str_match_g, str_toLowerCase.
  rewrite chars_text.
  pose proof (match_g_length wordPattern (toLowerCase (chars text))) as H.
  unfold toLowerCase in H at 2. rewrite length_map, length_chars in H.
  destruct (match_g wordPattern (toLowerCase (chars text)));
    cbn [option_map orEmpty] in *; rewrite ?length_map; exact H.
Qed.

Lemma analyzeKeywords_score text :
  keywordTokens text <> [] ->
  KeywordResult.score (analyzeKeywords text)
  = Math_min 100
      (number (List.length (keys (countWords (keywordTokens text))))
       / number (List.length (keywordTokens text)) * 150).
Proof.
  intros H. unfold analyzeKeywords.
  destruct (keywordTokens text) as [|w ws]; [congruence|]. reflexivity.
Qed.

Lemma analyzeKeywords_inRange text :
  wellFormed text -> inRange (KeywordResult.score (analyzeKeywords text)).
Proof.
  intros Hwf. destruct (keywordTokens text) as [|w ws] eqn:E.
  - unfold analyzeKeywords. rewrite E. split; reflexivity.
  - rewrite analyzeKeywords_score by congruence.
    pose proof (keywordTokens_le text) as Hle.
    pose proof (keys_countWords_le (keywordTokens text)) as Hk.
    rewrite E in *. cbn [List.length] in Hle, Hk.
    apply keywordScore_inRange.
    + cbn [List.length]. lia.
    + apply (small_count _ text Hwf). lia.
    + apply (small_count _ text Hwf). cbn [List.length]. lia.
Qed.

Lemma analyzeHeadings_score text :
  HeadingResult.score (analyzeHeadings text)
  = (if HeadingResult.hasH1 (analyzeHeadings text)
     then if HeadingResult.hasSubheadings (analyzeHeadings text)
          then 100 else 50
     else if HeadingResult.hasSubheadings (analyzeHeadings text)
          then 50 else 0)%float.
Proof.
  unfold analyzeHeadings. cbn [HeadingResult.score HeadingResult.hasH1
    HeadingResult.hasSubheadings].
  destruct (str_test h1Pattern text);
    destruct (match str_match_g subheadingPattern text with
              | Some l => (0 <? List.length l)%nat | None => false end);
    vm_compute; reflexivity.
Qed.

Lemma analyzeHeadings_inRange text :
  inRange (HeadingResult.score (analyzeHeadings text)).
Proof.
  rewrite analyzeHeadings_score.
  destruct (HeadingResult.hasH1 _), (HeadingResult.hasSubheadings _);
    split; reflexivity.
Qed.

Lemma whitespace_not_sentenceMark ch :
  isWhiteSpace ch = true -> isSentenceMark ch = false.
Proof.
  destruct ch as [[] [] [] [] [] [] [] []]; vm_compute; congruence.
Qed.

(** Two Numbers that [=?] tells apart are different, when the first is
    not NaN. *)
Lemma float_neq (x y : float) :
  (x =? x)%float = true -> (x =? y)%float = false -> x <> y.
Proof. intros Hx Hxy E. subst y. congruence. Qed.

Lemma readabilitySentences_noSentenceMark text :
  noSentenceMark text -> readabilitySentences text = 1.
Proof.
  intros H. unfold readabilitySentences, str_split, sentenceEnd.
  rewrite (split_no_match isSentenceMark (chars text) H). reflexivity.
Qed.

Lemma whitespaceOnly_counts text :
  whitespaceOnly text ->
  readabilityWords text = 1 /\ readabilitySentences text = 1 /\
  readabilityCharacters text = 0.
Proof.
  intros H. split; [|split].
  - unfold readabilityWords, str_split, str_trim.
    rewrite chars_text, (trim_whitespace _ H). reflexivity.
  - apply readabilitySentences_noSentenceMark.
    eapply Forall_impl; [|exact H]. apply whitespace_not_sentenceMark.
  - unfold readabilityCharacters, str_replace_g, whitespaceRun.
    cbn [chars list_ascii_of_string].
    rewrite (replace_whitespace _ H). reflexivity.
Qed.

(** *** [includes] *)

Lemma eqc_eq a b : eqc a b = true <-> a = b.
Proof.
  unfold eqc, code. rewrite Nat.eqb_eq. split; [|congruence].
  intros H. rewrite <- (ascii_nat_embedding a), <- (ascii_nat_embedding b).
  congruence.
Qed.



Lemma chars_app a b : chars (a ++ b) = (chars a ++ chars b)%list.
Proof. induction a as [|c a IH]; cbn; congruence. Qed.

Lemma text_chars s : text (chars s) = s.
Proof. apply string_of_list_ascii_of_string. Qed.



(** *** The four lists of [getSEOSuggestions] *)


Lemma suggestions_keywords text :
  Suggestions.keywords (getSEOSuggestions text)
  = [ if (List.length (KeywordResult.keywords (analyzeKeywords text)) <? 3)%nat
      then msgMoreKeywords
      else msgFocus (KeywordResult.keywords (analyzeKeywords text)) ].
Proof.
  unfold getSEOSuggestions.
  destruct (calculateReadability text <? 50)%float,
    (str_includes text "very" || str_includes text "really"),
    (List.length (KeywordResult.keywords (analyzeKeywords text)) <? 3)%nat,
    (negb (HeadingResult.hasH1 (analyzeHeadings text))),
    (negb (HeadingResult.hasSubheadings (analyzeHeadings text))),
    (calculateWordCount text <? 300)%nat; reflexivity.
Qed.

Lemma suggestions_structure text :
  Suggestions.structure (getSEOSuggestions text)
  = ((if negb (HeadingResult.hasH1 (analyzeHeadings text))
      then [msgH1] else [])
     ++ (if negb (HeadingResult.hasSubheadings (analyzeHeadings text))
         then [msgSubheadings] else []))%list.
Proof.
  unfold getSEOSuggestions.
  destruct (calculateReadability text <? 50)%float,
    (str_includes text "very" || str_includes text "really"),
    (List.length (KeywordResult.keywords (analyzeKeywords text)) <? 3)%nat,
    (negb (HeadingResult.hasH1 (analyzeHeadings text))),
    (negb (HeadingResult.hasSubheadings (analyzeHeadings text))),
    (calculateWordCount text <? 300)%nat; reflexivity.
Qed.

Lemma suggestions_general text :
  Suggestions.general (getSEOSuggestions text)
  = ((if (calculateWordCount text <? 300)%nat then [msgMoreContent] else [])
     ++ [msgExternal; msgInternal])%list.
Proof.
  unfold getSEOSuggestions.
  destruct (calculateReadability text <? 50)%float,
    (str_includes text "very" || str_includes text "really"),
    (List.length (KeywordResult.keywords (analyzeKeywords text)) <? 3)%nat,
    (negb (HeadingResult.hasH1 (analyzeHeadings text))),
    (negb (HeadingResult.hasSubheadings (analyzeHeadings text))),
    (calculateWordCount text <? 300)%nat; reflexivity.
Qed.

(** *** The rule table *)


Lemma focusText_msgFocus keywords : focusText keywords = msgFocus keywords.
Proof. reflexivity. Qed.




(** *** Degenerate texts *)

Lemma calculateWordCount_whitespace text :
  whitespaceOnly text -> calculateWordCount text = 0.
Proof.
  intros H. unfold calculateWordCount, str_split, str_trim.
  rewrite chars_text, (trim_whitespace _ H). reflexivity.
Qed.




(** Neither heading pattern matches where the next code unit is not '#'
    and not '<'. *)
Lemma lit_i_hash ch : eqc (canonicalize ch) (canonicalize "#") = eqc ch "#".
Proof. destruct ch as [[] [] [] [] [] [] [] []]; reflexivity. Qed.

Lemma lit_i_less ch : eqc (canonicalize ch) (canonicalize "<") = eqc ch "<".
Proof. destruct ch as [[] [] [] [] [] [] [] []]; reflexivity. Qed.







(** *** What [\b[a-z]{3,}\b] matches *)

Lemma advance_endIndex n : forall x,
  n <= List.length (rest x) -> endIndex (advance n x) = endIndex x + n.
Proof.
  induction n as [|n IH]; intros x H; cbn [advance]; [lia|].
  unfold step. destruct x as [i prev [|ch tl]]; cbn [rest List.length] in *; [lia|].
  rewrite IH by (cbn [rest]; lia). cbn [endIndex]. lia.
Qed.

(** A successful greedy loop over a class has taken [n] code units of the
    class and then called its continuation. *)
Lemma star_sound p c z fuel : forall x,
  star (compile (Chars p)) fuel x c = Some z ->
  exists n,
    n <= List.length (rest x) /\
    Forall (fun ch => p ch = true) (firstn n (rest x)) /\
    c (advance n x) = Some z.
Proof.
  induction fuel as [|fuel IH]; intros x H.
  - exists 0. cbn in *. auto with arith.
  - rewrite star_S, compile_Chars in H. unfold step in H.
    destruct x as [i prev [|ch tl]]; cbn [rest endIndex] in *.
    + exists 0. cbn. auto.
    + destruct (p ch) eqn:Hp.
      * cbn [endIndex] in H. rewrite (proj2 (Nat.eqb_neq (S i) i)) in H by lia.
        destruct (star (compile (Chars p)) fuel _ c) as [z'|] eqn:E.
        -- injection H as <-. destruct (IH _ E) as (n & Hn & Hall & Hc).
           cbn [rest] in *. exists (S n). cbn [List.length firstn advance step rest].
           split; [lia|]. split; [constructor; assumption|exact Hc].
        -- exists 0. cbn. auto with arith.
      * exists 0. cbn. auto with arith.
Qed.

Lemma wordPattern_unfold x :
  matchAt wordPattern x =
  if xorb (isWordBefore x) (isWordAfter x)
  then atLeast (compile (Chars isLower)) 3 x
         (fun z => if xorb (isWordBefore z) (isWordAfter z)
                   then Some z else None)
  else None.
Proof. reflexivity. Qed.

Lemma atLeast_sound p c z min : forall x,
  atLeast (compile (Chars p)) min x c = Some z ->
  exists n,
    min <= n <= List.length (rest x) /\
    Forall (fun ch => p ch = true) (firstn n (rest x)) /\
    c (advance n x) = Some z.
Proof.
  induction min as [|min IH]; intros x H.
  - rewrite atLeast_0 in H. apply star_sound in H as (n & Hn & Hall & Hc).
    exists n. repeat split; auto with arith.
  - rewrite atLeast_S, compile_Chars in H. unfold step in H.
    destruct x as [i prev [|ch tl]]; cbn [rest] in *; [discriminate|].
    destruct (p ch) eqn:Hp; [|discriminate].
    apply IH in H as (n & Hn & Hall & Hc). cbn [rest] in *.
    exists (S n). cbn [List.length firstn advance step rest].
    split; [lia|]. split; [constructor; assumption|exact Hc].
Qed.

Lemma wordPattern_sound i prev s y :
  matchAt wordPattern (mkState i prev s) = Some y ->
  exists n,
    3 <= n <= List.length s /\
    Forall (fun ch => isLower ch = true) (firstn n s) /\
    endIndex y = i + n.
Proof.
  rewrite wordPattern_unfold. destruct (xorb _ _); [|discriminate].
  intros H. apply atLeast_sound in H as (n & Hn & Hall & Hc).
  cbn [rest] in *. exists n. split; [exact Hn|]. split; [exact Hall|].
  destruct (xorb _ _); [|discriminate]. injection Hc as <-.
  rewrite advance_endIndex by (cbn [rest]; lia). reflexivity.
Qed.

Lemma matchLoop_wordPattern_tokens s : forall lastIndex i prev w,
  In w (matchLoop wordPattern lastIndex i prev s) ->
  3 <= List.length w /\ Forall (fun ch => isLower ch = true) w.
Proof.
  induction s as [|ch tl IH]; intros lastIndex i prev w; cbn [matchLoop].
  - destruct (i <? lastIndex)%nat; [intros []|].
    rewrite (wordPattern_fails_at i prev [] I). intros [].
  - destruct (if (i <? lastIndex)%nat then None else matchAt wordPattern _)
      as [y|] eqn:E.
    + destruct (i <? lastIndex)%nat; [discriminate|].
      apply wordPattern_sound in E as (n & Hn & Hall & Ey).
      intros [<-|Hin]; [|eapply IH, Hin].
      replace (endIndex y - i) with n by lia.
      rewrite length_firstn. split; [lia|exact Hall].
    + apply IH.
Qed.

Lemma keywordTokens_qualifying text w :
  In w (keywordTokens text) -> qualifying w.
Proof.
  unfold keywordTokens, str_match_g, match_g, qualifying.
  destruct (matchLoop wordPattern 0 0 None (chars (str_toLowerCase text)))
    as [|t ts] eqn:E; cbn [option_map orEmpty]; [intros []|].
  intros Hin. apply in_map_iff in Hin as (l & <- & Hl).
  rewrite <- E in Hl. apply matchLoop_wordPattern_tokens in Hl.
  rewrite length_text, chars_text. exact Hl.
Qed.

(** *** [sort] *)

Section SortFacts.
Local Open Scope list_scope.
Variable A : Type.
Variable comparefn : A -> A -> option Z.

Lemma countAndMakeRun_perm l :
  Permutation (fst (countAndMakeRun comparefn l)
               ++ snd (countAndMakeRun comparefn l)) l.
Proof.
  destruct l as [|x [|y l]]; cbn [countAndMakeRun fst snd app];
    try reflexivity.
  set (n := 2 + runLength comparefn _ y l).
  destruct (sortCompare comparefn y x <? 0)%Z.
  - rewrite <- Permutation_rev, firstn_skipn. reflexivity.
  - rewrite firstn_skipn. reflexivity.
Qed.

Lemma binaryInsert_perm a pivot :
  Permutation (binaryInsert comparefn a pivot) (pivot :: a).
Proof.
  unfold binaryInsert. set (left := insertionPoint comparefn _ _ _ _ _).
  rewrite <- Permutation_middle, firstn_skipn. reflexivity.
Qed.

Lemma fold_binaryInsert_perm rest : forall run,
  Permutation (fold_left (binaryInsert comparefn) rest run) (run ++ rest).
Proof.
  induction rest as [|x rest IH]; intros run; cbn [fold_left].
  - rewrite app_nil_r. reflexivity.
  - rewrite IH, binaryInsert_perm. apply Permutation_middle.
Qed.

Lemma sort_perm l : Permutation (sort comparefn l) l.
Proof.
  unfold sort. pose proof (countAndMakeRun_perm l) as H.
  destruct (countAndMakeRun comparefn l) as [run rest]. cbn [fst snd] in H.
  rewrite fold_binaryInsert_perm. exact H.
Qed.

Lemma sort_In l y : In y (sort comparefn l) <-> In y l.
Proof.
  split; apply Permutation_in;
    [apply sort_perm|apply Permutation_sym, sort_perm].
Qed.

(** With a comparator that is the difference of a numeric key, [sort]
    orders by descending key. *)
Variable key : A -> nat.

Lemma descending_cons k l :
  descending (k :: l) <-> (forall j, In j l -> j <= k) /\ descending l.
Proof.
  revert k. induction l as [|j l IH]; intros k.
  - cbn. intuition.
  - change (descending (k :: j :: l)) with (j <= k /\ descending (j :: l)).
    rewrite (IH j). cbn [In]. split.
    + intros (Hjk & Hall & Hd). split; [|tauto].
      intros i [<-|Hi]; [assumption|]. specialize (Hall i Hi). lia.
    + intros (Hall & Hall' & Hd). split; [apply Hall; auto|tauto].
Qed.

Lemma descending_app_iff l1 l2 :
  descending (l1 ++ l2) <->
  descending l1 /\ descending l2 /\
  forall a b, In a l1 -> In b l2 -> b <= a.
Proof.
  induction l1 as [|x l1 IH]; cbn [app].
  - cbn. intuition.
  - rewrite !descending_cons, IH. split.
    + intros (Hall & H1 & H2 & H12). repeat split; auto.
      * intros j Hj. apply Hall, in_or_app. auto.
      * intros a b [<-|Ha] Hb; [apply Hall, in_or_app; auto|auto].
    + intros ((Hall & H1) & H2 & H12). repeat split; auto.
      * intros j Hj. apply in_app_or in Hj as [Hj|Hj]; [auto|].
        apply (H12 x j); cbn; auto.
      * intros a b Ha Hb. apply H12; cbn; auto.
Qed.

(** The run at the start is in descending order of key, once a strictly
    ascending one is reversed. *)
Lemma runLength_descending l : forall previous,
  byKey comparefn key (previous :: l) ->
  descending (map key (previous
                       :: firstn (runLength comparefn false previous l) l)).
Proof.
  induction l as [|current l IH]; intros previous Hk;
    cbn [runLength firstn map]; [cbn; auto|].
  rewrite (Hk current previous) by (cbn; auto).
  destruct (Z.ltb_spec (Z.of_nat (key previous) - Z.of_nat (key current)) 0)
    as [Hlt|Hge]; cbn [firstn map]; [cbn; auto|].
  change (key current <= key previous /\
          descending (map key (current
                      :: firstn (runLength comparefn false current l) l))).
  split; [lia|]. apply IH. intros a b Ha Hb. apply Hk; cbn [In] in *; tauto.
Qed.

Lemma runLength_ascending l : forall previous,
  byKey comparefn key (previous :: l) ->
  descending (map key (rev (previous
                       :: firstn (runLength comparefn true previous l) l))).
Proof.
  induction l as [|current l IH]; intros previous Hk;
    cbn [runLength firstn]; [cbn; auto|].
  rewrite (Hk current previous) by (cbn; auto).
  destruct (Z.leb_spec 0 (Z.of_nat (key previous) - Z.of_nat (key current)))
    as [Hge|Hlt]; cbn [firstn]; [cbn; auto|].
  assert (Hk' : byKey comparefn key (current :: l)).
  { intros a b Ha Hb. apply Hk; cbn [In] in *; tauto. }
  specialize (IH current Hk').
  set (run := firstn (runLength comparefn true current l) l) in *.
  change (rev (previous :: current :: run))
    with (rev (current :: run) ++ [previous]).
  rewrite map_app. apply descending_app_iff.
  split; [exact IH|]. split; [cbn; auto|].
  intros a b Ha [<-|[]].
  (* every key of the run from [current] on is at least that of [current] *)
  cbn [rev] in IH, Ha. rewrite map_app in IH, Ha.
  apply descending_app_iff in IH as (_ & _ & H).
  apply in_app_or in Ha as [Ha|[<-|[]]]; [|lia].
  specialize (H a (key current) Ha ltac:(cbn; auto)). lia.
Qed.

Lemma countAndMakeRun_descending l :
  byKey comparefn key l ->
  descending (map key (fst (countAndMakeRun comparefn l))).
Proof.
  intros Hk. destruct l as [|x [|y l]]; cbn [countAndMakeRun fst];
    [cbn; auto|cbn; auto|].
  assert (Hk' : byKey comparefn key (y :: l)).
  { intros a b Ha Hb. apply Hk; cbn [In] in *; tauto. }
  rewrite (Hk y x) by (cbn; auto).
  destruct (Z.ltb_spec (Z.of_nat (key x) - Z.of_nat (key y)) 0) as [Hlt|Hge].
  - pose proof (runLength_ascending l y Hk') as H.
    cbn [Nat.add firstn]. set (run := firstn _ l) in *.
    change (rev (x :: y :: run)) with (rev (y :: run) ++ [x]).
    rewrite map_app. apply descending_app_iff.
    split; [exact H|]. split; [cbn; auto|].
    intros a b Ha [<-|[]].
    cbn [rev] in H, Ha. rewrite map_app in H, Ha.
    apply descending_app_iff in H as (_ & _ & H).
    apply in_app_or in Ha as [Ha|[<-|[]]]; [|lia].
    specialize (H a (key y) Ha ltac:(cbn; auto)). lia.
  - pose proof (runLength_descending l y Hk') as H.
    cbn [Nat.add firstn map]. cbn [map] in H.
    change (key y <= key x /\
            descending (key y :: map key (firstn (runLength comparefn false y l) l))).
    split; [lia|exact H].
Qed.

(** Where the search of [BinaryInsertionSort] ends. *)
Lemma descending_nth a : forall mid x,
  descending (map key a) -> nth_error a mid = Some x ->
  Forall (fun y => key x <= key y) (firstn (S mid) a) /\
  Forall (fun y => key y <= key x) (skipn mid a).
Proof.
  induction a as [|z a IH]; intros mid x Hd Hn; [destruct mid; discriminate|].
  cbn [map] in Hd. apply descending_cons in Hd as [Hall Hd].
  destruct mid as [|mid]; cbn [nth_error] in Hn.
  - injection Hn as ->. cbn [firstn skipn]. split.
    + constructor; [lia|constructor].
    + constructor; [lia|]. apply Forall_forall. intros y Hy.
      apply Hall, in_map, Hy.
  - destruct (IH mid x Hd Hn) as [H1 H2]. cbn [skipn]. split; [|exact H2].
    change (firstn (S (S mid)) (z :: a)) with (z :: firstn (S mid) a).
    constructor; [|exact H1].
    apply Hall, in_map. eapply nth_error_In, Hn.
Qed.

Lemma Forall_skipn_le (P : A -> Prop) a : forall n m,
  n <= m -> Forall P (skipn n a) -> Forall P (skipn m a).
Proof.
  induction a as [|x a IH]; intros n m Hnm H.
  - rewrite skipn_nil. constructor.
  - destruct m as [|m]; [assert (n = 0) as -> by lia; exact H|].
    cbn [skipn]. destruct n as [|n].
    + cbn [skipn] in H. inversion H; subst. apply (IH 0 m); [lia|assumption].
    + cbn [skipn] in H. apply (IH n m); [lia|assumption].
Qed.

Lemma insertionPoint_spec pivot a :
  (forall x, In x a ->
     sortCompare comparefn pivot x
     = (Z.of_nat (key x) - Z.of_nat (key pivot))%Z) ->
  descending (map key a) ->
  forall fuel left right,
    right - left <= fuel -> right <= List.length a ->
    Forall (fun y => key pivot <= key y) (firstn left a) ->
    Forall (fun y => key y < key pivot) (skipn right a) ->
    let p := insertionPoint comparefn fuel pivot a left right in
    Forall (fun y => key pivot <= key y) (firstn p a) /\
    Forall (fun y => key y < key pivot) (skipn p a).
Proof.
  intros Hk Hd. induction fuel as [|fuel IH];
    intros left right Hf Hr Hl Hg; cbn [insertionPoint].
  - split; [exact Hl|]. apply (Forall_skipn_le _ a right left); [lia|exact Hg].
  - destruct (Nat.ltb_spec left right) as [Hlt|Hge].
    2:{ split; [exact Hl|].
        apply (Forall_skipn_le _ a right left); [lia|exact Hg]. }
    set (mid := left + (right - left) / 2).
    assert (Hmid : left <= mid < right).
    { subst mid.
      assert ((right - left) / 2 < right - left)
        by (apply Nat.div_lt; lia). lia. }
    destruct (nth_error a mid) as [x|] eqn:En.
    2:{ apply nth_error_None in En. lia. }
    destruct (descending_nth a mid x Hd En) as [H1 H2].
    rewrite (Hk x) by (eapply nth_error_In, En).
    destruct (Z.ltb_spec (Z.of_nat (key x) - Z.of_nat (key pivot)) 0)
      as [Hlo|Hhi].
    + apply IH; try lia; [exact Hl|].
      eapply Forall_impl; [|exact H2]. cbn. intros y Hy. lia.
    + apply IH; try lia; [|exact Hg].
      eapply Forall_impl; [|exact H1]. cbn. intros y Hy. lia.
Qed.

Lemma binaryInsert_descending a pivot :
  byKey comparefn key (pivot :: a) ->
  descending (map key a) ->
  descending (map key (binaryInsert comparefn a pivot)).
Proof.
  intros Hk Hd. unfold binaryInsert.
  destruct (insertionPoint_spec pivot a
              ltac:(intros x Hx; apply Hk; cbn; auto) Hd
              (List.length a) 0 (List.length a) ltac:(lia) (le_n _)
              ltac:(constructor)
              ltac:(rewrite skipn_all; constructor)) as [H1 H2].
  set (p := insertionPoint comparefn _ _ _ _ _) in *.
  rewrite <- (firstn_skipn p a), map_app in Hd.
  apply descending_app_iff in Hd as (D1 & D2 & D12).
  rewrite map_app. cbn [map]. apply descending_app_iff.
  split; [exact D1|]. split.
  - apply descending_cons. split; [|exact D2].
    intros j Hj. apply in_map_iff in Hj as (y & <- & Hy).
    rewrite Forall_forall in H2. specialize (H2 y Hy). lia.
  - intros i j Hi [<-|Hj].
    + apply in_map_iff in Hi as (y & <- & Hy).
      rewrite Forall_forall in H1. apply H1, Hy.
    + apply D12; assumption.
Qed.

Lemma fold_binaryInsert_descending rest : forall run,
  byKey comparefn key (run ++ rest) -> descending (map key run) ->
  descending (map key (fold_left (binaryInsert comparefn) rest run)).
Proof.
  induction rest as [|x rest IH]; intros run Hk Hd; cbn [fold_left];
    [exact Hd|].
  apply IH.
  - intros a b Ha Hb.
    apply in_app_or in Ha. apply in_app_or in Hb.
    apply Hk; apply in_or_app.
    + destruct Ha as [Ha|Ha]; [|cbn; auto].
      apply (Permutation_in _ (binaryInsert_perm run x)) in Ha.
      destruct Ha as [<-|Ha]; cbn; auto.
    + destruct Hb as [Hb|Hb]; [|cbn; auto].
      apply (Permutation_in _ (binaryInsert_perm run x)) in Hb.
      destruct Hb as [<-|Hb]; cbn; auto.
  - apply binaryInsert_descending; [|exact Hd].
    intros a b Ha Hb. apply Hk; apply in_or_app; cbn [In] in *; tauto.
Qed.

Lemma sort_descending l :
  byKey comparefn key l -> descending (map key (sort comparefn l)).
Proof.
  intros Hk. unfold sort.
  pose proof (countAndMakeRun_perm l) as Hp.
  pose proof (countAndMakeRun_descending l Hk) as Hd.
  destruct (countAndMakeRun comparefn l) as [run rest]. cbn [fst snd] in *.
  apply fold_binaryInsert_descending; [|exact Hd].
  intros a b Ha Hb. apply Hk; eapply Permutation_in; eauto.
Qed.

End SortFacts.

Lemma descending_firstn n : forall l, descending l -> descending (firstn n l).
Proof.
  induction n as [|n IH]; intros l Hd; [exact I|].
  destruct l as [|k l]; [exact I|]. cbn [firstn].
  apply descending_cons in Hd as [Hall Hd]. apply descending_cons.
  split; [|apply IH, Hd]. intros j Hj. apply Hall.
  clear -Hj. revert n Hj. induction l as [|x l IHl]; intros [|n] Hj;
    cbn in *; try tauto. destruct Hj; eauto.
Qed.

(** *** The counts of tokens that name no inherited property *)

Lemma getOwn_set o k v k' :
  getOwn (set o k v) k' = if String.eqb k k' then Some v else getOwn o k'.
Proof.
  induction o as [|[k0 v0] o IH]; cbn [set getOwn].
  - reflexivity.
  - destruct (String.eqb_spec k0 k) as [->|Hne]; cbn [getOwn].
    + destruct (String.eqb k k'); reflexivity.
    + rewrite IH. destruct (String.eqb_spec k0 k') as [->|Hne'];
        [|reflexivity].
      destruct (String.eqb_spec k k'); [congruence|reflexivity].
Qed.

Lemma getOwn_fold ws : forall o k,
  Forall plain ws ->
  getOwn (fold_left countWord ws o) k
  = counted (getOwn o k) (frequency ws k).
Proof.
  induction ws as [|w ws IH]; intros o k Hp; cbn [fold_left].
  - unfold frequency. cbn [count_occ]. unfold counted.
    destruct (getOwn o k) as [[m|m]|]; rewrite ?Nat.add_0_r; reflexivity.
  - inversion Hp as [|? ? Hw Hws]; subst.
    rewrite (IH _ k Hws). unfold countWord. rewrite getOwn_set.
    unfold frequency. cbn [count_occ].
    destruct (string_dec w k) as [->|Hne].
    + rewrite String.eqb_refl. unfold get.
      destruct (getOwn o k) as [[m|m]|] eqn:E; cbn [orZeroPlusOne counted].
      * do 2 f_equal. lia.
      * do 2 f_equal. lia.
      * unfold plain in Hw. rewrite Hw. cbn [orZeroPlusOne counted].
        reflexivity.
    + destruct (String.eqb_spec w k); [congruence|]. reflexivity.
Qed.

Lemma getOwn_In o : forall k v,
  NoDup (keys o) -> In (k, v) o -> getOwn o k = Some v.
Proof.
  induction o as [|[k0 v0] o IH]; intros k v Hnd Hin; [destruct Hin|].
  cbn [keys map fst] in Hnd. inversion Hnd as [|? ? Hnot Hnd']; subst.
  cbn [getOwn]. destruct Hin as [E|Hin].
  - injection E as -> ->. rewrite String.eqb_refl. reflexivity.
  - destruct (String.eqb_spec k0 k) as [->|Hne]; [|apply IH; assumption].
    exfalso. apply Hnot. change (In (fst (k, v)) (map fst o)).
    apply in_map, Hin.
Qed.

Lemma entries_counts ws k v :
  Forall plain ws -> In (k, v) (entries (countWords ws)) ->
  v = Count (frequency ws k).
Proof.
  intros Hp Hin. unfold entries in Hin.
  pose proof (getOwn_In _ _ _ (proj1 (keys_countWords ws)) Hin) as H.
  unfold countWords in H. rewrite (getOwn_fold ws [] k Hp) in H.
  cbn [getOwn counted] in H.
  destruct (frequency ws k); [discriminate|]. congruence.
Qed.

Lemma In_firstn (A : Type) n : forall (l : list A) x,
  In x (firstn n l) -> In x l.
Proof.
  induction n as [|n IH]; intros [|y l] x H; cbn in *; try tauto.
  destruct H; eauto.
Qed.

(** *** The keyword list *)

Lemma keywords_unfold text :
  keywordTokens text <> [] ->
  KeywordResult.keywords (analyzeKeywords text)
  = map fst (firstn 5 (sort byFrequency
                         (entries (countWords (keywordTokens text))))).
Proof.
  intros H. unfold analyzeKeywords.
  destruct (keywordTokens text) as [|w ws]; [congruence|]. reflexivity.
Qed.

Lemma keywords_length text :
  List.length (KeywordResult.keywords (analyzeKeywords text)) <= 5.
Proof.
  destruct (keywordTokens text) as [|w ws] eqn:E.
  - unfold analyzeKeywords. rewrite E. cbn. lia.
  - rewrite keywords_unfold by congruence.
    rewrite length_map, length_firstn. lia.
Qed.

Lemma keywords_are_tokens text w :
  In w (KeywordResult.keywords (analyzeKeywords text)) ->
  In w (keywordTokens text).
Proof.
  destruct (keywordTokens text) as [|t ts] eqn:E.
  - unfold analyzeKeywords. rewrite E. intros [].
  - rewrite keywords_unfold by congruence. rewrite E.
    intros H. apply in_map_iff in H as ([k v] & <- & H).
    apply In_firstn, sort_In in H.
    apply (keys_countWords (t :: ts)). unfold keys.
    change k with (fst (k, v)). apply in_map, H.
Qed.

Lemma keywords_qualifying text w :
  In w (KeywordResult.keywords (analyzeKeywords text)) -> qualifying w.
Proof. intros H. eapply keywordTokens_qualifying, keywords_are_tokens, H. Qed.

(** Without a token that names an inherited property the keyword list is in
    descending order of frequency. *)
Lemma keywords_descending text :
  Forall plain (keywordTokens text) ->
  descending (map (frequency (keywordTokens text))
                  (KeywordResult.keywords (analyzeKeywords text))).
Proof.
  intros Hp. destruct (keywordTokens text) as [|t ts] eqn:E.
  - unfold analyzeKeywords. rewrite E. exact I.
  - rewrite keywords_unfold by congruence. rewrite E.
    set (ws := t :: ts) in *. rewrite map_map.
    rewrite <- firstn_map. apply descending_firstn.
    apply (sort_descending (string * value) byFrequency
             (fun e => frequency ws (fst e))).
    intros [k1 v1] [k2 v2] H1 H2.
    rewrite (entries_counts ws k1 v1 Hp H1), (entries_counts ws k2 v2 Hp H2).
    reflexivity.
Qed.

(** *** The claims of the specification *)


(** C3: both splits of [calculateReadability] yield at least one element, so
    the guard is never taken and the score is always the clamped formula; a
    whitespace-only text counts as 1 word of 0 characters and scores 98.2. *)
Theorem readability_guard_unreachable text :
  1 <= readabilityWords text /\ 1 <= readabilitySentences text /\
  calculateReadability text
  = clamp (readabilityFormula (readabilityWords text)
             (readabilitySentences text) (readabilityCharacters text)) /\
  (whitespaceOnly text ->
   readabilityWords text = 1 /\ readabilityCharacters text = 0 /\
   calculateReadability text = 98.2%float).
Proof.
  split; [apply readabilityWords_pos|].
  split; [apply readabilitySentences_pos|].
  split; [apply calculateReadability_formula|].
  intros H. destruct (whitespaceOnly_counts text H) as (Hw & Hs & Hc).
  split; [exact Hw|]. split; [exact Hc|].
  rewrite calculateReadability_formula, Hw, Hs, Hc. vm_compute. reflexivity.
Qed.

Lemma readability_guard_unreachable_witness :
  readabilityWords "   " = 1 /\ readabilityCharacters "   " = 0 /\
  calculateReadability "   " = 98.2%float.
Proof.
  apply (readability_guard_unreachable "   ").
  unfold whitespaceOnly. cbn [chars list_ascii_of_string].
  repeat constructor.
Defined.

(** C4: on every text (of at most 2^53 - 1 code units, as every text of
    the runtime is) the readability score, the keyword score and the heading
    score lie in [0,100]. *)
Theorem scores_inRange text :
  wellFormed text ->
  inRange (calculateReadability text) /\
  inRange (KeywordResult.score (analyzeKeywords text)) /\
  inRange (HeadingResult.score (analyzeHeadings text)).
Proof.
  intros H. split; [apply calculateReadability_inRange, H|].
  split; [apply analyzeKeywords_inRange, H|apply analyzeHeadings_inRange].
Qed.

Lemma scores_inRange_witness :
  inRange (calculateReadability "A very short text. Really!") /\
  inRange (KeywordResult.score (analyzeKeywords "A very short text. Really!")) /\
  inRange (HeadingResult.score (analyzeHeadings "A very short text. Really!")).
Proof.
  apply (scores_inRange "A very short text. Really!").
  unfold wellFormed, maxLength. vm_compute. discriminate.
Defined.

(** C7: on "constructor aaa aaa" the keyword list is constructor, aaa,
    although "constructor" occurs once and "aaa" twice: the list is not in
    descending order of frequency. *)
Theorem keywords_inherited_key_first :
  let text := "constructor aaa aaa" in
  keywordTokens text = ["constructor"; "aaa"; "aaa"] /\
  entries (countWords (keywordTokens text))
    = [("constructor", NativeText 1); ("aaa", Count 2)] /\
  KeywordResult.keywords (analyzeKeywords text) = ["constructor"; "aaa"] /\
  map (frequency (keywordTokens text))
      (KeywordResult.keywords (analyzeKeywords text)) = [1; 2] /\
  ~ descending (map (frequency (keywordTokens text))
                    (KeywordResult.keywords (analyzeKeywords text))).
Proof.
  cbn zeta.
  assert (F : map (frequency (keywordTokens "constructor aaa aaa"))
                (KeywordResult.keywords (analyzeKeywords "constructor aaa aaa"))
              = [1; 2]) by (vm_compute; reflexivity).
  repeat split; try (vm_compute; reflexivity).
  rewrite F. cbn [descending]. lia.
Qed.


(** C10: the keywords list has exactly one entry; the general list ends
    with the external-links and the internal-links suggestion and so has at
    least two entries; the readability and the structure list are empty on
    some texts. *)
Theorem suggestions_shape :
  (forall text,
     List.length (Suggestions.keywords (getSEOSuggestions text)) = 1 /\
     (exists before,
        Suggestions.general (getSEOSuggestions text)
        = (before ++ [msgExternal; msgInternal])%list) /\
     2 <= List.length (Suggestions.general (getSEOSuggestions text))) /\
  (exists text, Suggestions.readability (getSEOSuggestions text) = []) /\
  (exists text, Suggestions.structure (getSEOSuggestions text) = []).
Proof.
  split; [|split].
  - intros text. rewrite suggestions_keywords, suggestions_general.
    split; [reflexivity|]. split; [eauto|].
    rewrite length_app. cbn [List.length]. lia.
  - exists "". vm_compute. reflexivity.
  - exists ("# T" ++ newline ++ "## S"). vm_compute. reflexivity.
Qed.

End Properties.

(* ================================================================= *)
(** ** What [split], [replace] and [trim] compute on a class of code units *)

Module Splitting.
Import JS Index Spec Runtime Reference.

Lemma star_run p s : forall fuel i prev,
  List.length s <= fuel ->
  exists y,
    star (compile (Chars p)) fuel (mkState i prev s) (fun y => Some y) = Some y
    /\ endIndex y = i + List.length (takeWhile p s).
Proof.
  induction s as [|ch tl IH]; intros fuel i prev Hf.
  - exists (mkState i prev []). split; [|cbn; lia]. destruct fuel; reflexivity.
  - cbn [List.length] in Hf. destruct fuel as [|fuel]; [lia|].
    rewrite star_S, compile_Chars. cbn [step rest endIndex takeWhile].
    destruct (p ch) eqn:Hp.
    + destruct (IH fuel (S i) (Some ch) ltac:(lia)) as (y & Hy & Ey).
      exists y. rewrite (proj2 (Nat.eqb_neq (S i) i)) by lia. rewrite Hy.
      split; [reflexivity|]. cbn [List.length]. lia.
    + exists (mkState i prev (ch :: tl)). split; [reflexivity|]. cbn. lia.
Qed.

Lemma plus_run p ch tl i prev :
  p ch = true ->
  exists y,
    matchAt (plus (Chars p)) (mkState i prev (ch :: tl)) = Some y
    /\ endIndex y = S i + List.length (takeWhile p tl).
Proof.
  intros Hp.
  destruct (star_run p tl (List.length tl) (S i) (Some ch) (le_n _))
    as (y & Hy & Ey).
  exists y. split; [|exact Ey].
  rewrite matchAt_plus, compile_Chars. cbn [step rest endIndex]. rewrite Hp.
  exact Hy.
Qed.

Lemma pieces_after_run p piece s :
  takeWhile p s = [] -> pieces p true piece s = pieces p false piece s.
Proof.
  destruct s as [|ch tl]; [reflexivity|]. cbn [takeWhile pieces].
  destruct (p ch); [discriminate|reflexivity].
Qed.

Lemma splitLoop_pieces p s : forall p0 piece skip i prev,
  p0 <= i \/ p0 = skip ->
  (skip <= i ->
   splitLoop (plus (Chars p)) p0 piece skip i prev s = pieces p false piece s)
  /\
  (i < skip -> skip = i + List.length (takeWhile p s) ->
   splitLoop (plus (Chars p)) p0 piece skip i prev s = pieces p true piece s).
Proof.
  induction s as [|ch tl IH]; intros p0 piece skip i prev Hp0.
  - split; [reflexivity|]. cbn. lia.
  - split.
    + intros Hle. cbn [splitLoop pieces].
      destruct (Nat.ltb_spec i skip); [lia|].
      destruct (p ch) eqn:Hp.
      * destruct (plus_run p ch tl i prev Hp) as (y & -> & Ey).
        rewrite (proj2 (Nat.eqb_neq (endIndex y) p0)) by lia.
        rewrite (proj2 (Nat.eqb_neq (endIndex y) i)) by lia.
        f_equal.
        destruct (IH (endIndex y) [] (endIndex y) (S i) (Some ch)
                    (or_intror eq_refl)) as [Ha Hb].
        destruct (takeWhile p tl) as [|c r] eqn:Et.
        -- rewrite Ha by (cbn in Ey; lia).
           symmetry. apply pieces_after_run, Et.
        -- apply Hb; rewrite ?Et; cbn [List.length] in *; lia.
      * rewrite plus_fails_at by exact Hp.
        apply (proj1 (IH p0 (piece ++ [ch]) skip (S i) (Some ch) ltac:(lia))); lia.
    + intros Hlt Hs. cbn [splitLoop pieces takeWhile] in *.
      destruct (Nat.ltb_spec i skip); [|lia].
      destruct (p ch) eqn:Hp; [|cbn in Hs; lia].
      cbn [List.length] in Hs.
      destruct (IH p0 piece skip (S i) (Some ch)) as [Ha Hb]; [lia|].
      destruct (takeWhile p tl) as [|c r] eqn:Et.
      * rewrite Ha by (cbn in Hs; lia). symmetry.
        apply pieces_after_run, Et.
      * apply Hb; rewrite ?Et; cbn [List.length] in *; lia.
Qed.

Lemma split_pieces p s : split (plus (Chars p)) s = pieces p false [] s.
Proof.
  destruct s as [|ch tl].
  - cbn [split pieces]. rewrite plus_fails_at by exact I. reflexivity.
  - apply (proj1 (splitLoop_pieces p (ch :: tl) 0 [] 0 0 None ltac:(lia))); lia.
Qed.

Lemma pieces_length p s : forall inRun piece,
  List.length (pieces p inRun piece s) = S (runs p inRun s).
Proof.
  induction s as [|ch tl IH]; intros inRun piece; cbn [pieces runs].
  - reflexivity.
  - destruct (p ch); [destruct inRun|]; cbn [List.length]; rewrite IH; lia.
Qed.

(** *** [replace] of the runs of a class by nothing *)

Lemma replaceLoop_filter p s : forall lastIndex i prev,
  (lastIndex <= i ->
   replaceLoop (plus (Chars p)) [] lastIndex i prev s
   = filter (fun ch => negb (p ch)) s)
  /\
  (i < lastIndex -> lastIndex = i + List.length (takeWhile p s) ->
   replaceLoop (plus (Chars p)) [] lastIndex i prev s
   = filter (fun ch => negb (p ch)) s).
Proof.
  induction s as [|ch tl IH]; intros lastIndex i prev.
  - split.
    + intros Hle. cbn [replaceLoop filter].
      destruct (Nat.ltb_spec i lastIndex); [lia|].
      rewrite plus_fails_at by exact I. reflexivity.
    + cbn. lia.
  - split.
    + intros Hle. cbn [replaceLoop filter].
      destruct (Nat.ltb_spec i lastIndex); [lia|].
      destruct (p ch) eqn:Hp; cbn [negb].
      * destruct (plus_run p ch tl i prev Hp) as (y & -> & Ey).
        rewrite (proj2 (Nat.eqb_neq (endIndex y) i)) by lia. cbn [app].
        destruct (IH (endIndex y) (S i) (Some ch)) as [Ha Hb].
        destruct (takeWhile p tl) as [|c r] eqn:Et.
        -- apply Ha. cbn in Ey. lia.
        -- apply Hb; rewrite ?Et; cbn [List.length] in *; lia.
      * rewrite plus_fails_at by exact Hp. f_equal.
        apply (proj1 (IH lastIndex (S i) (Some ch))). lia.
    + intros Hlt Hs. cbn [replaceLoop filter takeWhile] in *.
      destruct (Nat.ltb_spec i lastIndex); [|lia].
      destruct (p ch) eqn:Hp; [|cbn in Hs; lia].
      cbn [negb List.length] in *.
      destruct (IH lastIndex (S i) (Some ch)) as [Ha Hb].
      destruct (takeWhile p tl) as [|c r] eqn:Et.
      * apply Ha. cbn in Hs. lia.
      * apply Hb; rewrite ?Et; cbn [List.length] in *; lia.
Qed.

Lemma replace_filter p s :
  replace_g (plus (Chars p)) [] s = filter (fun ch => negb (p ch)) s.
Proof. apply (proj1 (replaceLoop_filter p s 0 0 None)). lia. Qed.

(** *** [trim] *)

Lemma takeWhile_dropWhile p s : s = (takeWhile p s ++ dropWhile p s)%list.
Proof.
  induction s as [|ch tl IH]; cbn [takeWhile dropWhile]; [reflexivity|].
  destruct (p ch); cbn [app]; congruence.
Qed.

Lemma takeWhile_all p s : Forall (fun ch => p ch = true) (takeWhile p s).
Proof.
  induction s as [|ch tl IH]; cbn [takeWhile]; [constructor|].
  destruct (p ch) eqn:E; constructor; assumption.
Qed.

Lemma dropWhile_head p s :
  match dropWhile p s with [] => True | ch :: _ => p ch = false end.
Proof.
  induction s as [|ch tl IH]; cbn [dropWhile]; [exact I|].
  destruct (p ch) eqn:E; assumption.
Qed.

(** A text is its leading whitespace, its trimmed text and its trailing
    whitespace. *)
Lemma trim_decompose s :
  exists before after,
    s = (before ++ trim s ++ after)%list /\
    Forall (fun ch => isWhiteSpace ch = true) before /\
    Forall (fun ch => isWhiteSpace ch = true) after.
Proof.
  unfold trim. set (u := dropWhile isWhiteSpace s).
  exists (takeWhile isWhiteSpace s), (rev (takeWhile isWhiteSpace (rev u))).
  split; [|split].
  - rewrite <- rev_app_distr, <- takeWhile_dropWhile, rev_involutive.
    apply takeWhile_dropWhile.
  - apply takeWhile_all.
  - apply Forall_rev, takeWhile_all.
Qed.

Lemma trim_head s :
  match trim s with [] => True | ch :: _ => isWhiteSpace ch = false end.
Proof.
  unfold trim. set (u := dropWhile isWhiteSpace s).
  pose proof (dropWhile_head isWhiteSpace s) as Hu. fold u in Hu.
  pose proof (takeWhile_dropWhile isWhiteSpace (rev u)) as E.
  apply (f_equal (@rev ascii)) in E.
  rewrite rev_involutive, rev_app_distr in E.
  destruct (rev (dropWhile isWhiteSpace (rev u))) as [|c r]; [exact I|].
  rewrite E in Hu. exact Hu.
Qed.

Lemma trim_last s :
  match rev (trim s) with [] => True | ch :: _ => isWhiteSpace ch = false end.
Proof.
  unfold trim. rewrite rev_involutive. apply dropWhile_head.
Qed.

Lemma trim_nil_iff s :
  trim s = [] <-> Forall (fun ch => isWhiteSpace ch = true) s.
Proof.
  split; [|apply trim_whitespace].
  intros H. destruct (trim_decompose s) as (b & a & E & Hb & Ha).
  rewrite H in E. rewrite E. apply Forall_app. split; assumption.
Qed.

(** *** Counting words *)

Lemma text_empty l : String.eqb (text l) "" = isNil l.
Proof. destruct l; reflexivity. Qed.

Lemma filterBoolean_text ps :
  List.length (filterBoolean (map text ps))
  = List.length (filter (fun l => negb (isNil l)) ps).
Proof.
  unfold filterBoolean. induction ps as [|l ps IH]; cbn [map filter]; [reflexivity|].
  rewrite text_empty. destruct (isNil l); cbn [negb List.length]; congruence.
Qed.

Lemma isNil_app piece ch : isNil (piece ++ [ch]) = false.
Proof. destruct piece; reflexivity. Qed.

(** The pieces that are not empty are the words: the maximal runs of code
    units that are not whitespace. *)
Lemma pieces_words s : forall inRun piece,
  (inRun = true -> piece = []) ->
  List.length (filter (fun l => negb (isNil l))
                 (pieces isWhiteSpace inRun piece s))
  = (if isNil piece then 0 else 1)
    + runs notWhiteSpace (negb (isNil piece)) s.
Proof.
  induction s as [|ch tl IH]; intros inRun piece Hp; cbn [pieces runs].
  - cbn [filter]. destruct (isNil piece); cbn; lia.
  - unfold notWhiteSpace at 1. destruct (isWhiteSpace ch) eqn:E; cbn [negb].
    + destruct inRun.
      * rewrite (Hp eq_refl). rewrite IH by reflexivity. reflexivity.
      * cbn [filter]. pose proof (IH true [] (fun _ => eq_refl)) as E0.
        cbn [isNil negb Nat.add] in E0.
        destruct (isNil piece); cbn [negb List.length]; rewrite E0; lia.
    + rewrite IH by discriminate. rewrite isNil_app. cbn [negb].
      destruct (isNil piece); cbn [negb]; lia.
Qed.

Lemma runs_leading p s b :
  Forall (fun ch => p ch = false) b ->
  runs p false (b ++ s) = runs p false s.
Proof.
  induction 1 as [|ch b Hch _ IH]; cbn [app runs]; [reflexivity|].
  rewrite Hch. exact IH.
Qed.

Lemma runs_trailing p a : Forall (fun ch => p ch = false) a ->
  forall s inRun, runs p inRun (s ++ a) = runs p inRun s.
Proof.
  intros Ha. induction s as [|ch tl IH]; intros inRun; cbn [app runs].
  - clear -Ha. revert inRun. induction Ha as [|c a Hc _ IH]; intros inRun;
      cbn [runs]; [reflexivity|]. rewrite Hc. apply IH.
  - destruct (p ch); rewrite IH; reflexivity.
Qed.

Lemma whitespace_notWhiteSpace l :
  Forall (fun ch => isWhiteSpace ch = true) l ->
  Forall (fun ch => notWhiteSpace ch = false) l.
Proof.
  intros H. eapply Forall_impl; [|exact H]. intros ch E.
  unfold notWhiteSpace. rewrite E. reflexivity.
Qed.

Lemma runs_trim s :
  runs notWhiteSpace false (trim s) = runs notWhiteSpace false s.
Proof.
  destruct (trim_decompose s) as (b & a & E & Hb & Ha).
  rewrite E at 2.
  rewrite runs_leading by (apply whitespace_notWhiteSpace, Hb).
  rewrite runs_trailing by (apply whitespace_notWhiteSpace, Ha).
  reflexivity.
Qed.

Lemma calculateWordCount_runs text :
  calculateWordCount text = runs notWhiteSpace false (chars text).
Proof.
  unfold calculateWordCount, str_split, str_trim, whitespaceRun, space.
  rewrite chars_text, split_pieces, filterBoolean_text.
  rewrite pieces_words by discriminate. cbn [isNil negb Nat.add].
  apply runs_trim.
Qed.

Lemma readabilitySentences_runs text :
  readabilitySentences text = S (runs isSentenceMark false (chars text)).
Proof.
  unfold readabilitySentences, str_split, sentenceEnd.
  rewrite length_map, split_pieces. apply pieces_length.
Qed.

Lemma readabilityCharacters_filter text :
  readabilityCharacters text
  = List.length (filter notWhiteSpace (chars text)).
Proof.
  unfold readabilityCharacters, str_replace_g, whitespaceRun, space.
  rewrite length_text. cbn [chars list_ascii_of_string].
  rewrite replace_filter. reflexivity.
Qed.

(** The pieces of a text that neither starts nor ends with the class are
    not empty. *)
Lemma pieces_nonempty p s : forall inRun piece,
  (inRun = true -> piece = []) ->
  match rev s with [] => True | c :: _ => p c = false end ->
  (s = [] -> piece <> []) ->
  (inRun = false -> piece = [] ->
   match s with [] => True | c :: _ => p c = false end) ->
  Forall (fun l => isNil l = false) (pieces p inRun piece s).
Proof.
  induction s as [|ch tl IH]; intros inRun piece Hrun Hlast Hnil Hhead;
    cbn [pieces].
  - constructor; [|constructor].
    destruct piece; [exfalso; apply (Hnil eq_refl); reflexivity|reflexivity].
  - assert (Hlast' : match rev tl with [] => True | c :: _ => p c = false end).
    { cbn [rev] in Hlast. destruct (rev tl) as [|c r]; [exact I|exact Hlast]. }
    destruct (p ch) eqn:Hp.
    + assert (Htl : tl <> []).
      { intros ->. cbn in Hlast. congruence. }
      destruct inRun.
      * apply IH; auto. discriminate.
      * constructor.
        -- destruct piece; [|reflexivity]. specialize (Hhead eq_refl eq_refl).
           cbn in Hhead. congruence.
        -- apply IH; auto. discriminate.
    + apply IH; auto.
      * discriminate.
      * intros _. destruct piece; discriminate.
      * intros _ E. destruct piece; discriminate.
Qed.

Lemma filter_all (A : Type) (f : A -> bool) l :
  Forall (fun x => f x = true) l -> filter f l = l.
Proof.
  induction 1 as [|x l Hx _ IH]; cbn [filter]; [reflexivity|].
  rewrite Hx, IH. reflexivity.
Qed.

(** On a text with a code unit that is not whitespace the two word counts
    of the source agree. *)
Lemma readabilityWords_calculateWordCount text :
  ~ whitespaceOnly text ->
  readabilityWords text = calculateWordCount text /\
  1 <= calculateWordCount text.
Proof.
  intros Hb.
  assert (Ht : trim (chars text) <> []).
  { intros E. apply Hb. apply trim_nil_iff, E. }
  assert (Hw : readabilityWords text = calculateWordCount text).
  { unfold readabilityWords, calculateWordCount, str_split, str_trim,
      whitespaceRun, space.
    rewrite chars_text, split_pieces, filterBoolean_text, length_map.
    rewrite filter_all; [reflexivity|].
    eapply Forall_impl;
      [|apply (pieces_nonempty isWhiteSpace (trim (chars text)) false [])].
    - intros l E. rewrite E. reflexivity.
    - discriminate.
    - apply trim_last.
    - intros E. contradiction.
    - intros _ _. apply trim_head. }
  split; [exact Hw|]. rewrite <- Hw. apply Properties.readabilityWords_pos.
Qed.

End Splitting.

(* ================================================================= *)
(** ** Where a pattern matches *)

Module Matching.
Import JS Index Spec Runtime Properties Reference Splitting.
Local Open Scope list_scope.

(* ----------------------------------------------------------------- *)

Lemma before_snoc prev pre ch : before prev (pre ++ [ch]) = Some ch.
Proof. unfold before. rewrite fold_left_app. reflexivity. Qed.

Lemma before_cons prev ch pre : before prev (ch :: pre) = before (Some ch) pre.
Proof. reflexivity. Qed.

Lemma exec_sound r s : forall i prev j y,
  exec r i prev s = Some (j, y) ->
  exists pre s',
    s = pre ++ s' /\ j = i + List.length pre /\
    matchAt r (mkState j (before prev pre) s') = Some y.
Proof.
  induction s as [|ch tl IH]; intros i prev j y; cbn [exec].
  - destruct (matchAt r (mkState i prev [])) eqn:E; [|discriminate].
    intros H. injection H as <- <-. exists [], []. cbn [List.length before fold_left].
    rewrite Nat.add_0_r. auto.
  - destruct (matchAt r (mkState i prev (ch :: tl))) eqn:E.
    + intros H. injection H as <- <-. exists [], (ch :: tl).
      cbn [List.length before fold_left]. rewrite Nat.add_0_r. auto.
    + intros H. apply IH in H as (pre & s' & -> & -> & H).
      exists (ch :: pre), s'. cbn [List.length]. rewrite Nat.add_succ_r.
      auto.
Qed.

Lemma exec_complete r pre : forall i prev s' y,
  matchAt r (mkState (i + List.length pre) (before prev pre) s') = Some y ->
  exec r i prev (pre ++ s') <> None.
Proof.
  induction pre as [|ch pre IH]; intros i prev s' y H.
  - cbn [List.length before fold_left app] in *. rewrite Nat.add_0_r in H.
    destruct s'; cbn [exec]; rewrite H; discriminate.
  - cbn [app exec]. destruct (matchAt r (mkState i prev _)); [discriminate|].
    apply (IH (S i) (Some ch) s' y). cbn [List.length] in H.
    rewrite Nat.add_succ_r in H. exact H.
Qed.

Lemma matchLoop_sound r s : forall lastIndex i prev,
  matchLoop r lastIndex i prev s <> [] ->
  exists pre s' y,
    s = pre ++ s' /\
    matchAt r (mkState (i + List.length pre) (before prev pre) s') = Some y.
Proof.
  induction s as [|ch tl IH]; intros lastIndex i prev; cbn [matchLoop].
  - destruct (i <? lastIndex)%nat; [congruence|].
    destruct (matchAt r (mkState i prev [])) as [y|] eqn:E; [|congruence].
    intros _. exists [], [], y. cbn [List.length before fold_left].
    rewrite Nat.add_0_r. auto.
  - destruct (i <? lastIndex)%nat.
    + intros H. apply IH in H as (pre & s' & y & -> & H).
      exists (ch :: pre), s', y. cbn [List.length]. rewrite Nat.add_succ_r.
      auto.
    + destruct (matchAt r (mkState i prev (ch :: tl))) as [y|] eqn:E.
      * intros _. exists [], (ch :: tl), y. cbn [List.length before fold_left].
        rewrite Nat.add_0_r. auto.
      * intros H. apply IH in H as (pre & s' & y & -> & H).
        exists (ch :: pre), s', y. cbn [List.length]. rewrite Nat.add_succ_r.
        auto.
Qed.

Lemma matchLoop_complete r pre : forall lastIndex i prev s' y,
  lastIndex <= i ->
  matchAt r (mkState (i + List.length pre) (before prev pre) s') = Some y ->
  matchLoop r lastIndex i prev (pre ++ s') <> [].
Proof.
  induction pre as [|ch pre IH]; intros lastIndex i prev s' y Hl H.
  - cbn [List.length before fold_left app] in *. rewrite Nat.add_0_r in H.
    destruct s'; cbn [matchLoop];
      rewrite (proj2 (Nat.ltb_ge i lastIndex) Hl), H; discriminate.
  - cbn [app matchLoop]. rewrite (proj2 (Nat.ltb_ge i lastIndex) Hl).
    destruct (matchAt r (mkState i prev _)); [discriminate|].
    apply (IH lastIndex (S i) (Some ch) s' y); [lia|].
    cbn [List.length] in H. rewrite Nat.add_succ_r in H. exact H.
Qed.

Lemma test_iff r s :
  test r s = true <->
  exists pre s' y,
    s = pre ++ s' /\
    matchAt r (mkState (List.length pre) (before None pre) s') = Some y.
Proof.
  unfold test. split.
  - destruct (exec r 0 None s) as [[j y]|] eqn:E; [|discriminate].
    intros _. apply exec_sound in E as (pre & s' & -> & -> & H).
    exists pre, s', y. auto.
  - intros (pre & s' & y & -> & H).
    pose proof (exec_complete r pre 0 None s' y H) as C.
    destruct (exec r 0 None (pre ++ s')); [reflexivity|congruence].
Qed.

Lemma match_g_iff r s :
  match match_g r s with
  | None => false
  | Some l => (0 <? List.length l)%nat
  end = true <->
  exists pre s' y,
    s = pre ++ s' /\
    matchAt r (mkState (List.length pre) (before None pre) s') = Some y.
Proof.
  unfold match_g. split.
  - destruct (matchLoop r 0 0 None s) as [|a l] eqn:E; [discriminate|].
    intros _.
    destruct (matchLoop_sound r s 0 0 None ltac:(congruence))
      as (pre & s' & y & -> & H).
    exists pre, s', y. auto.
  - intros (pre & s' & y & -> & H).
    pose proof (matchLoop_complete r pre 0 0 None s' y (le_n 0) H) as C.
    destruct (matchLoop r 0 0 None (pre ++ s')); [congruence|reflexivity].
Qed.

(** *** Matchers step by step *)

Lemma Chars_inv p x k z :
  compile (Chars p) x k = Some z ->
  exists ch tl,
    rest x = ch :: tl /\ p ch = true /\
    k (mkState (S (endIndex x)) (Some ch) tl) = Some z.
Proof.
  rewrite compile_Chars. unfold step. destruct (rest x) as [|ch tl];
    [discriminate|]. destruct (p ch) eqn:E; [|discriminate]. eauto.
Qed.

Lemma Chars_step p i prev ch tl k :
  p ch = true ->
  compile (Chars p) (mkState i prev (ch :: tl)) k
  = k (mkState (S i) (Some ch) tl).
Proof. intros H. rewrite compile_Chars. cbn [step rest endIndex]. rewrite H. reflexivity. Qed.

Lemma advance_app run : forall i prev s,
  advance (List.length run) (mkState i prev (run ++ s))
  = mkState (i + List.length run) (before prev run) s.
Proof.
  induction run as [|ch run IH]; intros i prev s.
  - cbn [List.length advance before fold_left app]. rewrite Nat.add_0_r.
    reflexivity.
  - cbn [List.length advance app step rest endIndex]. rewrite IH.
    rewrite Nat.add_succ_r. reflexivity.
Qed.

Lemma advance_split n i prev s :
  n <= List.length s ->
  advance n (mkState i prev s)
  = mkState (i + n) (before prev (firstn n s)) (skipn n s).
Proof.
  intros H.
  pose proof (advance_app (firstn n s) i prev (skipn n s)) as E.
  rewrite firstn_skipn, length_firstn, Nat.min_l in E by assumption.
  exact E.
Qed.

Lemma star_complete p k : forall fuel n x,
  n <= fuel -> n <= List.length (rest x) ->
  Forall (fun ch => p ch = true) (firstn n (rest x)) ->
  k (advance n x) <> None ->
  star (compile (Chars p)) fuel x k <> None.
Proof.
  induction fuel as [|fuel IH]; intros n x Hf Hn Hall Hk.
  - assert (n = 0) as -> by lia. exact Hk.
  - rewrite star_S.
    destruct (compile (Chars p) x _) as [z|] eqn:E; [discriminate|].
    destruct n as [|n]; [exact Hk|]. exfalso.
    destruct x as [i prev [|ch tl]]; cbn [rest List.length] in *; [lia|].
    cbn [firstn] in Hall. inversion Hall as [|? ? Hch Htl]; subst.
    rewrite (Chars_step p i prev ch tl _ Hch) in E. cbn [endIndex] in E.
    rewrite (proj2 (Nat.eqb_neq (S i) i)) in E by lia.
    revert E. apply (IH n); cbn [rest]; try lia; assumption.
Qed.

Lemma atLeast_complete p k : forall min n x,
  min <= n -> n <= List.length (rest x) ->
  Forall (fun ch => p ch = true) (firstn n (rest x)) ->
  k (advance n x) <> None ->
  atLeast (compile (Chars p)) min x k <> None.
Proof.
  induction min as [|min IH]; intros n x Hm Hn Hall Hk.
  - rewrite atLeast_0. apply (star_complete p k _ n); assumption.
  - rewrite atLeast_S. destruct n as [|n]; [lia|].
    destruct x as [i prev [|ch tl]]; cbn [rest List.length] in *; [lia|].
    cbn [firstn] in Hall. inversion Hall as [|? ? Hch Htl]; subst.
    rewrite (Chars_step p i prev ch tl _ Hch).
    apply (IH n); cbn [rest]; try lia; try assumption.
Qed.

(** *** Literals under the [i] flag *)

Lemma eqc_refl a : eqc a a = true.
Proof. apply Nat.eqb_refl. Qed.

Lemma lit_i_greater ch : eqc (canonicalize ch) (canonicalize ">") = eqc ch ">".
Proof. destruct ch as [[] [] [] [] [] [] [] []]; reflexivity. Qed.

Lemma lit_i_slash ch : eqc (canonicalize ch) (canonicalize "/") = eqc ch "/".
Proof. destruct ch as [[] [] [] [] [] [] [] []]; reflexivity. Qed.

Lemma lit_i_one ch : eqc (canonicalize ch) (canonicalize "1") = eqc ch "1".
Proof. destruct ch as [[] [] [] [] [] [] [] []]; reflexivity. Qed.

Lemma lit_i_h ch : eqc (canonicalize ch) (canonicalize "h") = isH ch.
Proof. destruct ch as [[] [] [] [] [] [] [] []]; reflexivity. Qed.

Lemma all_hash l :
  Forall (fun ch => eqc (canonicalize ch) (canonicalize "#") = true) l ->
  l = repeat "#"%char (List.length l).
Proof.
  induction 1 as [|ch l H _ IH]; [reflexivity|]. cbn [List.length repeat].
  rewrite lit_i_hash in H. apply eqc_eq in H. congruence.
Qed.

Lemma hash_all n :
  Forall (fun ch => eqc (canonicalize ch) (canonicalize "#") = true)
    (repeat "#"%char n).
Proof. induction n; constructor; [reflexivity|assumption]. Qed.

(** *** The line start *)

Lemma LineStart_iff pre i s k :
  endsLine pre ->
  compile LineStart (mkState i (before None pre) s) k
  = k (mkState i (before None pre) s).
Proof.
  unfold endsLine. cbn [compile lastChar].
  destruct (before None pre) as [ch|]; [|reflexivity]. intros ->. reflexivity.
Qed.

Lemma LineStart_inv pre i s k z :
  compile LineStart (mkState i (before None pre) s) k = Some z ->
  endsLine pre /\ k (mkState i (before None pre) s) = Some z.
Proof.
  unfold endsLine. cbn [compile lastChar].
  destruct (before None pre) as [ch|]; [|auto].
  destruct (isLineTerminator ch); [auto|discriminate].
Qed.

(** *** The end of a markdown heading: [\s.+] *)

Lemma heading_tail_inv x z :
  compile (Seq space (plus dot)) x (fun y => Some y) = Some z ->
  exists ws c tl,
    rest x = ws :: c :: tl /\
    isWhiteSpace ws = true /\ isLineTerminator c = false.
Proof.
  cbn [compile]. intros H. apply Chars_inv in H as (ws & r & E & Hws & H).
  unfold plus in H. cbn [compile] in H. rewrite atLeast_S in H.
  apply Chars_inv in H as (c & tl & E' & Hc & _). cbn [rest] in E'. subst r.
  exists ws, c, tl. rewrite negb_true_iff in Hc. auto.
Qed.

Lemma heading_tail i prev ws c tl :
  isWhiteSpace ws = true -> isLineTerminator c = false ->
  compile (Seq space (plus dot)) (mkState i prev (ws :: c :: tl))
    (fun y => Some y) <> None.
Proof.
  intros Hws Hc. cbn [compile]. unfold space. rewrite (Chars_step _ _ _ _ _ _ Hws).
  unfold plus, dot. cbn [compile].
  apply (atLeast_complete _ _ 1 1); cbn [rest List.length firstn]; try lia.
  - constructor; [rewrite Hc; reflexivity|constructor].
  - discriminate.
Qed.

End Matching.

(* ================================================================= *)
(** ** The two heading patterns *)

Module Headings.
Import JS Index Spec Runtime Properties Reference Splitting Matching.
Local Open Scope list_scope.

(** *** The markdown alternatives *)

Lemma markdownH1_inv pre i s z :
  compile (seqs [LineStart; lit_i "#"; space; plus dot])
    (mkState i (before None pre) s) (fun y => Some y) = Some z ->
  endsLine pre /\
  exists ws c tl,
    s = repeat "#"%char 1 ++ ws :: c :: tl /\
    isWhiteSpace ws = true /\ isLineTerminator c = false.
Proof.
  cbn [seqs]. change (compile (Seq LineStart ?r) ?x ?k)
    with (compile LineStart x (fun y => compile r y k)).
  intros H. apply LineStart_inv in H as [Hl H]. split; [exact Hl|].
  change (compile (Seq ?a ?r) ?x ?k)
    with (compile a x (fun y => compile r y k)) in H.
  unfold lit_i in H. apply Chars_inv in H as (ch & r & E & Hch & H).
  rewrite lit_i_hash in Hch. apply eqc_eq in Hch. subst ch.
  apply heading_tail_inv in H as (ws & c & tl & E' & Hws & Hc).
  cbn [rest] in *. subst. exists ws, c, tl. auto.
Qed.

Lemma markdownH1_match pre i ws c tl :
  endsLine pre -> isWhiteSpace ws = true -> isLineTerminator c = false ->
  compile (seqs [LineStart; lit_i "#"; space; plus dot])
    (mkState i (before None pre) (repeat "#"%char 1 ++ ws :: c :: tl))
    (fun y => Some y) <> None.
Proof.
  intros Hl Hws Hc. cbn [seqs repeat app].
  change (compile (Seq LineStart ?r) ?x ?k)
    with (compile LineStart x (fun y => compile r y k)).
  rewrite (LineStart_iff pre _ _ _ Hl).
  change (compile (Seq (lit_i ?a) ?r) ?x ?k)
    with (compile (lit_i a) x (fun y => compile r y k)).
  unfold lit_i. rewrite Chars_step by reflexivity.
  apply heading_tail; assumption.
Qed.

Lemma markdownSub_inv pre i s z :
  compile (seqs [LineStart; Repeat 2 (lit_i "#"); space; plus dot])
    (mkState i (before None pre) s) (fun y => Some y) = Some z ->
  endsLine pre /\
  exists n ws c tl,
    2 <= n /\ s = repeat "#"%char n ++ ws :: c :: tl /\
    isWhiteSpace ws = true /\ isLineTerminator c = false.
Proof.
  cbn [seqs]. change (compile (Seq LineStart ?r) ?x ?k)
    with (compile LineStart x (fun y => compile r y k)).
  intros H. apply LineStart_inv in H as [Hl H]. split; [exact Hl|].
  change (compile (Seq (Repeat 2 ?a) ?r) ?x ?k)
    with (atLeast (compile a) 2 x (fun y => compile r y k)) in H.
  unfold lit_i in H. apply atLeast_sound in H as (n & Hn & Hall & H).
  cbn [rest] in *. rewrite advance_split in H by lia.
  apply heading_tail_inv in H as (ws & c & tl & E & Hws & Hc).
  cbn [rest] in E. exists n, ws, c, tl. split; [lia|].
  split; [|auto]. rewrite <- (firstn_skipn n s), E.
  rewrite (all_hash _ Hall), length_firstn, Nat.min_l by lia.
  reflexivity.
Qed.

Lemma markdownSub_match pre i n ws c tl :
  endsLine pre -> 2 <= n ->
  isWhiteSpace ws = true -> isLineTerminator c = false ->
  compile (seqs [LineStart; Repeat 2 (lit_i "#"); space; plus dot])
    (mkState i (before None pre) (repeat "#"%char n ++ ws :: c :: tl))
    (fun y => Some y) <> None.
Proof.
  intros Hl Hn Hws Hc. cbn [seqs].
  change (compile (Seq LineStart ?r) ?x ?k)
    with (compile LineStart x (fun y => compile r y k)).
  rewrite (LineStart_iff pre _ _ _ Hl).
  change (compile (Seq (Repeat 2 ?a) ?r) ?x ?k)
    with (atLeast (compile a) 2 x (fun y => compile r y k)).
  unfold lit_i.
  apply (atLeast_complete _ _ 2 n); cbn [rest].
  - exact Hn.
  - rewrite length_app, repeat_length. lia.
  - rewrite firstn_app, repeat_length, Nat.sub_diag.
    rewrite firstn_all2 by (rewrite repeat_length; lia).
    cbn [firstn]. rewrite app_nil_r. apply hash_all.
  - pose proof (advance_app (repeat "#"%char n) i (before None pre)
                  (ws :: c :: tl)) as E.
    rewrite repeat_length in E. rewrite E. apply heading_tail; assumption.
Qed.

(** *** The HTML alternative *)

Lemma htmlPattern_unfold level x k :
  compile (htmlPattern (Chars level)) x k =
  compile (lit_i "<") x (fun x1 =>
  compile (lit_i "h") x1 (fun x2 =>
  compile (Chars level) x2 (fun x3 =>
  atLeast (compile (notLit ">")) 0 x3 (fun x4 =>
  compile (lit_i ">") x4 (fun x5 =>
  atLeast (compile dot) 1 x5 (fun x6 =>
  compile (lit_i "<") x6 (fun x7 =>
  compile (lit_i "/") x7 (fun x8 =>
  compile (lit_i "h") x8 (fun x9 =>
  compile (Chars level) x9 (fun x10 =>
  compile (lit_i ">") x10 k)))))))))).
Proof. reflexivity. Qed.

Lemma htmlPattern_inv level x z :
  compile (htmlPattern (Chars level)) x (fun y => Some y) = Some z ->
  exists h l attrs body h' l' tl,
    rest x = "<"%char :: h :: l :: attrs ++ ">"%char :: body
             ++ "<"%char :: "/"%char :: h' :: l' :: ">"%char :: tl /\
    isH h = true /\ level l = true /\
    Forall (fun ch => eqc ch ">" = false) attrs /\
    body <> [] /\ Forall (fun ch => isLineTerminator ch = false) body /\
    isH h' = true /\ level l' = true.
Proof.
  rewrite htmlPattern_unfold. unfold lit_i, notLit, dot. intros H.
  apply Chars_inv in H as (c1 & r1 & E1 & H1 & H).
  apply Chars_inv in H as (h & r2 & E2 & H2 & H).
  apply Chars_inv in H as (l & r3 & E3 & H3 & H).
  apply atLeast_sound in H as (n & Hn & Hattrs & H).
  cbn [rest endIndex] in *. rewrite advance_split in H by lia.
  apply Chars_inv in H as (c4 & r4 & E4 & H4 & H).
  apply atLeast_sound in H as (m & Hm & Hbody & H).
  cbn [rest endIndex] in *. rewrite advance_split in H by lia.
  apply Chars_inv in H as (c5 & r5 & E5 & H5 & H).
  apply Chars_inv in H as (c6 & r6 & E6 & H6 & H).
  apply Chars_inv in H as (h' & r7 & E7 & H7 & H).
  apply Chars_inv in H as (l' & r8 & E8 & H8 & H).
  apply Chars_inv in H as (c9 & r9 & E9 & H9 & _).
  cbn [rest endIndex] in *.
  rewrite lit_i_less in H1, H5. rewrite lit_i_greater in H4, H9.
  rewrite lit_i_slash in H6. rewrite lit_i_h in H2, H7.
  apply eqc_eq in H1, H4, H5, H6, H9. subst c1 c4 c5 c6 c9.
  exists h, l, (firstn n r3), (firstn m r4), h', l', r9.
  split.
  - rewrite E1. f_equal. rewrite E2. f_equal. rewrite E3. f_equal.
    rewrite <- (firstn_skipn n r3) at 1. f_equal. rewrite E4. f_equal.
    rewrite <- (firstn_skipn m r4) at 1. f_equal. rewrite E5. f_equal.
    rewrite E6. f_equal. rewrite E7. f_equal. rewrite E8. f_equal. exact E9.
  - repeat split; try assumption.
    + eapply Forall_impl; [|exact Hattrs]. cbn. intros a Ha.
      apply negb_true_iff, Ha.
    + destruct r4 as [|a r4]; [cbn in Hm; lia|].
      destruct m as [|m]; [lia|]. discriminate.
    + eapply Forall_impl; [|exact Hbody]. cbn. intros a Ha.
      apply negb_true_iff, Ha.
Qed.

Lemma htmlPattern_match level i prev h l attrs body h' l' tl :
  isH h = true -> level l = true ->
  Forall (fun ch => eqc ch ">" = false) attrs ->
  body <> [] -> Forall (fun ch => isLineTerminator ch = false) body ->
  isH h' = true -> level l' = true ->
  compile (htmlPattern (Chars level))
    (mkState i prev
       ("<"%char :: h :: l :: attrs ++ ">"%char :: body
        ++ "<"%char :: "/"%char :: h' :: l' :: ">"%char :: tl))
    (fun y => Some y) <> None.
Proof.
  intros Hh Hl Hattrs Hne Hbody Hh' Hl'.
  rewrite htmlPattern_unfold. unfold lit_i, notLit, dot.
  rewrite Chars_step by reflexivity.
  rewrite Chars_step by (rewrite lit_i_h; exact Hh).
  rewrite Chars_step by exact Hl.
  apply (atLeast_complete _ _ 0 (List.length attrs)); cbn [rest].
  - lia.
  - rewrite length_app. lia.
  - rewrite firstn_app, Nat.sub_diag, firstn_all. cbn [firstn].
    rewrite app_nil_r. eapply Forall_impl; [|exact Hattrs]. cbn.
    intros a Ha. rewrite Ha. reflexivity.
  - rewrite advance_app. rewrite Chars_step by reflexivity.
    apply (atLeast_complete _ _ 1 (List.length body)); cbn [rest].
    + destruct body; [congruence|cbn; lia].
    + rewrite length_app. lia.
    + rewrite firstn_app, Nat.sub_diag, firstn_all. cbn [firstn].
      rewrite app_nil_r. eapply Forall_impl; [|exact Hbody]. cbn.
      intros a Ha. rewrite Ha. reflexivity.
    + rewrite advance_app. rewrite Chars_step by reflexivity.
      rewrite Chars_step by reflexivity.
      rewrite Chars_step by (rewrite lit_i_h; exact Hh').
      rewrite Chars_step by exact Hl'.
      rewrite Chars_step by reflexivity. discriminate.
Qed.

(** *** The two heading patterns *)

Lemma h1Pattern_iff pre i s :
  (exists y, matchAt h1Pattern (mkState i (before None pre) s) = Some y) <->
  (endsLine pre /\
   exists ws c tl,
     s = repeat "#"%char 1 ++ ws :: c :: tl /\
     isWhiteSpace ws = true /\ isLineTerminator c = false)
  \/
  (exists h l attrs body h' l' tl,
     s = "<"%char :: h :: l :: attrs ++ ">"%char :: body
         ++ "<"%char :: "/"%char :: h' :: l' :: ">"%char :: tl /\
     isH h = true /\ eqc l "1" = true /\
     Forall (fun ch => eqc ch ">" = false) attrs /\
     body <> [] /\ Forall (fun ch => isLineTerminator ch = false) body /\
     isH h' = true /\ eqc l' "1" = true).
Proof.
  unfold matchAt, h1Pattern.
  change (seqs [lit_i "<"; lit_i "h"; lit_i "1"; many (notLit ">"); lit_i ">";
                plus dot; lit_i "<"; lit_i "/"; lit_i "h"; lit_i "1";
                lit_i ">"])
    with (htmlPattern (lit_i "1")).
  set (md := seqs [LineStart; lit_i "#"; space; plus dot]).
  change (compile (Alt md ?r) ?x ?k)
    with (match compile md x k with Some z => Some z | None => compile r x k end).
  split.
  - intros [y H].
    destruct (compile md _ _) as [z|] eqn:E.
    + left. exact (markdownH1_inv _ _ _ _ E).
    + right. apply htmlPattern_inv in H
        as (h & l & attrs & body & h' & l' & tl & E' & H1 & H2 & H3 & H4 & H5
            & H6 & H7).
      rewrite lit_i_one in H2, H7. exists h, l, attrs, body, h', l', tl.
      cbn [rest] in E'. repeat split; assumption.
  - intros [(Hl & ws & c & tl & -> & Hws & Hc)
           |(h & l & attrs & body & h' & l' & tl & -> & H1 & H2 & H3 & H4 & H5
             & H6 & H7)].
    + pose proof (markdownH1_match pre i ws c tl Hl Hws Hc) as M. fold md in M.
      destruct (compile md _ _) as [z|]; [eauto|congruence].
    + destruct (compile md _ _) as [z|]; [eauto|].
      pose proof (htmlPattern_match
                    (fun ch => eqc (canonicalize ch) (canonicalize "1"))
                    i (before None pre) h l attrs body h' l' tl H1
                    (eq_trans (lit_i_one l) H2) H3 H4 H5 H6
                    (eq_trans (lit_i_one l') H7)) as M.
      unfold lit_i.
      destruct (compile (htmlPattern _) _ _) as [z|]; [eauto|congruence].
Qed.

Lemma subheadingPattern_iff pre i s :
  (exists y,
     matchAt subheadingPattern (mkState i (before None pre) s) = Some y) <->
  (endsLine pre /\
   exists n ws c tl,
     2 <= n /\ s = repeat "#"%char n ++ ws :: c :: tl /\
     isWhiteSpace ws = true /\ isLineTerminator c = false)
  \/
  (exists h l attrs body h' l' tl,
     s = "<"%char :: h :: l :: attrs ++ ">"%char :: body
         ++ "<"%char :: "/"%char :: h' :: l' :: ">"%char :: tl /\
     isH h = true /\ between 50 54 l = true /\
     Forall (fun ch => eqc ch ">" = false) attrs /\
     body <> [] /\ Forall (fun ch => isLineTerminator ch = false) body /\
     isH h' = true /\ between 50 54 l' = true).
Proof.
  unfold matchAt, subheadingPattern.
  change (seqs [lit_i "<"; lit_i "h"; Chars (between 50 54);
                many (notLit ">"); lit_i ">";
                plus dot; lit_i "<"; lit_i "/"; lit_i "h";
                Chars (between 50 54); lit_i ">"])
    with (htmlPattern (Chars (between 50 54))).
  set (md := seqs [LineStart; Repeat 2 (lit_i "#"); space; plus dot]).
  change (compile (Alt md ?r) ?x ?k)
    with (match compile md x k with Some z => Some z | None => compile r x k end).
  split.
  - intros [y H].
    destruct (compile md _ _) as [z|] eqn:E.
    + left. exact (markdownSub_inv _ _ _ _ E).
    + right. apply htmlPattern_inv in H
        as (h & l & attrs & body & h' & l' & tl & E' & H1 & H2 & H3 & H4 & H5
            & H6 & H7).
      exists h, l, attrs, body, h', l', tl.
      cbn [rest] in E'. repeat split; assumption.
  - intros [(Hl & n & ws & c & tl & Hn & -> & Hws & Hc)
           |(h & l & attrs & body & h' & l' & tl & -> & H1 & H2 & H3 & H4 & H5
             & H6 & H7)].
    + pose proof (markdownSub_match pre i n ws c tl Hl Hn Hws Hc) as M.
      fold md in M.
      destruct (compile md _ _) as [z|]; [eauto|congruence].
    + destruct (compile md _ _) as [z|]; [eauto|].
      pose proof (htmlPattern_match (between 50 54)
                    i (before None pre) h l attrs body h' l' tl H1 H2 H3 H4 H5
                    H6 H7) as M.
      destruct (compile (htmlPattern _) _ _) as [z|]; [eauto|congruence].
Qed.

Lemma hasH1_iff text :
  HeadingResult.hasH1 (analyzeHeadings text) = true <->
  markdownHeading (fun n => n = 1) (chars text) \/
  htmlHeading (fun ch => eqc ch "1") (chars text).
Proof.
  change (HeadingResult.hasH1 (analyzeHeadings text))
    with (test h1Pattern (chars text)).
  rewrite test_iff. split.
  - intros (pre & s' & y & E & H).
    destruct (proj1 (h1Pattern_iff pre _ s') (ex_intro _ y H))
      as [(Hl & ws & c & tl & -> & Hws & Hc)
         |(h & l & attrs & body & h' & l' & tl & -> & R)].
    + left. exists pre, 1, ws, c, tl. auto.
    + right. exists pre, h, l, attrs, body, h', l', tl. auto.
  - intros [(pre & n & ws & c & tl & E & Hl & -> & Hws & Hc)
           |(pre & h & l & attrs & body & h' & l' & tl & E & R)].
    + destruct (proj2 (h1Pattern_iff pre (List.length pre) _)
                  (or_introl (conj Hl (ex_intro _ ws (ex_intro _ c
                     (ex_intro _ tl (conj eq_refl (conj Hws Hc))))))))
        as [y H].
      eexists pre, _, y. split; [exact E|exact H].
    + destruct (proj2 (h1Pattern_iff pre (List.length pre) _)
                  (or_intror (ex_intro _ h (ex_intro _ l (ex_intro _ attrs
                     (ex_intro _ body (ex_intro _ h' (ex_intro _ l'
                        (ex_intro _ tl (conj eq_refl R))))))))))
        as [y H].
      eexists pre, _, y. split; [exact E|exact H].
Qed.

Lemma hasSubheadings_iff text :
  HeadingResult.hasSubheadings (analyzeHeadings text) = true <->
  markdownHeading (fun n => 2 <= n) (chars text) \/
  htmlHeading (between 50 54) (chars text).
Proof.
  assert (E0 : HeadingResult.hasSubheadings (analyzeHeadings text)
          = match match_g subheadingPattern (chars text) with
            | None => false
            | Some l => (0 <? List.length l)%nat
            end).
  { unfold analyzeHeadings, str_match_g.
    cbn [HeadingResult.hasSubheadings].
    destruct (match_g subheadingPattern (chars text)); cbn [option_map];
      [rewrite length_map|]; reflexivity. }
  rewrite E0, match_g_iff. split.
  - intros (pre & s' & y & E & H).
    destruct (proj1 (subheadingPattern_iff pre _ s') (ex_intro _ y H))
      as [(Hl & n & ws & c & tl & Hn & -> & Hws & Hc)
         |(h & l & attrs & body & h' & l' & tl & -> & R)].
    + left. exists pre, n, ws, c, tl. auto.
    + right. exists pre, h, l, attrs, body, h', l', tl. auto.
  - intros [(pre & n & ws & c & tl & E & Hl & Hn & Hws & Hc)
           |(pre & h & l & attrs & body & h' & l' & tl & E & R)].
    + destruct (proj2 (subheadingPattern_iff pre (List.length pre) _)
                  (or_introl (conj Hl (ex_intro _ n (ex_intro _ ws (ex_intro _ c
                     (ex_intro _ tl (conj Hn (conj eq_refl (conj Hws Hc))))))))))
        as [y H].
      eexists pre, _, y. split; [exact E|exact H].
    + destruct (proj2 (subheadingPattern_iff pre (List.length pre) _)
                  (or_intror (ex_intro _ h (ex_intro _ l (ex_intro _ attrs
                     (ex_intro _ body (ex_intro _ h' (ex_intro _ l'
                        (ex_intro _ tl (conj eq_refl R))))))))))
        as [y H].
      eexists pre, _, y. split; [exact E|exact H].
Qed.

End Headings.

(* ================================================================= *)
(** ** The tokens of [analyzeKeywords] *)

Module Tokens.
Import JS Index Spec Runtime Properties Reference Splitting Matching.
Local Open Scope list_scope.

(* ----------------------------------------------------------------- *)

Lemma lower_word ch : isLower ch = true -> isWordChar ch = true.
Proof. unfold isWordChar. intros ->. reflexivity. Qed.

Lemma words_run run : forall word s,
  Forall (fun ch => isWordChar ch = true) run ->
  words word (run ++ s) = words (word ++ run) s.
Proof.
  induction run as [|ch run IH]; intros word s H.
  - rewrite app_nil_r. reflexivity.
  - inversion H as [|? ? Hch Hrun]; subst. cbn [app words]. rewrite Hch.
    rewrite IH by assumption. rewrite <- app_assoc. reflexivity.
Qed.

Lemma words_end ch run s :
  match s with [] => True | d :: _ => isWordChar d = false end ->
  words (ch :: run) s = (ch :: run) :: words [] s.
Proof.
  destruct s as [|d tl]; cbn [words isNil]; [reflexivity|].
  intros ->. reflexivity.
Qed.

Lemma dropWhile_stop (p : ascii -> bool) s :
  match dropWhile p s with [] => True | d :: _ => p d = false end.
Proof.
  induction s as [|ch tl IH]; cbn [dropWhile]; [exact I|].
  destruct (p ch) eqn:E; [exact IH|exact E].
Qed.

Lemma takeWhile_length (p : ascii -> bool) s :
  List.length s
  = List.length (takeWhile p s) + List.length (dropWhile p s).
Proof.
  rewrite (takeWhile_dropWhile p s) at 1. apply length_app.
Qed.

(** *** The greedy loop on a run that ends where the class ends *)

Lemma star_greedy p k run s : forall fuel i prev,
  Forall (fun ch => p ch = true) run ->
  match s with [] => True | d :: _ => p d = false end ->
  List.length run <= fuel ->
  k (mkState (i + List.length run) (before prev run) s) <> None ->
  star (compile (Chars p)) fuel (mkState i prev (run ++ s)) k
  = k (mkState (i + List.length run) (before prev run) s).
Proof.
  induction run as [|ch run IH]; intros fuel i prev Hrun Hs Hf Hk.
  - cbn [List.length before fold_left app] in *. rewrite Nat.add_0_r in *.
    destruct fuel as [|fuel]; [reflexivity|].
    rewrite star_S, compile_Chars.
    destruct s as [|d tl]; cbn [step rest]; [reflexivity|].
    rewrite Hs. reflexivity.
  - inversion Hrun as [|? ? Hch Hrun']; subst.
    cbn [List.length] in *. destruct fuel as [|fuel]; [lia|].
    rewrite star_S. cbn [app]. rewrite (Chars_step p i prev ch _ _ Hch).
    cbn [endIndex]. rewrite (proj2 (Nat.eqb_neq (S i) i)) by lia.
    rewrite Nat.add_succ_r in *. rewrite before_cons in *.
    rewrite (IH fuel (S i) (Some ch)); try assumption; try lia.
    destruct (k _); [reflexivity|congruence].
Qed.

Lemma atLeast_greedy p k s : forall min run i prev,
  Forall (fun ch => p ch = true) run ->
  match s with [] => True | d :: _ => p d = false end ->
  min <= List.length run ->
  k (mkState (i + List.length run) (before prev run) s) <> None ->
  atLeast (compile (Chars p)) min (mkState i prev (run ++ s)) k
  = k (mkState (i + List.length run) (before prev run) s).
Proof.
  induction min as [|min IH]; intros run i prev Hrun Hs Hm Hk.
  - rewrite atLeast_0. cbn [rest]. apply star_greedy; try assumption.
    rewrite length_app. lia.
  - destruct run as [|ch run]; [cbn in Hm; lia|].
    inversion Hrun as [|? ? Hch Hrun']; subst.
    rewrite atLeast_S. cbn [app]. rewrite (Chars_step p i prev ch _ _ Hch).
    cbn [List.length] in *. rewrite Nat.add_succ_r in *.
    rewrite before_cons in *.
    apply IH; try assumption. lia.
Qed.

(** *** Where [\b[a-z]{3,}\b] matches *)

Lemma before_last prev run ch :
  Forall (fun c => isLower c = true) (ch :: run) ->
  exists c, before prev (ch :: run) = Some c /\ isLower c = true.
Proof.
  revert prev ch. induction run as [|d run IH]; intros prev ch H.
  - exists ch. inversion H; subst. auto.
  - inversion H as [|? ? _ H']; subst. rewrite before_cons. apply IH, H'.
Qed.

Lemma wordPattern_match i prev run s :
  match prev with Some c => isWordChar c = false | None => True end ->
  isKeyword run = true ->
  match s with [] => True | d :: _ => isWordChar d = false end ->
  matchAt wordPattern (mkState i prev (run ++ s))
  = Some (mkState (i + List.length run) (before prev run) s).
Proof.
  intros Hprev Hkw Hs. unfold isKeyword in Hkw.
  apply andb_true_iff in Hkw as [Hlen Hall].
  apply Nat.leb_le in Hlen. rewrite forallb_forall in Hall.
  apply Forall_forall in Hall.
  destruct run as [|ch run]; [cbn in Hlen; lia|].
  destruct (before_last prev run ch Hall) as (c & Ec & Hc).
  inversion Hall as [|? ? Hch _]; subst.
  rewrite wordPattern_unfold.
  assert (B1 : xorb (isWordBefore (mkState i prev ((ch :: run) ++ s)))
                 (isWordAfter (mkState i prev ((ch :: run) ++ s))) = true).
  { unfold isWordBefore, isWordAfter. cbn [lastChar rest app].
    rewrite (lower_word ch Hch).
    destruct prev as [c0|]; [rewrite Hprev|]; reflexivity. }
  rewrite B1.
  assert (B2 : xorb (isWordBefore (mkState (i + List.length (ch :: run))
                                     (before prev (ch :: run)) s))
                 (isWordAfter (mkState (i + List.length (ch :: run))
                                 (before prev (ch :: run)) s)) = true).
  { unfold isWordBefore, isWordAfter. cbn [lastChar rest]. rewrite Ec.
    rewrite (lower_word c Hc). destruct s as [|d tl]; [reflexivity|].
    rewrite Hs. reflexivity. }
  rewrite atLeast_greedy; try assumption.
  - rewrite B2. reflexivity.
  - destruct s as [|d tl]; [exact I|].
    destruct (isLower d) eqn:E; [|reflexivity].
    apply lower_word in E. congruence.
  - rewrite B2. discriminate.
Qed.

Lemma prefix_in_run (p : ascii -> bool) : forall n s,
  n <= List.length s -> Forall (fun ch => p ch = true) (firstn n s) ->
  n <= List.length (takeWhile p s).
Proof.
  induction n as [|n IH]; intros s Hn H; [lia|].
  destruct s as [|ch tl]; cbn [List.length] in Hn; [lia|].
  cbn [firstn] in H. inversion H as [|? ? Hch Htl]; subst.
  cbn [takeWhile]. rewrite Hch. cbn [List.length].
  apply le_n_S, IH; [lia|assumption].
Qed.

Lemma run_in_prefix (p : ascii -> bool) : forall n s,
  n <= List.length s ->
  match skipn n s with [] => True | d :: _ => p d = false end ->
  List.length (takeWhile p s) <= n.
Proof.
  induction n as [|n IH]; intros s Hn H.
  - cbn [skipn] in H. destruct s as [|d tl]; [cbn; lia|].
    cbn [takeWhile]. rewrite H. cbn. lia.
  - destruct s as [|ch tl]; [cbn; lia|]. cbn [List.length] in Hn.
    cbn [skipn] in H. cbn [takeWhile]. destruct (p ch); [|cbn; lia].
    cbn [List.length]. apply le_n_S, IH; [lia|assumption].
Qed.

Lemma wordPattern_keyword i prev s y :
  matchAt wordPattern (mkState i prev s) = Some y ->
  isKeyword (takeWhile isWordChar s) = true.
Proof.
  rewrite wordPattern_unfold. destruct (xorb _ _); [|discriminate].
  intros H. apply atLeast_sound in H as (n & Hn & Hall & Hc).
  cbn [rest] in *. rewrite advance_split in Hc by lia.
  destruct (xorb _ _) eqn:B; [|discriminate]. clear Hc.
  unfold isWordBefore, isWordAfter in B. cbn [lastChar rest] in B.
  assert (Hne : exists ch l, firstn n s = ch :: l).
  { destruct s as [|ch tl]; [cbn in Hn; lia|].
    destruct n as [|n]; [lia|]. cbn [firstn]. eauto. }
  destruct Hne as (ch & l & E). rewrite E in Hall, B.
  destruct (before_last prev l ch Hall) as (c & Ec & Hc).
  rewrite Ec, (lower_word c Hc) in B.
  assert (Hstop : match skipn n s with
                  | [] => True | d :: _ => isWordChar d = false end).
  { destruct (skipn n s) as [|d tl]; [exact I|].
    destruct (isWordChar d); [discriminate|reflexivity]. }
  rewrite <- E in Hall.
  assert (Hw : Forall (fun ch => isWordChar ch = true) (firstn n s)).
  { eapply Forall_impl; [|exact Hall]. apply lower_word. }
  pose proof (prefix_in_run isWordChar n s ltac:(lia) Hw) as L1.
  pose proof (run_in_prefix isWordChar n s ltac:(lia) Hstop) as L2.
  assert (Er : takeWhile isWordChar s = firstn n s).
  { rewrite (takeWhile_dropWhile isWordChar s) at 2.
    rewrite firstn_app.
    replace (n - List.length (takeWhile isWordChar s)) with 0 by lia.
    rewrite firstn_all2 by lia. cbn [firstn]. rewrite app_nil_r.
    reflexivity. }
  rewrite Er. unfold isKeyword. apply andb_true_iff. split.
  - apply Nat.leb_le. rewrite length_firstn. lia.
  - apply forallb_forall. apply Forall_forall. exact Hall.
Qed.

Lemma wordPattern_inside i c d tl :
  isWordChar c = true -> isWordChar d = true ->
  matchAt wordPattern (mkState i (Some c) (d :: tl)) = None.
Proof.
  intros Hc Hd. rewrite wordPattern_unfold.
  unfold isWordBefore, isWordAfter. cbn [lastChar rest]. rewrite Hc, Hd.
  reflexivity.
Qed.

(** *** The loop of [match] along a word *)

Lemma matchLoop_inside run : forall lastIndex i c s,
  isWordChar c = true ->
  Forall (fun ch => isWordChar ch = true) run ->
  matchLoop wordPattern lastIndex i (Some c) (run ++ s)
  = matchLoop wordPattern lastIndex (i + List.length run)
      (before (Some c) run) s.
Proof.
  induction run as [|d run IH]; intros lastIndex i c s Hc Hrun.
  - cbn [List.length before fold_left app]. rewrite Nat.add_0_r. reflexivity.
  - inversion Hrun as [|? ? Hd Hrun']; subst.
    cbn [app matchLoop]. rewrite (wordPattern_inside i c d _ Hc Hd).
    cbn [List.length]. rewrite Nat.add_succ_r, before_cons.
    destruct (i <? lastIndex)%nat; apply IH; assumption.
Qed.

Lemma matchLoop_words : forall n s lastIndex i prev,
  List.length s <= n -> lastIndex <= i -> atBoundary prev s ->
  matchLoop wordPattern lastIndex i prev s = filter isKeyword (words [] s).
Proof.
  induction n as [|n IH]; intros s lastIndex i prev Hn Hl Hb.
  - destruct s as [|ch tl]; [|cbn in Hn; lia].
    cbn [matchLoop words isNil filter].
    rewrite wordPattern_fails_at by exact I.
    destruct (i <? lastIndex)%nat; reflexivity.
  - destruct s as [|ch tl].
    + cbn [matchLoop words isNil filter].
      rewrite wordPattern_fails_at by exact I.
      destruct (i <? lastIndex)%nat; reflexivity.
    + cbn [List.length] in Hn. destruct (isWordChar ch) eqn:Hch.
      * (* a word starts here *)
        assert (Hprev : match prev with
                        | Some c => isWordChar c = false | None => True end).
        { destruct prev as [c|]; [|exact I]. cbn [atBoundary] in Hb.
          rewrite Hch, andb_true_r in Hb. exact Hb. }
        pose proof (takeWhile_dropWhile isWordChar tl) as Etl.
        pose proof (takeWhile_all isWordChar tl) as Hrun.
        pose proof (dropWhile_stop isWordChar tl) as Hstop.
        pose proof (takeWhile_length isWordChar tl) as Hlen.
        set (run := takeWhile isWordChar tl) in *.
        set (s' := dropWhile isWordChar tl) in *.
        assert (Ew : words [] (ch :: tl) = (ch :: run) :: words [] s').
        { cbn [words]. rewrite Hch. cbn [app]. rewrite Etl.
          rewrite words_run by assumption. cbn [app].
          apply words_end, Hstop. }
        rewrite Ew. cbn [filter].
        assert (Etw : takeWhile isWordChar (ch :: tl) = ch :: run).
        { cbn [takeWhile]. rewrite Hch. reflexivity. }
        assert (Hs' : matchLoop wordPattern lastIndex (S i) (Some ch) tl
                      = filter isKeyword (words [] s')
                   /\ matchLoop wordPattern (i + List.length (ch :: run)) (S i)
                        (Some ch) tl
                      = filter isKeyword (words [] s')).
        { rewrite Etl. rewrite !matchLoop_inside by assumption.
          split; apply IH; try lia.
          - destruct (before (Some ch) run), s'; try exact I.
            cbn [atBoundary]. rewrite Hstop. apply andb_false_r.
          - cbn [List.length]. lia.
          - destruct (before (Some ch) run), s'; try exact I.
            cbn [atBoundary]. rewrite Hstop. apply andb_false_r. }
        destruct Hs' as [Hs1 Hs2].
        cbn [matchLoop]. rewrite (proj2 (Nat.ltb_ge i lastIndex) Hl).
        destruct (isKeyword (ch :: run)) eqn:Hkw.
        -- pose proof (wordPattern_match i prev (ch :: run) s' Hprev Hkw Hstop)
             as M.
           cbn [app] in M. rewrite <- Etl in M. rewrite M. cbn [endIndex].
           rewrite (proj2 (Nat.eqb_neq _ i)) by (cbn [List.length]; lia).
           rewrite Hs2. f_equal.
           replace (i + List.length (ch :: run) - i)
             with (List.length (ch :: run)) by lia.
           rewrite Etl. change (ch :: run ++ s') with ((ch :: run) ++ s').
           rewrite firstn_app, Nat.sub_diag, firstn_all. cbn [firstn].
           apply app_nil_r.
        -- destruct (matchAt wordPattern (mkState i prev (ch :: tl)))
             as [y|] eqn:M.
           ++ apply wordPattern_keyword in M. rewrite Etw in M. congruence.
           ++ exact Hs1.
      * (* no word here *)
        cbn [matchLoop words isNil].
        rewrite wordPattern_fails_at.
        2:{ destruct (isLower ch) eqn:E; [|reflexivity].
            apply lower_word in E. congruence. }
        rewrite Hch.
        destruct (i <? lastIndex)%nat; apply IH; try lia;
          cbn [atBoundary]; destruct tl; try exact I; rewrite Hch; reflexivity.
Qed.

Lemma keywordTokens_words text :
  keywordTokens text
  = map JS.text (filter isKeyword (words [] (toLowerCase (chars text)))).
Proof.
  unfold keywordTokens, str_match_g, str_toLowerCase, match_g.
  rewrite chars_text.
  rewrite <- (matchLoop_words _ _ 0 0 None (le_n _) (le_n _) I).
  destruct (matchLoop wordPattern 0 0 None (toLowerCase (chars text)));
    reflexivity.
Qed.

End Tokens.

(* ================================================================= *)
(** ** Upper bounds of rounded results *)

Module Magnitude.
Import JS Binary64 Reference.
Local Open Scope Z_scope.

Lemma shr_1_le r : 0 <= shr_m r -> 2 * shr_m (shr_1 r) <= shr_m r.
Proof.
  destruct r as [m b s]. cbn [shr_m]. intros Hm.
  destruct m as [|[p|p|]|p]; cbn [shr_1 shr_m]; lia.
Qed.

Lemma iter_shr_1_le p : forall r,
  0 <= shr_m r -> 2 ^ Z.pos p * shr_m (iter_pos shr_1 p r) <= shr_m r.
Proof.
  induction p as [p IH|p IH|]; intros r Hr; cbn [iter_pos].
  - pose proof (shr_1_le r Hr) as H1.
    destruct (shr_1_shape r Hr) as [N1 _].
    pose proof (IH _ N1) as H2.
    destruct (iter_shr_1_shape p _ N1) as [N2 _].
    pose proof (IH _ N2) as H3.
    destruct (iter_shr_1_shape p _ N2) as [N3 _].
    replace (Z.pos p~1) with (Z.pos p + Z.pos p + 1) by lia.
    rewrite !Z.pow_add_r by lia. change (2 ^ 1) with 2.
    set (P := 2 ^ Z.pos p) in *. assert (0 < P) by (apply Z.pow_pos_nonneg; lia).
    nia.
  - pose proof (IH _ Hr) as H2.
    destruct (iter_shr_1_shape p _ Hr) as [N2 _].
    pose proof (IH _ N2) as H3.
    destruct (iter_shr_1_shape p _ N2) as [N3 _].
    replace (Z.pos p~0) with (Z.pos p + Z.pos p) by lia.
    rewrite !Z.pow_add_r by lia.
    set (P := 2 ^ Z.pos p) in *. assert (0 < P) by (apply Z.pow_pos_nonneg; lia).
    nia.
  - change (2 ^ 1) with 2. apply shr_1_le, Hr.
Qed.

Lemma shr_fexp_le m e l :
  0 <= m ->
  let n := Z.max 0 (fexp64 (Zdigits2 m + e) - e) in
  2 ^ n * shr_m (fst (shr_fexp prec emax m e l)) <= m.
Proof.
  intros Hm n. unfold shr_fexp, shr. rewrite fexp64_eq. subst n.
  destruct (fexp64 (Zdigits2 m + e) - e) as [|p|p] eqn:E; cbn [fst].
  - rewrite shr_m_of_loc, Z.max_l, Z.pow_0_r by lia. lia.
  - rewrite Z.max_r by lia.
    pose proof (iter_shr_1_le p (shr_record_of_loc m l)) as H.
    rewrite shr_m_of_loc in H. apply H, Hm.
  - rewrite shr_m_of_loc, Z.max_l, Z.pow_0_r by lia. lia.
Qed.

(** A rounded result is at most one unit of the first rounding exponent
    above what was rounded. *)
Lemma bra_upper s m e l m'' e'' :
  0 <= m ->
  binary_round_aux prec emax s m e l = S754_finite s m'' e'' ->
  let e' := e + Z.max 0 (fexp64 (Zdigits2 m + e) - e) in
  e' <= e'' /\
  Z.pos m'' * 2 ^ (e'' - e) <= m + 2 ^ (e' - e).
Proof.
  intros Hm. unfold binary_round_aux.
  pose proof (shr_fexp_shape m e l Hm) as (A1 & A2 & A3).
  pose proof (shr_fexp_le m e l Hm) as A4.
  destruct (shr_fexp prec emax m e l) as [mrs' e1] eqn:E1.
  cbn [fst snd] in A1, A2, A3, A4.
  pose proof (round_nearest_even_shape (shr_m mrs') (loc_of_shr_record mrs') A1)
    as (B1 & B2).
  assert (B3 : round_nearest_even (shr_m mrs') (loc_of_shr_record mrs')
               <= shr_m mrs' + 1).
  { unfold round_nearest_even.
    destruct (loc_of_shr_record mrs') as [|[]]; try destruct (Z.even _); lia. }
  set (m1 := round_nearest_even (shr_m mrs') (loc_of_shr_record mrs')) in *.
  pose proof (shr_fexp_shape m1 e1 loc_Exact B1) as (C1 & C2 & C3).
  pose proof (shr_fexp_le m1 e1 loc_Exact B1) as C4.
  destruct (shr_fexp prec emax m1 e1 loc_Exact) as [mrs'' e2] eqn:E2.
  cbn [fst snd] in C1, C2, C3, C4.
  rewrite fexp64_eq in *.
  destruct (shr_m mrs'') as [|mm|mm] eqn:E3; try discriminate.
  destruct (e2 <=? emax - prec); [|discriminate].
  intros H. injection H as <- <-. cbn zeta.
  set (n1 := Z.max 0 (fexp64 (Zdigits2 m + e) - e)) in *.
  set (n2 := Z.max 0 (fexp64 (Zdigits2 m1 + e1) - e1)) in *.
  split; [lia|].
  replace (e2 - e) with (n2 + n1) by lia.
  replace (e + n1 - e) with n1 by lia.
  rewrite Z.pow_add_r by lia.
  assert (0 < 2 ^ n1) by (apply Z.pow_pos_nonneg; lia).
  assert (0 < 2 ^ n2) by (apply Z.pow_pos_nonneg; lia).
  nia.
Qed.

Lemma pow2_gt0 k : 0 <= k -> 0 < 2 ^ k.
Proof. intros. apply Z.pow_pos_nonneg; lia. Qed.

Lemma pow2_split a b : 0 <= a -> 0 <= b -> 2 ^ (a + b) = 2 ^ a * 2 ^ b.
Proof. intros. apply Z.pow_add_r; assumption. Qed.

Lemma scaled_shift m e n :
  0 <= n -> -1200 <= e -> scaled (m * 2 ^ n) e = scaled m (e + n).
Proof.
  intros Hn He. unfold scaled.
  replace (e + n + 1200) with (n + (e + 1200)) by lia.
  rewrite (pow2_split n (e + 1200)) by lia. ring.
Qed.

(** A magnitude below 2^k has at most [k - e] digits. *)
Lemma digits_of_scaled m e k :
  0 < m -> -1200 <= e -> scaled m e < 2 ^ (k + 1200) -> Zdigits2 m + e <= k.
Proof.
  intros Hm He H. pose proof (Zdigits2_bounds m Hm) as [Hl _].
  pose proof (proj2 (Zdigits2_pos_iff m ltac:(lia)) Hm) as Hd.
  unfold scaled in H.
  destruct (Z_lt_le_dec k (Zdigits2 m + e)) as [Hlt|]; [|assumption].
  exfalso.
  assert (2 ^ (k + 1200) <= 2 ^ (Zdigits2 m - 1 + (e + 1200)))
    by (apply Z.pow_le_mono_r; lia).
  rewrite (pow2_split (Zdigits2 m - 1) (e + 1200)) in H0 by lia.
  pose proof (pow2_gt0 (e + 1200) ltac:(lia)).
  nia.
Qed.

Lemma bra_scaled s m e l m'' e'' :
  0 <= m -> -1200 <= e ->
  binary_round_aux prec emax s m e l = S754_finite s m'' e'' ->
  scaled (Z.pos m'') e''
  <= scaled m e + 2 ^ (Z.max e (fexp64 (Zdigits2 m + e)) + 1200).
Proof.
  intros Hm He H. destruct (bra_upper s m e l m'' e'' Hm H) as [H1 H2].
  cbn zeta in *.
  set (n1 := Z.max 0 (fexp64 (Zdigits2 m + e) - e)) in *.
  replace (Z.max e (fexp64 (Zdigits2 m + e))) with (e + n1) by lia.
  unfold scaled.
  replace (e'' + 1200) with ((e'' - e) + (e + 1200)) by lia.
  replace (e + n1 + 1200) with ((e + n1 - e) + (e + 1200)) by lia.
  rewrite (pow2_split (e'' - e) (e + 1200)) by lia.
  rewrite (pow2_split (e + n1 - e) (e + 1200)) by lia.
  pose proof (pow2_gt0 (e + 1200) ltac:(lia)).
  nia.
Qed.

Lemma iter_xO_value d : forall m,
  Z.pos (Pos.iter xO m d) = Z.pos m * 2 ^ Z.pos d.
Proof.
  induction d as [|d IH] using Pos.peano_ind; intros m.
  - cbn [Pos.iter]. change (2 ^ 1) with 2. lia.
  - rewrite Pos.iter_succ, Pos2Z.inj_succ, Z.pow_succ_r by lia.
    change (Z.pos (Pos.iter xO m d)~0) with (2 * Z.pos (Pos.iter xO m d)).
    rewrite IH. ring.
Qed.

Lemma shl_align_scaled m e e' :
  -1200 <= Z.min e e' ->
  scaled (Z.pos (fst (shl_align m e e'))) (snd (shl_align m e e'))
  = scaled (Z.pos m) e.
Proof.
  intros He. unfold shl_align.
  destruct (e' - e) as [|d|d] eqn:E; cbn [fst snd]; try reflexivity.
  rewrite iter_xO_value, scaled_shift by lia. f_equal. lia.
Qed.

Lemma binary_round_scaled s mx ex m'' e'' :
  -1200 <= ex ->
  binary_round prec emax s mx ex = S754_finite s m'' e'' ->
  scaled (Z.pos m'') e''
  <= scaled (Z.pos mx) ex
     + 2 ^ (fexp64 (Z.pos (digits2_pos mx) + ex) + 1200).
Proof.
  intros He. unfold binary_round.
  pose proof (shl_align_shape mx ex (fexp prec emax (Z.pos (digits2_pos mx) + ex)))
    as [H1 H2].
  pose proof (shl_align_scaled mx ex (fexp prec emax (Z.pos (digits2_pos mx) + ex)))
    as H3.
  destruct (shl_align mx ex _) as [mz ez]. cbn [fst snd] in *.
  rewrite fexp64_eq in *. intros H.
  apply bra_scaled in H; [|lia|unfold fexp64 in *; lia].
  rewrite H3 in H by (unfold fexp64; lia).
  cbn [Zdigits2] in H. rewrite H1 in H.
  replace (Z.max ez (fexp64 (Z.pos (digits2_pos mx) + ex)))
    with (fexp64 (Z.pos (digits2_pos mx) + ex)) in H by lia.
  exact H.
Qed.

Lemma valid_finite s m e :
  valid_binary (S754_finite s m e) = true ->
  -1074 <= e <= 971 /\ Z.pos (digits2_pos m) <= 53.
Proof.
  cbn [SpecFloat.valid_binary]. unfold bounded, canonical_mantissa.
  rewrite andb_true_iff, Z.eqb_eq, Z.leb_le, fexp64_eq. unfold fexp64.
  change (emax - prec) with 971. lia.
Qed.

Lemma magnitude_nonneg x : 0 <= magnitude x.
Proof.
  destruct x as [| | |s m e]; cbn [magnitude]; try lia.
  unfold scaled. destruct (Z_lt_le_dec (e + 1200) 0).
  - rewrite Z.pow_neg_r by lia. lia.
  - pose proof (pow2_gt0 (e + 1200) ltac:(lia)). nia.
Qed.

Lemma pow2_le a b : a <= b -> 2 ^ a <= 2 ^ b.
Proof.
  intros H. destruct (Z_lt_le_dec a 0).
  - rewrite Z.pow_neg_r by lia. apply Z.pow_nonneg. lia.
  - apply Z.pow_le_mono_r; lia.
Qed.

Lemma SFadd_atMost x y Bx By k :
  valid_binary x = true -> valid_binary y = true ->
  atMost Bx x -> atMost By y ->
  Bx + By < 2 ^ (k + 1200) -> -1021 <= k < 1024 ->
  atMost (Bx + By + 2 ^ (k - 53 + 1200)) (SFadd prec emax x y).
Proof.
  intros Vx Vy [Cx Mx] [Cy My] HB Hk.
  pose proof (pow2_gt0 (k - 53 + 1200) ltac:(lia)) as Hp.
  pose proof (magnitude_nonneg x). pose proof (magnitude_nonneg y).
  destruct Cx as [->|(m1 & e1 & ->)]; destruct Cy as [->|(m2 & e2 & ->)].
  - split; [left; reflexivity|cbn; lia].
  - split; [right; cbn; eauto|cbn [SFadd]; lia].
  - split; [right; cbn; eauto|cbn [SFadd]; lia].
  - apply valid_finite in Vx as [Ve1 Vd1]. apply valid_finite in Vy as [Ve2 Vd2].
    cbn [magnitude] in *. cbn [SFadd cond_Zopp].
    set (ez := Z.min e1 e2).
    pose proof (shl_align_shape m1 e1 ez) as [_ S1].
    pose proof (shl_align_shape m2 e2 ez) as [_ S2].
    pose proof (shl_align_scaled m1 e1 ez ltac:(lia)) as A1.
    pose proof (shl_align_scaled m2 e2 ez ltac:(lia)) as A2.
    rewrite S1 in A1. rewrite S2 in A2.
    replace (Z.min e1 ez) with ez in A1 by lia.
    replace (Z.min e2 ez) with ez in A2 by lia.
    set (a1 := fst (shl_align m1 e1 ez)) in *.
    set (a2 := fst (shl_align m2 e2 ez)) in *.
    change (Z.pos a1 + Z.pos a2) with (Z.pos (a1 + a2)).
    cbn [binary_normalize].
    assert (Hsum : scaled (Z.pos (a1 + a2)) ez
                   = scaled (Z.pos m1) e1 + scaled (Z.pos m2) e2).
    { rewrite <- A1, <- A2. unfold scaled. rewrite Pos2Z.inj_add. ring. }
    assert (Hd : Z.pos (digits2_pos (a1 + a2)) + ez <= k).
    { apply (digits_of_scaled (Z.pos (a1 + a2)) ez k); lia. }
    destruct (binary_round_no_overflow false (a1 + a2) ez ltac:(lia))
      as [E|(m & e & E)].
    + rewrite E. split; [left; reflexivity|cbn; lia].
    + pose proof (binary_round_scaled false (a1 + a2) ez m e ltac:(lia) E) as Hr.
      rewrite E. split; [right; eauto|]. cbn [magnitude].
      assert (2 ^ (fexp64 (Z.pos (digits2_pos (a1 + a2)) + ez) + 1200)
              <= 2 ^ (k - 53 + 1200))
        by (apply pow2_le; unfold fexp64; lia).
      lia.
Qed.

Lemma Prim2SF_3 : Prim2SF 3 = SF3.
Proof. vm_compute. reflexivity. Qed.

Lemma SFdiv_3_atMost x B k :
  valid_binary x = true -> atMost B x ->
  B < 2 ^ (k + 1200) -> -1000 <= k < 1000 ->
  finite_or_zero false (SFdiv prec emax x SF3) /\
  3 * magnitude (SFdiv prec emax x SF3) <= B + 3 * 2 ^ (k - 53 + 1200).
Proof.
  intros Vx [Cx Mx] HB Hk.
  pose proof (pow2_gt0 (k - 53 + 1200) ltac:(lia)) as Hp.
  pose proof (magnitude_nonneg x).
  destruct Cx as [->|(m1 & e1 & ->)].
  - unfold SF3. cbn [SFdiv xorb magnitude] in *. split; [left; reflexivity|lia].
  - apply valid_finite in Vx as [Ve1 Vd1]. cbn [magnitude] in *.
    unfold SF3. cbn [SFdiv xorb]. unfold SFdiv_core_binary.
    change (Zdigits2 6755399441055744) with 53.
    cbn [Zdigits2]. rewrite fexp64_eq.
    set (d1 := Z.pos (digits2_pos m1)) in *.
    assert (Hd1 : d1 + e1 <= k).
    { apply (digits_of_scaled (Z.pos m1) e1 k); lia. }
    set (e' := Z.min (fexp64 (d1 + e1 - (53 + -51))) (e1 - -51)).
    assert (He' : e' = fexp64 (d1 + e1 - 2)).
    { subst e'. unfold fexp64. replace (d1 + e1 - (53 + -51)) with (d1 + e1 - 2) by lia.
      lia. }
    assert (Hlo : -1074 <= e' <= Z.max (k - 55) (-1074))
      by (rewrite He'; unfold fexp64; lia).
    assert (Hs : 0 < e1 - -51 - e') by (rewrite He'; unfold fexp64; lia).
    destruct (e1 - -51 - e') as [|sp|sp] eqn:Es; try lia.
    rewrite Z.shiftl_mul_pow2 by lia.
    set (m' := Z.pos m1 * 2 ^ Z.pos sp).
    assert (Hm' : 0 <= m') by (subst m'; pose proof (pow2_gt0 (Z.pos sp)); nia).
    pose proof (Z.div_pos m' 6755399441055744 Hm' ltac:(lia)) as Hq.
    pose proof (Z.mul_div_le m' 6755399441055744 ltac:(lia)) as Hqm.
    unfold Z.div in Hq, Hqm.
    destruct (Z.div_eucl m' 6755399441055744) as [q r].
    (* three times the quotient is at most the dividend *)
    assert (H3 : 3 * scaled q e' <= scaled (Z.pos m1) e1).
    { unfold scaled.
      replace (e' + 1200) with (51 + (e' + 1149)) by lia.
      replace (e1 + 1200) with (Z.pos sp + (e' + 1149)) by lia.
      rewrite (pow2_split 51 (e' + 1149)) by lia.
      rewrite (pow2_split (Z.pos sp) (e' + 1149)) by lia.
      pose proof (pow2_gt0 (e' + 1149) ltac:(lia)).
      change (2 ^ 51) with 2251799813685248.
      subst m'. nia. }
    assert (Hdq : Zdigits2 q + e' <= k).
    { destruct (Z.eq_dec q 0) as [->|Hq0].
      - cbn [Zdigits2]. lia.
      - apply (digits_of_scaled q e' k); lia. }
    set (l := new_location 6755399441055744 r).
    destruct (bra_no_overflow false q e' l Hq ltac:(lia) ltac:(lia))
      as [E|(m & e & E)].
    + rewrite E. split; [left; reflexivity|cbn [magnitude]; lia].
    + pose proof (bra_scaled false q e' l m e Hq ltac:(lia) E) as Hr.
      rewrite E. split; [right; eauto|]. cbn [magnitude].
      assert (2 ^ (Z.max e' (fexp64 (Zdigits2 q + e')) + 1200)
              <= 2 ^ (k - 53 + 1200)).
      { apply pow2_le. unfold fexp64. lia. }
      lia.
Qed.

End Magnitude.

(* ================================================================= *)
(** ** [Math.round] of a score *)

Module Rounding.
Import JS Index Spec Binary64 Page Reference Magnitude.
Local Open Scope Z_scope.

Lemma compare_cont_Eq p q : Pos.compare_cont Eq p q = Pos.compare p q.
Proof. reflexivity. Qed.

Lemma atMost_100 x :
  finite_or_zero false (Prim2SF x) -> (x <=? 100)%float = true ->
  atMost hundred (Prim2SF x).
Proof.
  intros C Hle. split; [exact C|].
  rewrite FloatAxioms.leb_spec, Prim2SF_100 in Hle.
  pose proof (Prim2SF_valid x) as V.
  unfold hundred.
  assert (P0 : 2 ^ 1200 = 2 ^ 46 * 2 ^ 1154) by (rewrite <- Z.pow_add_r by lia; reflexivity).
  destruct C as [E|(m & e & E)]; rewrite E in *.
  - cbn [magnitude]. pose proof (pow2_gt0 1200 ltac:(lia)). lia.
  - apply valid_finite in V as [Ve Vd]. cbn [magnitude].
    unfold SFleb, SF100 in Hle.
    assert (Hc : Z.pos 7036874417766400 = 100 * 2 ^ 46) by reflexivity.
    remember 7036874417766400%positive as c eqn:Ec. clear Ec.
    cbn [SFcompare] in Hle. rewrite compare_cont_Eq in Hle.
    pose proof (Zdigits2_bounds (Z.pos m) ltac:(lia)) as [_ Hu].
    cbn [Zdigits2] in Hu.
    assert (Hm : Z.pos m < 2 ^ 53).
    { eapply Z.lt_le_trans; [exact Hu|]. apply pow2_le. lia. }
    unfold scaled.
    destruct (Z.compare_spec e (-46)) as [He|Hlt|Hgt]; try discriminate.
    + destruct (Pos.compare_spec m c) as [Hme|Hml|Hmg]; try discriminate.
      * subst m e. replace (-46 + 1200) with 1154 by lia.
        rewrite Hc, P0. lia.
      * subst e. replace (-46 + 1200) with 1154 by lia.
        rewrite P0. pose proof (pow2_gt0 1154 ltac:(lia)).
        pose proof (pow2_gt0 46 ltac:(lia)).
        assert (Z.pos m < 100 * 2 ^ 46) by lia.
        set (A := 2 ^ 46) in *. set (B := 2 ^ 1154) in *. nia.
    + assert (P1 : 2 ^ 1200 = 2 ^ (-47 - e) * 2 ^ (e + 1200) * 2 ^ 47).
      { rewrite <- !Z.pow_add_r by lia. f_equal. lia. }
      assert (P2 : 2 ^ 53 = 64 * 2 ^ 47) by reflexivity.
      rewrite P1. rewrite P2 in Hm.
      pose proof (pow2_gt0 (-47 - e) ltac:(lia)).
      pose proof (pow2_gt0 (e + 1200) ltac:(lia)).
      pose proof (pow2_gt0 47 ltac:(lia)).
      set (A := 2 ^ (-47 - e)) in *. set (B := 2 ^ (e + 1200)) in *.
      set (D := 2 ^ 47) in *.
      assert (Z.pos m * B <= 64 * D * B) by nia.
      assert (64 * D * B <= 100 * (A * B * D)) by nia.
      lia.
Qed.

Lemma valid_canonical s m e :
  valid_binary (S754_finite s m e) = true ->
  e = fexp64 (Z.pos (digits2_pos m) + e).
Proof.
  cbn [SpecFloat.valid_binary]. unfold bounded, canonical_mantissa.
  rewrite andb_true_iff, Z.eqb_eq, fexp64_eq. intros [H _]. lia.
Qed.

Lemma integer_number n :
  0 <= n -> integer false n = number (Z.to_nat n).
Proof.
  intros Hn. unfold number. rewrite Z2Nat.id by assumption.
  destruct n as [|p|p]; [reflexivity|reflexivity|lia].
Qed.

(** [Math.round] of a value from 0 to below 100.5 is a whole number from 0
    to 100. *)
Lemma Math_round_small x :
  finite_or_zero false (Prim2SF x) ->
  magnitude (Prim2SF x) < 201 * 2 ^ 1199 ->
  exists n : nat, (n <= 100)%nat /\ Math_round x = number n.
Proof.
  intros C Hm. unfold Math_round.
  pose proof (Prim2SF_valid x) as V.
  destruct C as [E|(m & e & E)]; rewrite E in *.
  - exists 0%nat. split; [lia|].
    rewrite <- (SF2Prim_Prim2SF x), E. reflexivity.
  - pose proof (valid_canonical _ _ _ V) as Hcan.
    apply valid_finite in V as [Ve Vd]. cbn [magnitude] in Hm.
    unfold scaled in Hm.
    pose proof (Zdigits2_bounds (Z.pos m) ltac:(lia)) as [Hl _].
    cbn [Zdigits2] in Hl.
    assert (P0 : 2 ^ 1200 = 2 * 2 ^ 1199)
      by (rewrite <- Z.pow_succ_r by lia; reflexivity).
    assert (He : e < 0).
    { destruct (Z_lt_le_dec e 0) as [|Hge]; [assumption|exfalso].
      assert (Hd : Z.pos (digits2_pos m) = 53) by (unfold fexp64 in Hcan; lia).
      rewrite Hd in Hl. change (2 ^ (53 - 1)) with 4503599627370496 in Hl.
      assert (2 ^ 1200 <= 2 ^ (e + 1200)) by (apply pow2_le; lia).
      pose proof (pow2_gt0 1199 ltac:(lia)).
      set (A := 2 ^ (e + 1200)) in *. set (B := 2 ^ 1199) in *. nia. }
    destruct (Z.leb_spec 0 e); [lia|]. cbn [cond_Zopp].
    set (a := Z.pos m * 2 + 2 ^ (- e)).
    set (b := 2 ^ (1 - e)).
    assert (Pb : b = 2 * 2 ^ (- e)).
    { subst b. replace (1 - e) with (Z.succ (- e)) by lia.
      apply Z.pow_succ_r. lia. }
    assert (P1 : 2 ^ 1200 = 2 ^ (e + 1200) * 2 ^ (- e)).
    { rewrite <- Z.pow_add_r by lia. f_equal. lia. }
    pose proof (pow2_gt0 (- e) ltac:(lia)) as HA.
    pose proof (pow2_gt0 (e + 1200) ltac:(lia)) as HB.
    pose proof (pow2_gt0 1199 ltac:(lia)) as HC.
    assert (Hlt : Z.pos m * 2 < 201 * 2 ^ (- e)).
    { set (A := 2 ^ (- e)) in *. set (B := 2 ^ (e + 1200)) in *.
      set (C := 2 ^ 1199) in *. set (D := 2 ^ 1200) in *.
      assert (Z.pos m * 2 * B < 201 * A * B) by nia. nia. }
    assert (H0 : 0 <= a / b).
    { apply Z.div_pos; subst a; lia. }
    assert (H1 : a / b < 101).
    { apply Z.div_lt_upper_bound; subst a; lia. }
    exists (Z.to_nat (a / b)). split; [lia|]. apply integer_number, H0.
Qed.

Lemma add_atMost x y Bx By k :
  atMost Bx (Prim2SF x) -> atMost By (Prim2SF y) ->
  Bx + By < 2 ^ (k + 1200) -> -1021 <= k < 1024 ->
  atMost (Bx + By + 2 ^ (k - 53 + 1200)) (Prim2SF (x + y)).
Proof.
  intros Hx Hy HB Hk. rewrite FloatAxioms.add_spec.
  apply SFadd_atMost; auto using Prim2SF_valid.
Qed.

(** The mean of three scores from 0 to 100 rounds to a whole number from 0
    to 100. *)
Lemma mean_small r k s :
  atMost hundred (Prim2SF r) -> atMost hundred (Prim2SF k) ->
  atMost hundred (Prim2SF s) ->
  exists n : nat, (n <= 100)%nat /\ Math_round ((r + k + s) / 3) = number n.
Proof.
  intros Hr Hk Hs. unfold hundred in *.
  assert (Q0 : 0 < 2 ^ 1155) by (apply pow2_gt0; lia).
  assert (P1 : 2 ^ 1200 = 35184372088832 * 2 ^ 1155)
    by (change 35184372088832 with (2 ^ 45); rewrite <- Z.pow_add_r by lia;
        reflexivity).
  assert (P2 : 2 ^ 1156 = 2 * 2 ^ 1155)
    by (rewrite <- Z.pow_succ_r by lia; reflexivity).
  assert (P3 : 2 ^ 1199 = 17592186044416 * 2 ^ 1155)
    by (change 17592186044416 with (2 ^ 44); rewrite <- Z.pow_add_r by lia;
        reflexivity).
  assert (P4 : 2 ^ 1208 = 9007199254740992 * 2 ^ 1155)
    by (change 9007199254740992 with (2 ^ 53); rewrite <- Z.pow_add_r by lia;
        reflexivity).
  assert (P5 : 2 ^ 1209 = 18014398509481984 * 2 ^ 1155)
    by (change 18014398509481984 with (2 ^ 54); rewrite <- Z.pow_add_r by lia;
        reflexivity).
  pose proof (add_atMost r k _ _ 8 Hr Hk) as Ha.
  replace (8 + 1200) with 1208 in Ha by lia.
  replace (8 - 53 + 1200) with 1155 in Ha by lia.
  specialize (Ha ltac:(lia) ltac:(lia)).
  pose proof (add_atMost (r + k) s _ _ 9 Ha Hs) as Hb.
  replace (9 + 1200) with 1209 in Hb by lia.
  replace (9 - 53 + 1200) with 1156 in Hb by lia.
  specialize (Hb ltac:(lia) ltac:(lia)).
  pose proof (SFdiv_3_atMost (Prim2SF (r + k + s)) _ 9
                (Prim2SF_valid _) Hb) as Hc.
  replace (9 + 1200) with 1209 in Hc by lia.
  replace (9 - 53 + 1200) with 1156 in Hc by lia.
  specialize (Hc ltac:(lia) ltac:(lia)).
  rewrite <- Prim2SF_3, <- FloatAxioms.div_spec in Hc.
  destruct Hc as [Hc1 Hc2].
  apply Math_round_small; [exact Hc1|]. lia.
Qed.

End Rounding.

(* ================================================================= *)
(** ** The states of the page *)

Module Analyzer.
Import JS Index Spec Binary64 Runtime Properties.
Import Page Reference Splitting Magnitude Rounding.
Local Open Scope string_scope.

(** *** The scores as magnitudes *)

Lemma signed_atMost x :
  signed false (Prim2SF x) -> (x <=? 100)%float = true ->
  atMost hundred (Prim2SF x).
Proof.
  intros S Hle. apply atMost_100; [|exact Hle].
  rewrite FloatAxioms.leb_spec, Prim2SF_100 in Hle.
  destruct S as [E|[E|E]]; [left; exact E| |right; exact E].
  rewrite E in Hle. discriminate.
Qed.

Lemma positive_signed x : (0 <? x)%float = true -> signed false (Prim2SF x).
Proof.
  rewrite FloatAxioms.ltb_spec. change (Prim2SF 0) with (S754_zero false).
  unfold signed. destruct (Prim2SF x) as [s|[]| |[] m e]; cbn; intros H;
    try discriminate; eauto.
Qed.

Lemma clamp_atMost x :
  nonnan (Prim2SF x) -> atMost hundred (Prim2SF (clamp x)).
Proof.
  intros Hx. unfold clamp.
  destruct (Math_min_100 x Hx) as (_ & Hn & Hle).
  pose proof (Math_max_0 _ Hn Hle) as [_ Hle'].
  apply signed_atMost; [|exact Hle'].
  unfold Math_max in *. rewrite (is_nan_false _ Hn) in *.
  change (is_nan 0) with false in *. change (get_sign 0) with false in *.
  cbn [orb] in *.
  destruct (0 <? Math_min 100 x)%float eqn:E.
  - apply positive_signed, E.
  - destruct (Math_min 100 x <? 0)%float; left; reflexivity.
Qed.

Lemma calculateReadability_atMost text :
  wellFormed text -> atMost hundred (Prim2SF (calculateReadability text)).
Proof.
  intros Hwf. rewrite calculateReadability_formula. apply clamp_atMost.
  pose proof (readabilityWords_pos text).
  pose proof (readabilitySentences_pos text).
  pose proof (readabilityWords_le text).
  pose proof (readabilitySentences_le text).
  pose proof (readabilityCharacters_le text).
  apply readabilityFormula_nonnan;
    try lia; apply (small_count _ text Hwf); lia.
Qed.

Lemma keywordScore_atMost unique total :
  (0 < total)%nat -> (Z.of_nat unique < 2 ^ 63)%Z -> (Z.of_nat total < 2 ^ 63)%Z ->
  atMost hundred (Prim2SF (Math_min 100 (number unique / number total * 150))).
Proof.
  intros Ht Bu Bt.
  assert (V : signed false (Prim2SF (number unique / number total * 150))).
  { apply (mul_signed _ _ _ _ Prim2SF_150), div_signed.
    - apply number_finite_or_zero, Bu.
    - apply number_positive; assumption. }
  destruct (Math_min_100 _ (signed_nonnan _ _ V)) as ([E|E] & _ & Hle).
  - rewrite E. apply atMost_100; [right|reflexivity].
    rewrite Prim2SF_100. unfold SF100. eauto.
  - apply signed_atMost; [|exact Hle]. rewrite E. exact V.
Qed.

Lemma analyzeKeywords_atMost text :
  wellFormed text ->
  atMost hundred (Prim2SF (KeywordResult.score (analyzeKeywords text))).
Proof.
  intros Hwf. destruct (keywordTokens text) as [|w ws] eqn:E.
  - unfold analyzeKeywords. rewrite E. cbn [Nat.eqb List.length KeywordResult.score].
    apply atMost_100; [left|]; reflexivity.
  - rewrite analyzeKeywords_score by congruence.
    pose proof (keywordTokens_le text) as Hle.
    pose proof (keys_countWords_le (keywordTokens text)) as Hk.
    rewrite E in *. cbn [List.length] in Hle, Hk.
    apply keywordScore_atMost.
    + cbn [List.length]. lia.
    + apply (small_count _ text Hwf). lia.
    + apply (small_count _ text Hwf). cbn [List.length]. lia.
Qed.

Lemma analyzeHeadings_atMost text :
  atMost hundred (Prim2SF (HeadingResult.score (analyzeHeadings text))).
Proof.
  rewrite analyzeHeadings_score.
  destruct (HeadingResult.hasH1 _), (HeadingResult.hasSubheadings _);
    apply atMost_100; try reflexivity; try (left; reflexivity);
    right; vm_compute; eauto.
Qed.

(** *** The page *)

Lemma isBlank_whitespaceOnly text :
  isBlank text = true <-> whitespaceOnly text.
Proof.
  unfold isBlank, str_trim, whitespaceOnly. rewrite text_empty.
  rewrite <- trim_nil_iff. destruct (trim (chars text)); cbn [isNil];
    split; congruence.
Qed.

Lemma handleAnalyze_blank st :
  whitespaceOnly (content st) -> handleAnalyze st = st.
Proof.
  intros H. unfold handleAnalyze.
  rewrite (proj2 (isBlank_whitespaceOnly _) H). reflexivity.
Qed.

Lemma handleAnalyze_results st :
  ~ whitespaceOnly (content st) ->
  analyzed (handleAnalyze st) = true /\
  content (handleAnalyze st) = content st /\
  resultsOf (content st) (handleAnalyze st).
Proof.
  intros H. unfold handleAnalyze.
  destruct (isBlank (content st)) eqn:E.
  - exfalso. apply H, isBlank_whitespaceOnly, E.
  - repeat split.
Qed.

Lemma reachable_invariant st : reachable st -> invariant st.
Proof.
  induction 1 as [|st ev Hr [Hwf IH] Hev].
  - split; [unfold wellFormed, maxLength; cbn; lia|].
    left. repeat split.
  - destruct ev as [value| |]; cbn [dispatch].
    + split; [exact Hev|].
      destruct IH as [P|(t & Ht & Hb & R)]; [left|right; exists t]; auto.
    + destruct (isBlank (content st)) eqn:E.
      * rewrite handleAnalyze_blank by (apply isBlank_whitespaceOnly, E).
        split; assumption.
      * assert (Hb : ~ whitespaceOnly (content st)).
        { intros Hw. apply isBlank_whitespaceOnly in Hw. congruence. }
        destruct (handleAnalyze_results st Hb) as (_ & Ec & R).
        split; [rewrite Ec; exact Hwf|].
        right. exists (content st). auto.
    + destruct (analyzed st) eqn:Ea; [|split; assumption].
      split; [exact Hwf|].
      destruct IH as [P|(t & Ht & Hb & R)].
      * destruct P. congruence.
      * right. exists t. auto.
Qed.

Lemma invariant_analyzed st :
  invariant st -> analyzed st = true ->
  exists t, wellFormed t /\ ~ whitespaceOnly t /\ resultsOf t st.
Proof.
  intros [_ [P|H]] Ha; [destruct P; congruence|exact H].
Qed.

Lemma invariant_scores st :
  invariant st ->
  atMost hundred (Prim2SF (readabilityScore st)) /\
  atMost hundred (Prim2SF (keywordScore st)) /\
  atMost hundred (Prim2SF (structureScore st)).
Proof.
  intros [_ [P|(t & Ht & _ & R)]].
  - destruct P as (_ & -> & -> & -> & _).
    repeat split; try (left; reflexivity); vm_compute; discriminate.
  - destruct R as (-> & -> & -> & _).
    split; [apply calculateReadability_atMost, Ht|].
    split; [apply analyzeKeywords_atMost, Ht|apply analyzeHeadings_atMost].
Qed.

End Analyzer.

(* ================================================================= *)
(** ** Texts without a repeated token *)

Module Diversity.
Import JS Index Spec Binary64 Runtime Properties.
Import Page Reference Splitting Magnitude Rounding Analyzer.
Local Open Scope string_scope.

(** *** A Number divided by itself *)

Lemma SFdiv_self m e :
  SFdiv prec emax (S754_finite false m e) (S754_finite false m e)
  = S754_finite false 4503599627370496 (-52).
Proof.
  cbn [SFdiv xorb]. unfold SFdiv_core_binary.
  replace (Zdigits2 (Z.pos m) + e - (Zdigits2 (Z.pos m) + e))%Z with 0%Z by lia.
  replace (e - e)%Z with 0%Z by lia.
  change (Z.min (fexp prec emax 0) 0) with (-53)%Z.
  change (0 - -53)%Z with 53%Z. cbv iota.
  rewrite Z.shiftl_mul_pow2 by lia.
  pose proof (Z.div_mul (2 ^ 53) (Z.pos m) ltac:(lia)) as Hq.
  pose proof (Z.mod_mul (2 ^ 53) (Z.pos m) ltac:(lia)) as Hr.
  rewrite (Z.mul_comm (2 ^ 53)) in Hq, Hr.
  unfold Z.div in Hq. unfold Z.modulo in Hr.
  destruct (Z.div_eucl (Z.pos m * 2 ^ 53) (Z.pos m)) as [q r].
  subst q r.
  assert (L : new_location (Z.pos m) 0 = loc_Exact).
  { unfold new_location, new_location_even, new_location_odd.
    destruct (Z.even (Z.pos m)); reflexivity. }
  rewrite L. vm_compute. reflexivity.
Qed.

Lemma div_self x m e :
  Prim2SF x = S754_finite false m e -> (x / x)%float = 1%float.
Proof.
  intros E. apply Prim2SF_inj. rewrite FloatAxioms.div_spec, E.
  unfold SF64div. rewrite SFdiv_self. vm_compute. reflexivity.
Qed.

(** A text whose tokens are all different has keyword score 100. *)
Lemma analyzeKeywords_all_distinct text :
  wellFormed text -> keywordTokens text <> [] -> NoDup (keywordTokens text) ->
  KeywordResult.score (analyzeKeywords text) = 100%float.
Proof.
  intros Hwf Hne Hnd. rewrite analyzeKeywords_score by exact Hne.
  rewrite keys_countWords_length, (nodup_fixed_point string_dec Hnd).
  pose proof (keywordTokens_le text) as Hle.
  destruct (number_positive (List.length (keywordTokens text))) as (m & e & E).
  - destruct (keywordTokens text); [congruence|cbn; lia].
  - apply (small_count _ text Hwf), Hle.
  - rewrite (div_self _ m e E). vm_compute. reflexivity.
Qed.

End Diversity.

(* ================================================================= *)
(** ** Word counts of joined texts; the order of the keyword list *)

Module Ranking.
Import JS Index Spec Binary64 Runtime Properties.
Import Page Reference Splitting Magnitude Rounding Analyzer Diversity.
Local Open Scope string_scope.

(** *** Word counts compose *)

Lemma runs_app_separator p a c b : forall inRun,
  p c = false ->
  runs p inRun (a ++ c :: b) = runs p inRun a + runs p false b.
Proof.
  intros inRun Hc. revert inRun.
  induction a as [|ch a IH]; intros inRun; cbn [app runs].
  - rewrite Hc. reflexivity.
  - destruct (p ch); rewrite IH; lia.
Qed.

Lemma calculateWordCount_append a sep b :
  whitespaceOnly sep -> sep <> "" ->
  calculateWordCount (a ++ sep ++ b)
  = calculateWordCount a + calculateWordCount b.
Proof.
  intros Hs Hne. rewrite !calculateWordCount_runs, !chars_app.
  unfold whitespaceOnly in Hs.
  destruct (chars sep) as [|c s'] eqn:E.
  - destruct sep; [congruence|discriminate].
  - inversion Hs as [|? ? Hc Hs']; subst. cbn [app].
    rewrite runs_app_separator by (unfold notWhiteSpace; rewrite Hc; reflexivity).
    rewrite runs_leading by (apply whitespace_notWhiteSpace, Hs').
    reflexivity.
Qed.

Lemma runs_le_filter p s : forall inRun,
  runs p inRun s <= List.length (filter p s).
Proof.
  induction s as [|ch tl IH]; intros inRun; cbn [runs filter]; [lia|].
  destruct (p ch); cbn [List.length].
  - specialize (IH true). destruct inRun; lia.
  - apply IH.
Qed.

Lemma calculateWordCount_le_characters text :
  calculateWordCount text <= readabilityCharacters text.
Proof.
  rewrite calculateWordCount_runs, readabilityCharacters_filter.
  apply runs_le_filter.
Qed.

(** *** The keyword list *)

Lemma NoDup_firstn (A : Type) n : forall l : list A,
  NoDup l -> NoDup (firstn n l).
Proof.
  induction n as [|n IH]; intros [|x l] H; cbn [firstn]; try constructor.
  - inversion H as [|? ? Hx Hl]; subst. intros Hin. apply Hx.
    eapply In_firstn, Hin.
  - inversion H; subst. apply IH. assumption.
Qed.

Lemma keywords_NoDup text :
  NoDup (KeywordResult.keywords (analyzeKeywords text)).
Proof.
  destruct (keywordTokens text) as [|t ts] eqn:E.
  - unfold analyzeKeywords. rewrite E. constructor.
  - rewrite keywords_unfold by congruence. rewrite <- firstn_map.
    apply NoDup_firstn.
    eapply Permutation_NoDup;
      [apply Permutation_map, Permutation_sym, sort_perm|].
    apply (keys_countWords (keywordTokens text)).
Qed.

Lemma descending_app l1 : forall l2,
  descending (l1 ++ l2) -> forall a b, In a l1 -> In b l2 -> b <= a.
Proof.
  induction l1 as [|x l1 IH]; intros l2 Hd a b Ha Hb; [destruct Ha|].
  cbn [app] in Hd. apply descending_cons in Hd as [Hall Hd].
  destruct Ha as [<-|Ha].
  - apply Hall, in_or_app. right. exact Hb.
  - eapply IH; eassumption.
Qed.

(** Without a token that names an inherited property, a keyword is at least
    as frequent as every token that is not a keyword. *)
Lemma keywords_top text k w :
  Forall plain (keywordTokens text) ->
  In k (KeywordResult.keywords (analyzeKeywords text)) ->
  In w (keywordTokens text) ->
  ~ In w (KeywordResult.keywords (analyzeKeywords text)) ->
  frequency (keywordTokens text) w <= frequency (keywordTokens text) k.
Proof.
  intros Hp Hk Hw Hnot.
  destruct (keywordTokens text) as [|t ts] eqn:E; [destruct Hw|].
  rewrite keywords_unfold in Hk, Hnot by congruence. rewrite E in *.
  set (ws := t :: ts) in *.
  set (L := sort byFrequency (entries (countWords ws))) in *.
  set (g := fun e : string * value => frequency ws (fst e)).
  assert (Hd : descending (map g L)).
  { apply (sort_descending (string * value) byFrequency g).
    intros [k1 v1] [k2 v2] H1 H2. unfold g. cbn [fst].
    rewrite (entries_counts ws k1 v1 Hp H1), (entries_counts ws k2 v2 Hp H2).
    reflexivity. }
  rewrite <- (firstn_skipn 5 L), map_app in Hd.
  apply in_map_iff in Hk as ([k' vk] & <- & Hk).
  assert (HwL : exists vw, In (w, vw) L).
  { apply (keys_countWords ws) in Hw. unfold keys in Hw.
    apply in_map_iff in Hw as ([w' vw] & <- & Hw).
    exists vw. apply sort_In. exact Hw. }
  destruct HwL as (vw & HwL).
  rewrite <- (firstn_skipn 5 L) in HwL. apply in_app_or in HwL as [Hin|Hin].
  - exfalso. apply Hnot. change w with (fst (w, vw)). apply in_map, Hin.
  - apply (descending_app _ _ Hd (g (k', vk)) (g (w, vw)));
      apply in_map; assumption.
Qed.

End Ranking.

(* ================================================================= *)
(** ** The colour of a score *)

Module Colour.
Import JS Index Spec Binary64 Runtime Properties.
Import Page Reference Splitting Magnitude Rounding Analyzer.
Local Open Scope string_scope.

(** *** The colour of a score *)

Lemma SFleb_above m e y :
  SFleb (S754_finite false m e) y = true <-> above m e y.
Proof.
  unfold SFleb, above. destruct y as [s|[]| |[] my ey]; cbn [SFcompare].
  - split; [discriminate|]. intros [H|(a & b & H & _)]; discriminate.
  - split; [discriminate|]. intros [H|(a & b & H & _)]; discriminate.
  - split; [auto|reflexivity].
  - split; [discriminate|]. intros [H|(a & b & H & _)]; discriminate.
  - split; [discriminate|]. intros [H|(a & b & H & _)]; discriminate.
  - rewrite compare_cont_Eq.
    destruct (Z.compare_spec e ey) as [->|Hlt|Hgt].
    + destruct (Pos.compare_spec m my) as [->|Hl|Hg].
      * split; [|reflexivity]. intros _. right. exists my, ey.
        split; [reflexivity|]. right. split; [reflexivity|lia].
      * split; [|reflexivity]. intros _. right. exists my, ey.
        split; [reflexivity|]. right. split; [reflexivity|lia].
      * split; [discriminate|].
        intros [H|(a & b & H & [H1|[_ H2]])]; [discriminate| |];
          injection H as <- <-; lia.
    + split; [|reflexivity]. intros _. right. exists my, ey.
      split; [reflexivity|]. left. exact Hlt.
    + split; [discriminate|].
      intros [H|(a & b & H & [H1|[H1 _]])]; [discriminate| |];
        injection H as <- <-; lia.
Qed.

Lemma above_leb m e y z :
  above m e y -> SFleb y z = true -> above m e z.
Proof.
  intros [->|(my & ey & -> & Hy)].
  - unfold SFleb. destruct z as [s|[]| |[] mz ez]; cbn [SFcompare];
      try discriminate. intros _. left. reflexivity.
  - intros H. apply SFleb_above in H as [->|(mz & ez & -> & Hz)];
      [left; reflexivity|].
    right. exists mz, ez. split; [reflexivity|]. lia.
Qed.

Lemma leb_trans_finite c m e a b :
  Prim2SF c = S754_finite false m e ->
  (c <=? a)%float = true -> (a <=? b)%float = true -> (c <=? b)%float = true.
Proof.
  intros Hc. rewrite !FloatAxioms.leb_spec, Hc, !SFleb_above.
  intros H1 H2. eapply above_leb; eauto.
Qed.

Lemma getScoreColor_monotone a b :
  (a <=? b)%float = true ->
  colorRank (getScoreColor a) <= colorRank (getScoreColor b).
Proof.
  intros Hab. unfold getScoreColor.
  destruct (70 <=? a)%float eqn:E70.
  - rewrite (leb_trans_finite 70 _ _ a b ltac:(vm_compute; reflexivity) E70 Hab).
    cbn. lia.
  - destruct (40 <=? a)%float eqn:E40.
    + pose proof (leb_trans_finite 40 _ _ a b ltac:(vm_compute; reflexivity)
                    E40 Hab) as H40.
      rewrite H40. destruct (70 <=? b)%float; cbn; lia.
    + destruct (70 <=? b)%float; [|destruct (40 <=? b)%float]; cbn; lia.
Qed.

End Colour.

(* ================================================================= *)
(** ** Whitespace around a text; the tabs of suggestions *)

Module Padding.
Import JS Index Spec Binary64 Runtime Properties.
Import Page Reference Splitting Magnitude Rounding Analyzer Ranking.
Local Open Scope string_scope.

(** *** Whitespace around a text *)

Lemma dropWhile_leading (p : ascii -> bool) a s :
  Forall (fun ch => p ch = true) a ->
  dropWhile p (a ++ s)%list = dropWhile p s.
Proof.
  induction 1 as [|ch a Hch _ IH]; cbn [app dropWhile]; [reflexivity|].
  rewrite Hch. exact IH.
Qed.

Lemma dropWhile_app (p : ascii -> bool) s b :
  dropWhile p s <> [] -> dropWhile p (s ++ b)%list = (dropWhile p s ++ b)%list.
Proof.
  induction s as [|ch s IH]; cbn [app dropWhile]; [congruence|].
  destruct (p ch); [exact IH|reflexivity].
Qed.

Lemma trim_padding a s b :
  Forall (fun ch => isWhiteSpace ch = true) a ->
  Forall (fun ch => isWhiteSpace ch = true) b ->
  trim (a ++ s ++ b)%list = trim s.
Proof.
  intros Ha Hb. unfold trim. rewrite dropWhile_leading by assumption.
  destruct (dropWhile isWhiteSpace s) as [|c d] eqn:E.
  - assert (Hs : Forall (fun ch => isWhiteSpace ch = true) s).
    { rewrite (takeWhile_dropWhile isWhiteSpace s), E, app_nil_r.
      apply takeWhile_all. }
    rewrite (dropWhile_all isWhiteSpace (s ++ b)%list)
      by (apply Forall_app; auto).
    reflexivity.
  - rewrite dropWhile_app by congruence. rewrite E.
    rewrite rev_app_distr.
    rewrite dropWhile_leading by (apply Forall_rev, Hb). reflexivity.
Qed.

Lemma filter_padding a s b :
  Forall (fun ch => isWhiteSpace ch = true) a ->
  Forall (fun ch => isWhiteSpace ch = true) b ->
  filter notWhiteSpace (a ++ s ++ b)%list = filter notWhiteSpace s.
Proof.
  intros Ha Hb.
  assert (N : forall l, Forall (fun ch => isWhiteSpace ch = true) l ->
                        filter notWhiteSpace l = []).
  { induction 1 as [|ch l Hch _ IH]; cbn [filter]; [reflexivity|].
    unfold notWhiteSpace at 1. rewrite Hch. exact IH. }
  rewrite !filter_app, (N a Ha), (N b Hb), app_nil_r. reflexivity.
Qed.

Lemma counts_padding a text b :
  whitespaceOnly a -> whitespaceOnly b ->
  readabilityWords (a ++ text ++ b) = readabilityWords text /\
  readabilitySentences (a ++ text ++ b) = readabilitySentences text /\
  readabilityCharacters (a ++ text ++ b) = readabilityCharacters text /\
  calculateWordCount (a ++ text ++ b) = calculateWordCount text.
Proof.
  unfold whitespaceOnly. intros Ha Hb.
  assert (Et : str_trim (a ++ text ++ b) = str_trim text).
  { unfold str_trim. rewrite !chars_app, trim_padding by assumption.
    reflexivity. }
  split; [unfold readabilityWords; rewrite Et; reflexivity|].
  split; [|split].
  - rewrite !readabilitySentences_runs, !chars_app.
    rewrite runs_leading, runs_trailing; [reflexivity| |];
      (eapply Forall_impl; [|eassumption]);
      apply whitespace_not_sentenceMark.
  - rewrite !readabilityCharacters_filter, !chars_app.
    rewrite filter_padding by assumption. reflexivity.
  - unfold calculateWordCount. rewrite Et. reflexivity.
Qed.

Lemma calculateReadability_padding a text b :
  whitespaceOnly a -> whitespaceOnly b ->
  calculateReadability (a ++ text ++ b) = calculateReadability text.
Proof.
  intros Ha Hb.
  destruct (counts_padding a text b Ha Hb) as (Ew & Es & Ec & _).
  rewrite !calculateReadability_formula, Ew, Es, Ec. reflexivity.
Qed.

(** *** The tabs of suggestions *)

Lemma keywordsTab_results t st :
  resultsOf t st -> exists s, keywordsTab st = Items [s].
Proof.
  intros (_ & _ & _ & _ & E). unfold keywordsTab. rewrite E.
  rewrite suggestions_keywords. eexists. reflexivity.
Qed.

Lemma generalTab_results t st :
  resultsOf t st ->
  exists l, generalTab st = Items l /\ 2 <= List.length l <= 3.
Proof.
  intros (_ & _ & _ & _ & E). unfold generalTab. rewrite E.
  rewrite suggestions_general. eexists. split; [reflexivity|].
  destruct (calculateWordCount t <? 300)%nat; cbn; lia.
Qed.

Lemma structureTab_results t st :
  resultsOf t st ->
  (structureTab st = Message "Your content structure is well-organized!"
   <-> structureScore st = 100%float).
Proof.
  intros (_ & _ & Es & _ & E). unfold structureTab. rewrite E, Es.
  rewrite suggestions_structure, analyzeHeadings_score.
  destruct (HeadingResult.hasH1 _), (HeadingResult.hasSubheadings _);
    cbn [negb app tab List.length Nat.ltb Nat.leb]; split; intros H;
    try reflexivity; try discriminate; exfalso; revert H;
    apply float_neq; reflexivity.
Qed.

End Padding.

(* ================================================================= *)
(** ** The functions of [Index] in the notions of [Reference] *)

Module Notions.
Import JS Index Spec Binary64 Runtime Properties.
Import Page Reference Splitting Matching Headings Tokens Magnitude Rounding.
Import Analyzer Diversity Ranking Colour Padding.
Local Open Scope string_scope.

(** *** Qualifying tokens *)











Lemma runs_whitespaceOnly text :
  whitespaceOnly text -> runs notWhiteSpace false (chars text) = 0.
Proof.
  intros H. rewrite <- calculateWordCount_runs.
  apply calculateWordCount_whitespace, H.
Qed.

(** The readability of a text without sentence punctuation, written out. *)
Lemma readability_no_punctuation text :
  noSentenceMark text -> ~ whitespaceOnly text ->
  readabilitySentences text = 1 /\
  calculateReadability text
  = clamp (100
           - number (runs notWhiteSpace false (chars text)) / number 1 * 1.8
           - number (List.length (filter notWhiteSpace (chars text)))
             / number (runs notWhiteSpace false (chars text)) * 8)%float.
Proof.
  intros Hn Hb.
  pose proof (readabilitySentences_noSentenceMark text Hn) as Hs.
  destruct (readabilityWords_calculateWordCount text Hb) as [Hw _].
  split; [exact Hs|].
  rewrite calculateReadability_formula, Hs, Hw, calculateWordCount_runs,
    readabilityCharacters_filter.
  reflexivity.
Qed.


Lemma hasH1_topLevelHeading text :
  HeadingResult.hasH1 (analyzeHeadings text) = true
  <-> topLevelHeading (chars text).
Proof. apply hasH1_iff. Qed.

Lemma hasSubheadings_subHeading text :
  HeadingResult.hasSubheadings (analyzeHeadings text) = true
  <-> subHeading (chars text).
Proof. apply hasSubheadings_iff. Qed.

Lemma analyzeHeadings_of_text text :
  (HeadingResult.score (analyzeHeadings text) = 100%float
   <-> topLevelHeading (chars text) /\ subHeading (chars text)) /\
  (HeadingResult.score (analyzeHeadings text) = 50%float
   <-> (topLevelHeading (chars text) /\ ~ subHeading (chars text))
       \/ (~ topLevelHeading (chars text) /\ subHeading (chars text))) /\
  (HeadingResult.score (analyzeHeadings text) = 0%float
   <-> ~ topLevelHeading (chars text) /\ ~ subHeading (chars text)).
Proof.
  rewrite <- hasH1_topLevelHeading, <- hasSubheadings_subHeading.
  rewrite analyzeHeadings_score.
  assert (N1 : 0%float <> 50%float) by (apply float_neq; reflexivity).
  assert (N2 : 0%float <> 100%float) by (apply float_neq; reflexivity).
  assert (N3 : 50%float <> 100%float) by (apply float_neq; reflexivity).
  destruct (HeadingResult.hasH1 _), (HeadingResult.hasSubheadings _);
    intuition congruence.
Qed.

(** *** Degenerate texts *)







End Notions.

(* ================================================================= *)
(** ** Further properties of the scoring functions and of the page *)

Module Behaviour.
Import JS Index Spec Binary64 Runtime Properties.
Import Page Reference Splitting Matching Headings Tokens Magnitude Rounding.
Import Analyzer Diversity Ranking Colour Padding Notions.
Local Open Scope string_scope.

Lemma run_reachable_from evs : forall st,
  reachable st ->
  Forall (fun ev => match ev with Change value => wellFormed value
                                | _ => True end) evs ->
  reachable (fold_left dispatch evs st).
Proof.
  induction evs as [|ev evs IH]; intros st Hst H; cbn [fold_left];
    [exact Hst|].
  inversion H as [|? ? Hev Hevs]; subst.
  apply IH; [|exact Hevs]. apply reachable_step; assumption.
Qed.

Lemma run_reachable evs :
  Forall (fun ev => match ev with Change value => wellFormed value
                                | _ => True end) evs ->
  reachable (run evs).
Proof. apply run_reachable_from, reachable_initial. Qed.

Lemma wellFormed_short s :
  (Z.of_nat (String.length s) <=? maxLength)%Z = true -> wellFormed s.
Proof. apply Z.leb_le. Qed.

(* ================================================================= *)

(** X1: the word count of a text is the number of its maximal runs of code
    units that are not whitespace. *)
Theorem word_count_is_runs text :
  calculateWordCount text = runs notWhiteSpace false (chars text).
Proof. apply calculateWordCount_runs. Qed.

(** X2: the word count of two texts joined by whitespace is the sum of
    their word counts. *)
Theorem word_count_of_joined_texts a sep b :
  whitespaceOnly sep -> sep <> "" ->
  calculateWordCount (a ++ sep ++ b)
  = calculateWordCount a + calculateWordCount b.
Proof. apply calculateWordCount_append. Qed.

Lemma word_count_of_joined_texts_witness :
  calculateWordCount ("one two" ++ "  " ++ "three")
  = calculateWordCount "one two" + calculateWordCount "three".
Proof.
  apply (word_count_of_joined_texts "one two" "  " "three").
  - unfold whitespaceOnly. cbn [chars list_ascii_of_string].
    repeat constructor.
  - discriminate.
Defined.

(** X3: a text has no more words than code units that are not whitespace,
    and no more of these than code units. *)
Theorem word_count_at_most_characters text :
  calculateWordCount text <= readabilityCharacters text /\
  readabilityCharacters text <= String.length text.
Proof.
  split; [apply calculateWordCount_le_characters|].
  rewrite readabilityCharacters_filter, <- (text_chars text) at 1.
  rewrite <- (text_chars text) at 2. rewrite length_text, chars_text.
  apply filter_length_le.
Qed.

(** X4: the sentence count of [calculateReadability] is one more than the
    number of maximal runs of '.', '!' and '?' in the text. *)
Theorem sentence_count_is_runs text :
  readabilitySentences text = S (runs isSentenceMark false (chars text)).
Proof. apply readabilitySentences_runs. Qed.

(** X5: the character count of [calculateReadability] is the number of code
    units of the text that are not whitespace. *)
Theorem character_count_is_filter text :
  readabilityCharacters text
  = List.length (filter notWhiteSpace (chars text)).
Proof. apply readabilityCharacters_filter. Qed.

(** X6: on a text that is not blank, the word count of
    [calculateReadability] is that of [calculateWordCount], and it is at
    least 1. *)
Theorem readability_words_are_word_count text :
  ~ whitespaceOnly text ->
  readabilityWords text = calculateWordCount text /\
  1 <= calculateWordCount text.
Proof. apply readabilityWords_calculateWordCount. Qed.

Lemma readability_words_are_word_count_witness :
  readabilityWords " one  two three. " = calculateWordCount " one  two three. "
  /\ 1 <= calculateWordCount " one  two three. ".
Proof.
  apply (readability_words_are_word_count " one  two three. ").
  unfold whitespaceOnly. cbn [chars list_ascii_of_string].
  intros H. inversion H as [|? ? _ H']. inversion H' as [|? ? E _].
  vm_compute in E. discriminate E.
Defined.

(** X7: whitespace before and after a text changes neither its readability
    score nor its word count. *)
Theorem padding_is_ignored a text b :
  whitespaceOnly a -> whitespaceOnly b ->
  calculateReadability (a ++ text ++ b) = calculateReadability text /\
  calculateWordCount (a ++ text ++ b) = calculateWordCount text.
Proof.
  intros Ha Hb. split; [apply calculateReadability_padding; assumption|].
  apply (counts_padding a text b Ha Hb).
Qed.

Lemma padding_is_ignored_witness :
  calculateReadability ("  " ++ "One. Two three!" ++ " ")
  = calculateReadability "One. Two three!" /\
  calculateWordCount ("  " ++ "One. Two three!" ++ " ")
  = calculateWordCount "One. Two three!".
Proof.
  apply (padding_is_ignored "  " "One. Two three!" " ");
    unfold whitespaceOnly; cbn [chars list_ascii_of_string];
    repeat constructor.
Defined.

(** X8: the tokens of [analyzeKeywords] are the words (maximal runs of
    [A-Za-z0-9_]) of the lower-cased text that have three code units or more
    and only the letters a-z, in the order of the text. *)
Theorem keyword_tokens_are_words text :
  keywordTokens text
  = map JS.text (filter isKeyword (words [] (toLowerCase (chars text)))).
Proof. apply keywordTokens_words. Qed.

(** X9: the keyword list has at most five entries, no entry twice, and each
    entry is a token of the text: three or more letters a-z. *)
Theorem keyword_list_sound text :
  List.length (KeywordResult.keywords (analyzeKeywords text)) <= 5 /\
  NoDup (KeywordResult.keywords (analyzeKeywords text)) /\
  forall w, In w (KeywordResult.keywords (analyzeKeywords text)) ->
            In w (keywordTokens text) /\ qualifying w.
Proof.
  split; [apply keywords_length|]. split; [apply keywords_NoDup|].
  intros w H. split; [apply keywords_are_tokens, H|].
  eapply keywords_qualifying, H.
Qed.

(** X10: when no token names a function inherited from [Object.prototype],
    the keyword list is in descending order of frequency and every token
    left out of it is at most as frequent as every keyword. *)
Theorem keyword_list_most_frequent text :
  Forall plain (keywordTokens text) ->
  descending (map (frequency (keywordTokens text))
                  (KeywordResult.keywords (analyzeKeywords text))) /\
  forall k w,
    In k (KeywordResult.keywords (analyzeKeywords text)) ->
    In w (keywordTokens text) ->
    ~ In w (KeywordResult.keywords (analyzeKeywords text)) ->
    frequency (keywordTokens text) w <= frequency (keywordTokens text) k.
Proof.
  intros H. split; [apply keywords_descending, H|].
  intros k w. apply keywords_top, H.
Qed.

Lemma keyword_list_most_frequent_witness :
  let text := "cat cat cat dog dog bird" in
  descending (map (frequency (keywordTokens text))
                  (KeywordResult.keywords (analyzeKeywords text))) /\
  forall k w,
    In k (KeywordResult.keywords (analyzeKeywords text)) ->
    In w (keywordTokens text) ->
    ~ In w (KeywordResult.keywords (analyzeKeywords text)) ->
    frequency (keywordTokens text) w <= frequency (keywordTokens text) k.
Proof.
  apply (keyword_list_most_frequent "cat cat cat dog dog bird").
  vm_compute. repeat constructor.
Defined.

(** X11: a text whose tokens are all different has keyword score 100. *)
Theorem distinct_tokens_score_100 text :
  wellFormed text -> keywordTokens text <> [] ->
  NoDup (keywordTokens text) ->
  KeywordResult.score (analyzeKeywords text) = 100%float.
Proof. apply analyzeKeywords_all_distinct. Qed.

Lemma distinct_tokens_score_100_witness :
  KeywordResult.score (analyzeKeywords "The quick brown fox") = 100%float.
Proof.
  apply (distinct_tokens_score_100 "The quick brown fox").
  - apply wellFormed_short. vm_compute. reflexivity.
  - vm_compute. discriminate.
  - vm_compute. repeat constructor; cbn [In]; intuition discriminate.
Defined.

(** X12: [analyzeHeadings] finds a top-level heading exactly when the text
    has a line that starts with one hash sign, a white space and a further
    code unit of the line, or has [<h1], code units other than [>], [>], one
    or more code units of one line and [</h1>], in either case of the
    letter h. *)
Theorem h1_detection text :
  HeadingResult.hasH1 (analyzeHeadings text) = true <->
  markdownHeading (fun n => n = 1) (chars text) \/
  htmlHeading (fun ch => eqc ch "1") (chars text).
Proof. apply hasH1_iff. Qed.

(** X13: [analyzeHeadings] finds a subheading exactly when the text has a
    line that starts with two or more hash signs, a white space and a
    further code unit of the line, or has an opening tag [<h2] to [<h6],
    one or more code units of one line and a closing tag [</h2>] to
    [</h6>]; the two levels need not agree. *)
Theorem subheading_detection text :
  HeadingResult.hasSubheadings (analyzeHeadings text) = true <->
  markdownHeading (fun n => 2 <= n) (chars text) \/
  htmlHeading (between 50 54) (chars text).
Proof. apply hasSubheadings_iff. Qed.

(** X14: the handler of "Analyze Content" leaves the state as it is when
    the content is blank. *)
Theorem analyze_blank_does_nothing st :
  whitespaceOnly (content st) -> handleAnalyze st = st.
Proof. apply handleAnalyze_blank. Qed.

Lemma analyze_blank_does_nothing_witness :
  handleAnalyze (setContent "   " initialState) = setContent "   " initialState.
Proof.
  apply (analyze_blank_does_nothing (setContent "   " initialState)).
  unfold whitespaceOnly. cbn [setContent content chars list_ascii_of_string].
  repeat constructor.
Defined.

(** X15: on content that is not blank the handler of "Analyze Content" keeps
    the content, shows the results and stores the five results of that
    content. *)
Theorem analyze_stores_results st :
  ~ whitespaceOnly (content st) ->
  analyzed (handleAnalyze st) = true /\
  content (handleAnalyze st) = content st /\
  resultsOf (content st) (handleAnalyze st).
Proof. apply handleAnalyze_results. Qed.

Lemma analyze_stores_results_witness :
  let st := setContent "# Title" initialState in
  analyzed (handleAnalyze st) = true /\
  content (handleAnalyze st) = content st /\
  resultsOf (content st) (handleAnalyze st).
Proof.
  apply (analyze_stores_results (setContent "# Title" initialState)).
  unfold whitespaceOnly. cbn [setContent content chars list_ascii_of_string].
  intros H. inversion H as [|? ? E _]. vm_compute in E. discriminate E.
Defined.

(** X16: in every state the page can reach, either no analysis has run and
    the results are the initial ones, or the three scores, the word count
    and the suggestions are the results of one and the same text, which is
    not blank. *)
Theorem results_of_one_text st :
  reachable st -> invariant st.
Proof. apply reachable_invariant. Qed.

Lemma results_of_one_text_witness :
  invariant (run [Change "# Title"; ClickAnalyze; Change "other"]).
Proof.
  apply (results_of_one_text
           (run [Change "# Title"; ClickAnalyze; Change "other"])).
  apply run_reachable.
  repeat constructor; apply wellFormed_short; vm_compute; reflexivity.
Defined.

(** X17: in every state the page can reach the overall score is a whole
    number from 0 to 100. *)
Theorem overall_score_whole_number st :
  reachable st ->
  exists n : nat, n <= 100 /\ overallScore st = number n.
Proof.
  intros H. unfold overallScore. destruct (analyzed st).
  - destruct (invariant_scores st (reachable_invariant st H))
      as (Hr & Hk & Hs).
    apply mean_small; assumption.
  - exists 0. split; [lia|reflexivity].
Qed.

Lemma overall_score_whole_number_witness :
  exists n : nat,
    n <= 100 /\
    overallScore (run [Change "one two three. four"; ClickAnalyze]) = number n.
Proof.
  apply (overall_score_whole_number
           (run [Change "one two three. four"; ClickAnalyze])).
  apply run_reachable.
  repeat constructor; apply wellFormed_short; vm_compute; reflexivity.
Defined.

Lemma Math_round_score x :
  atMost hundred (Prim2SF x) ->
  exists n : nat, n <= 100 /\ Math_round x = number n.
Proof.
  intros [C M]. apply Math_round_small; [exact C|].
  unfold hundred in M.
  assert (P : (2 ^ 1200 = 2 * 2 ^ 1199)%Z)
    by (rewrite <- Z.pow_succ_r by lia; reflexivity).
  pose proof (pow2_gt0 1199 ltac:(lia)). lia.
Qed.

(** X18: in every state the page can reach, each of the three scores is
    displayed, rounded, as a whole number from 0 to 100. *)
Theorem displayed_scores_whole_numbers st :
  reachable st ->
  (exists n : nat, n <= 100 /\ Math_round (readabilityScore st) = number n) /\
  (exists n : nat, n <= 100 /\ Math_round (keywordScore st) = number n) /\
  (exists n : nat, n <= 100 /\ Math_round (structureScore st) = number n).
Proof.
  intros H.
  destruct (invariant_scores st (reachable_invariant st H)) as (Hr & Hk & Hs).
  repeat split; apply Math_round_score; assumption.
Qed.

Lemma displayed_scores_whole_numbers_witness :
  let st := run [Change "one two three. four"; ClickAnalyze] in
  (exists n : nat, n <= 100 /\ Math_round (readabilityScore st) = number n) /\
  (exists n : nat, n <= 100 /\ Math_round (keywordScore st) = number n) /\
  (exists n : nat, n <= 100 /\ Math_round (structureScore st) = number n).
Proof.
  apply (displayed_scores_whole_numbers
           (run [Change "one two three. four"; ClickAnalyze])).
  apply run_reachable.
  repeat constructor; apply wellFormed_short; vm_compute; reflexivity.
Defined.

(** X19: the colour of a score never gets worse when the score grows: from
    red over yellow to green. *)
Theorem score_colour_monotone a b :
  (a <=? b)%float = true ->
  colorRank (getScoreColor a) <= colorRank (getScoreColor b).
Proof. apply getScoreColor_monotone. Qed.

Lemma score_colour_monotone_witness :
  colorRank (getScoreColor 39.5) <= colorRank (getScoreColor 70).
Proof.
  apply (score_colour_monotone 39.5 70). vm_compute. reflexivity.
Defined.

(** X20: once the page shows results, the keywords tab shows exactly one
    suggestion and the general tab two or three: the message "Your keyword
    usage is well-optimized!" is never shown. *)
Theorem keywords_tab_never_empty st :
  reachable st -> analyzed st = true ->
  (exists s, keywordsTab st = Items [s]) /\
  (exists l, generalTab st = Items l /\ 2 <= List.length l <= 3).
Proof.
  intros H Ha.
  destruct (invariant_analyzed st (reachable_invariant st H) Ha)
    as (t & _ & _ & R).
  split; [eapply keywordsTab_results|eapply generalTab_results]; exact R.
Qed.

Lemma keywords_tab_never_empty_witness :
  let st := run [Change "one two three. four"; ClickAnalyze] in
  (exists s, keywordsTab st = Items [s]) /\
  (exists l, generalTab st = Items l /\ 2 <= List.length l <= 3).
Proof.
  apply (keywords_tab_never_empty
           (run [Change "one two three. four"; ClickAnalyze])).
  - apply run_reachable.
    repeat constructor; apply wellFormed_short; vm_compute; reflexivity.
  - vm_compute. reflexivity.
Defined.

(** X21: once the page shows results, the word count it shows is at least
    1, and it is the word count the readability score was computed with. *)
Theorem analyzed_word_count_positive st :
  reachable st -> analyzed st = true ->
  1 <= wordCount st /\
  exists t,
    wordCount st = readabilityWords t /\
    readabilityScore st = calculateReadability t.
Proof.
  intros H Ha.
  destruct (invariant_analyzed st (reachable_invariant st H) Ha)
    as (t & _ & Hb & Er & _ & _ & Ew & _).
  destruct (readabilityWords_calculateWordCount t Hb) as [E1 E2].
  split; [rewrite Ew; exact E2|].
  exists t. split; [congruence|exact Er].
Qed.

Lemma analyzed_word_count_positive_witness :
  let st := run [Change "one two three. four"; ClickAnalyze] in
  1 <= wordCount st /\
  exists t,
    wordCount st = readabilityWords t /\
    readabilityScore st = calculateReadability t.
Proof.
  apply (analyzed_word_count_positive
           (run [Change "one two three. four"; ClickAnalyze])).
  - apply run_reachable.
    repeat constructor; apply wellFormed_short; vm_compute; reflexivity.
  - vm_compute. reflexivity.
Defined.

(** X22: once the page shows results, the structure tab shows "Your content
    structure is well-organized!" exactly when the structure score is 100. *)
Theorem structure_message_iff_full_score st :
  reachable st -> analyzed st = true ->
  (structureTab st = Message "Your content structure is well-organized!"
   <-> structureScore st = 100%float).
Proof.
  intros H Ha.
  destruct (invariant_analyzed st (reachable_invariant st H) Ha)
    as (t & _ & _ & R).
  eapply structureTab_results, R.
Qed.

Lemma structure_message_iff_full_score_witness :
  let st := run [Change "# Title"; ClickAnalyze] in
  (structureTab st = Message "Your content structure is well-organized!"
   <-> structureScore st = 100%float).
Proof.
  apply (structure_message_iff_full_score (run [Change "# Title"; ClickAnalyze])).
  - apply run_reachable.
    repeat constructor; apply wellFormed_short; vm_compute; reflexivity.
  - vm_compute. reflexivity.
Defined.

(** *** The properties of the specification stated on the text *)



(** C2: a text of three words without '.', '!' or '?' has sentence count 1
    and its readability is the formula on 3 words, 1 sentence and its
    characters, clamped to 0..100, and not the 0 of the guard; for
    "one two three" that is 100 - 3 * 1.8 - 11 / 3 * 8 = 65.27. *)
Theorem three_words_one_sentence :
  (forall text,
     noSentenceMark text ->
     runs notWhiteSpace false (chars text) = 3 ->
     readabilitySentences text = 1 /\
     calculateReadability text
     = clamp (100 - number 3 / number 1 * 1.8
              - number (List.length (filter notWhiteSpace (chars text)))
                / number 3 * 8)%float) /\
  calculateReadability "one two three" = 65.266666666666666%float /\
  calculateReadability "one two three" <> 0%float.
Proof.
  split; [|split; [vm_compute; reflexivity|apply float_neq; vm_compute; reflexivity]].
  intros text Hn Hw.
  assert (Hb : ~ whitespaceOnly text).
  { intros Hb. rewrite (runs_whitespaceOnly text Hb) in Hw. discriminate. }
  destruct (readability_no_punctuation text Hn Hb) as [Hs Hr].
  split; [exact Hs|]. rewrite Hr, Hw. reflexivity.
Qed.

Lemma three_words_one_sentence_witness :
  readabilitySentences "one two three" = 1 /\
  calculateReadability "one two three"
  = clamp (100 - number 3 / number 1 * 1.8
           - number (List.length
                       (filter notWhiteSpace (chars "one two three")))
             / number 3 * 8)%float.
Proof.
  apply (proj1 three_words_one_sentence "one two three").
  - unfold noSentenceMark. cbn [chars list_ascii_of_string].
    repeat constructor.
  - vm_compute. reflexivity.
Defined.

(** C5: the heading score is 0, 50 or 100.  It is 100 exactly when the text
    has a top-level heading and a subheading, 0 exactly when it has
    neither, and 50 exactly when it has one of the two; the two flags say
    which.  Scenario 1 has a top-level heading, no subheading and score 50;
    a text with both scores 100 and one with neither scores 0. *)
Theorem heading_score_of_text :
  (forall text,
     let h := analyzeHeadings text in
     (HeadingResult.score h = 0%float \/ HeadingResult.score h = 50%float
      \/ HeadingResult.score h = 100%float) /\
     (HeadingResult.hasH1 h = true <-> topLevelHeading (chars text)) /\
     (HeadingResult.hasSubheadings h = true <-> subHeading (chars text)) /\
     (HeadingResult.score h = 100%float
      <-> topLevelHeading (chars text) /\ subHeading (chars text)) /\
     (HeadingResult.score h = 50%float
      <-> (topLevelHeading (chars text) /\ ~ subHeading (chars text))
          \/ (~ topLevelHeading (chars text) /\ subHeading (chars text))) /\
     (HeadingResult.score h = 0%float
      <-> ~ topLevelHeading (chars text) /\ ~ subHeading (chars text))) /\
  analyzeHeadings scenario1 = HeadingResult.mk 50 true false /\
  analyzeHeadings ("# Title" ++ newline ++ "## Part one")
  = HeadingResult.mk 100 true true /\
  analyzeHeadings "<H1 class=x>Title</h1> and <h2>Part</h3>"
  = HeadingResult.mk 100 true true /\
  analyzeHeadings "## Part one" = HeadingResult.mk 50 false true /\
  analyzeHeadings "No heading here" = HeadingResult.mk 0 false false.
Proof.
  split; [|repeat split; vm_compute; reflexivity].
  intros text. cbn zeta.
  split.
  { rewrite analyzeHeadings_score.
    destruct (HeadingResult.hasH1 _), (HeadingResult.hasSubheadings _); auto. }
  split; [apply hasH1_topLevelHeading|].
  split; [apply hasSubheadings_subHeading|].
  apply analyzeHeadings_of_text.
Qed.






End Behaviour.
